(** * The C++ binding generator of isl (interface/cpp.cc)

    A shallow embedding of [cpp_generator]: the printers of
    interface/cpp.cc become computations that append text to the output
    stream, may abort, and may touch the class map of the generator.
    The statements of the end of the file are about the text these
    computations emit. *)

From Stdlib Require Import String Ascii List ZArith Bool Lia DecimalString.
From Stdlib Require Import OrderedTypeEx.
Import ListNotations.

Set Warnings "-register-all".

Local Open Scope string_scope.
Local Open Scope Z_scope.

(** ** Strings, as std::string is used by the generator *)

(** [s.substr(pos)]: the suffix from [pos] on; std::out_of_range
    (here [None]) when [pos] exceeds the size. *)
Fixpoint substr (s : string) (pos : nat) : option string :=
  match pos with
  | O => Some s
  | S pos' => match s with
              | EmptyString => None
              | String _ s' => substr s' pos'
              end
  end.

(** [s.find(pat)]: position of the first occurrence, [None] for npos. *)
Definition find (s pat : string) : option nat := index 0 pat s.

(** [s.replace(pos, len, by)] for a position inside the string. *)
Definition replace (s : string) (pos len : nat) (by_ : string) : string :=
  substring 0 pos s ++ by_
    ++ substring (pos + len) (String.length s - (pos + len)) s.

(** [::to_string(long)] of the source: the decimal rendering. *)
Definition to_string (l : Z) : string := NilZero.string_of_int (Z.to_int l).

(** [bool extensions = true;] *)
Definition extensions : bool := true.

(** ** The clang declarations the generator reads *)

Module QualType.
  (** A type as clang hands it over: its printed form and the few
      observations the generator makes of it. *)
Inductive t : Type :=
  | Plain (spelling : string) (integer enumeral : bool)
  | PointerTo (spelling : string) (pointee : t)
  | FunctionProto (spelling : string) (ret : t) (args : list t).

Definition getAsString (type : t) : string :=
    match type with
    | Plain s _ _ | PointerTo s _ | FunctionProto s _ _ => s
    end.

Definition isIntegerType (type : t) : bool :=
    match type with Plain _ i _ => i | _ => false end.

Definition isEnumeralType (type : t) : bool :=
    match type with Plain _ _ e => e | _ => false end.

  (** [type->getPointeeType()]; a null type when [type] is no pointer. *)
Definition getPointeeType (type : t) : option t :=
    match type with PointerTo _ p => Some p | _ => None end.
End QualType.

Module ParmVarDecl.
Record t : Type := mk {
    getName : string;
    getType : QualType.t;
    getOriginalType : QualType.t;
    attrs : list string
  }.
End ParmVarDecl.

Module FunctionDecl.
Record t : Type := mk {
    getName : string;
    getReturnType : QualType.t;
    params : list ParmVarDecl.t;
    attrs : list string
  }.

Definition getNumParams (f : t) : Z := Z.of_nat (List.length (params f)).
End FunctionDecl.

Module RecordDecl.
Record t : Type := mk {
    getName : string;
    attrs : list string
  }.
End RecordDecl.

(** ** The description of a class (struct isl_class) *)

Module isl_class.
Record t : Type := mk {
    name : string;
    subclass_name : string;
    type : option RecordDecl.t;
    constructors : list FunctionDecl.t;
    methods : list (string * list FunctionDecl.t);
    fn_type : option FunctionDecl.t;
    fn_to_str : option FunctionDecl.t;
    fn_is_equal : option FunctionDecl.t
  }.

  (** A default-constructed [isl_class], as [std::map::operator[]]
      creates it for a key that is not in the map. *)
Definition default : t :=
    mk "" "" None [] [] None None None.
End isl_class.

(** A [const isl_class &] handed to a printer always refers to an element
    of the [classes] map.  The map never moves or changes an element, so
    the reference is its address, identified with the key of the element,
    together with the element. *)
Record class_ref : Type := mk_ref {
  addr : string;
  deref :> isl_class.t
}.

Inductive function_kind : Type :=
| function_kind_static_method
| function_kind_member_method
| function_kind_constructor.

Definition function_kind_eqb (a b : function_kind) : bool :=
  match a, b with
  | function_kind_static_method, function_kind_static_method
  | function_kind_member_method, function_kind_member_method
  | function_kind_constructor, function_kind_constructor => true
  | _, _ => false
  end.

(** ** The base class [generator]

    cpp_generator derives from [generator] (generator.h, generator.cc),
    and [isl_class] has member functions declared there.  cpp.cc only
    calls them; they are the interface the generator is written against. *)
Class generator : Type := {
  is_isl_type : QualType.t -> bool;
  is_isl_ctx : QualType.t -> bool;
  is_isl_bool : QualType.t -> bool;
  is_isl_stat : QualType.t -> bool;
  is_isl_enum : QualType.t -> bool;
  is_string : QualType.t -> bool;
  is_callback : QualType.t -> bool;
  keeps : ParmVarDecl.t -> bool;
  gives : FunctionDecl.t -> bool;
  callback_takes_arguments : QualType.t -> bool;
  is_static : isl_class.t -> FunctionDecl.t -> bool;
  find_superclasses : option RecordDecl.t -> list string;
  (** [isl_class::is_type_subclass()] and [isl_class::method_name()] *)
  is_type_subclass : isl_class.t -> bool;
  method_name : isl_class.t -> FunctionDecl.t -> string
}.

(** ** Ways in which a run of the generator ends early *)

Inductive failure : Type :=
| Die (msg : string)        (* die(): message on stderr, then abort *)
| OutOfRange                (* an uncaught std::out_of_range *)
| Undefined (what : string) (* a null, out-of-range or dangling access *)
| OutOfFuel.                (* a loop that is still running *)

Inductive result (A : Type) : Type :=
| Ok (a : A)
| Fail (e : failure).
Arguments Ok {A} a.
Arguments Fail {A} e.

Definition rbind {A B} (r : result A) (f : A -> result B) : result B :=
  match r with
  | Ok a => f a
  | Fail e => Fail e
  end.

Definition expect {A} (o : option A) (e : failure) : result A :=
  match o with
  | Some a => Ok a
  | None => Fail e
  end.

Declare Scope result_scope.
Delimit Scope result_scope with result.
Notation "x <- c1 ;; c2" := (rbind c1 (fun x => c2))
  (at level 61, c1 at next level, right associativity) : result_scope.

(** ** The type mapper *)

(** [cpp_generator::type2cpp(string type_str)] *)
Definition type2cpp_str (type_str : string) : result string :=
  expect (substr type_str 4) OutOfRange.

(** [cpp_generator::type2cpp(const isl_class &clazz)] *)
Definition type2cpp_class (clazz : isl_class.t) : result string :=
  type2cpp_str (isl_class.subclass_name clazz).

(** [typestr.replace(typestr.find("isl_"), sizeof("isl_")-1, "isl::")];
    [replace] throws when [find] returns npos. *)
Definition replace_isl_prefix (typestr : string) : result string :=
  (pos <- expect (find typestr "isl_") OutOfRange ;;
   Ok (replace typestr pos 4 "isl::"))%result.

(** [type->getPointeeType()->getAs<FunctionProtoType>()], a null pointer
    unless the type is a pointer to a function prototype. *)
Definition getAs_FunctionProtoType (type : QualType.t)
  : option (QualType.t * QualType.t * list QualType.t) :=
  match type with
  | QualType.PointerTo _ (QualType.FunctionProto s r a) =>
      Some (QualType.FunctionProto s r a, r, a)
  | _ => None
  end.

Section TypeMapper.
Context {G : generator}.
Variable noexceptions : bool.

  (** [cpp_generator::isl_bool2cpp] *)
Definition isl_bool2cpp : string :=
    if noexceptions then "isl::boolean" else "bool".

Section Callback.
    (** The mapping of the argument and result types of a callback is
        [type2cpp] itself; it is a parameter here and tied below. *)
Variable type2cpp_rec : QualType.t -> result string.

    (** The loop of [generate_callback_args], at index [i] with the
        argument types from [i] on still to visit. *)
Fixpoint callback_args_loop (cpp : bool) (num_params i : Z)
        (rest : list QualType.t) : result string :=
      match rest with
      | [] => Ok ""
      | type :: rest' =>
          if i <? num_params then
            (s <- (if cpp then type2cpp_rec type
                   else Ok (QualType.getAsString type)) ;;
             let s := if cpp then s else s ++ "arg_" ++ to_string i in
             let s := if negb (i =? num_params - 1) then s ++ ", " else s in
             t <- callback_args_loop cpp num_params (i + 1) rest' ;;
             Ok (s ++ t))%result
          else Ok ""
      end.

Definition generate_callback_args_with (args : list QualType.t)
        (cpp : bool) : result string :=
      let num_params := Z.of_nat (List.length args) in
      let num_params := if cpp then num_params - 1 else num_params in
      callback_args_loop cpp num_params 0 args.

Definition generate_callback_type_with (return_type : QualType.t)
        (args : list QualType.t) : result string :=
      (rettype_str <- type2cpp_rec return_type ;;
       args_str <- generate_callback_args_with args true ;;
       Ok ("std::function<" ++ rettype_str ++ "(" ++ args_str ++ ")>"))%result.
End Callback.

  (** [cpp_generator::type2cpp(QualType type)] *)
Fixpoint type2cpp (type : QualType.t) {struct type} : result string :=
    if is_isl_type type then
      (pointee <- expect (QualType.getPointeeType type)
                    (Undefined "getPointeeType") ;;
       s <- type2cpp_str (QualType.getAsString pointee) ;;
       Ok ("isl::" ++ s))%result
    else if is_isl_bool type then Ok isl_bool2cpp
    else if is_isl_stat type then
      Ok (if noexceptions then "isl::stat" else "void")
    else if extensions && QualType.isEnumeralType type then
      replace_isl_prefix (QualType.getAsString type)
    else if extensions && is_isl_ctx type then Ok "isl::ctx"
    else if QualType.isIntegerType type then Ok (QualType.getAsString type)
    else if is_string type then Ok "std::string"
    else if is_callback type then
      match type with
      | QualType.PointerTo _ (QualType.FunctionProto _ return_type args) =>
          generate_callback_type_with type2cpp return_type args
      | _ => Fail (Undefined "getAs<FunctionProtoType>")
      end
    else Fail (Die "Cannot convert type to C++ type").

  (** [cpp_generator::generate_callback_args] *)
Definition generate_callback_args (type : QualType.t) (cpp : bool)
    : result string :=
    match getAs_FunctionProtoType type with
    | Some (_, _, args) => generate_callback_args_with type2cpp args cpp
    | None => Fail (Undefined "getAs<FunctionProtoType>")
    end.

  (** [cpp_generator::generate_callback_type] *)
Definition generate_callback_type (type : QualType.t) : result string :=
    match getAs_FunctionProtoType type with
    | Some (_, return_type, args) =>
        generate_callback_type_with type2cpp return_type args
    | None => Fail (Undefined "getAs<FunctionProtoType>")
    end.
End TypeMapper.

(** ** The generator object and the printing computations *)

(** [std::map<string, isl_class> classes] is kept as the list of its
    entries in increasing key order, the order in which it is traversed. *)
Definition class_map : Type := list (string * isl_class.t).

Record cpp_generator : Type := mk_gen {
  noexceptions : bool;
  classes : class_map
}.

Fixpoint map_find (m : class_map) (k : string) : option isl_class.t :=
  match m with
  | [] => None
  | (k', c) :: m' => if String.eqb k k' then Some c else map_find m' k
  end.

(** Insertion of a new entry at its place in the key order. *)
Fixpoint map_insert (m : class_map) (k : string) (c : isl_class.t)
  : class_map :=
  match m with
  | [] => [(k, c)]
  | (k', c') :: m' =>
      match String.compare k k' with
      | Gt => (k', c') :: map_insert m' k c
      | _ => (k, c) :: m
      end
  end.

(** The map after [m[k]] was evaluated: a default-constructed element is
    inserted when the key is absent. *)
Definition map_index (m : class_map) (k : string) : class_map :=
  match map_find m k with
  | Some _ => m
  | None => map_insert m k isl_class.default
  end.

(** [m.begin()] and [++it]; an iterator is the key it stands at, [None]
    for [m.end()]. *)
Definition map_begin (m : class_map) : option string :=
  match m with
  | [] => None
  | (k, _) :: _ => Some k
  end.

Fixpoint map_next (m : class_map) (k : string) : option string :=
  match m with
  | [] => None
  | (k', _) :: m' =>
      match String.compare k k' with
      | Lt => Some k'
      | _ => map_next m' k
      end
  end.

(** A computation of the generator: from the generator object to the
    object afterwards, the text appended to the stream, and the value
    returned unless the run ended early. *)
Definition M (A : Type) : Type :=
  cpp_generator -> cpp_generator * string * result A.

Definition ret {A} (a : A) : M A := fun g => (g, "", Ok a).

Definition bind {A B} (m : M A) (f : A -> M B) : M B := fun g =>
  match m g with
  | (g1, o1, Ok a) =>
      match f a g1 with
      | (g2, o2, r) => (g2, o1 ++ o2, r)
      end
  | (g1, o1, Fail e) => (g1, o1, Fail e)
  end.

Definition fail {A} (e : failure) : M A := fun g => (g, "", Fail e).

Definition lift {A} (r : result A) : M A := fun g => (g, "", r).

(** Reading a member of the generator object. *)
Definition read {A} (f : cpp_generator -> A) : M A :=
  fun g => (g, "", Ok (f g)).

(** [osprintf(os, ...)] with the arguments already spliced in. *)
Definition osprintf (s : string) : M unit := fun _g => (_g, s, Ok tt).

(** [&classes[k]] *)
Definition classes_index (k : string) : M class_ref := fun g =>
  let c := match map_find (classes g) k with
           | Some c => c
           | None => isl_class.default
           end in
  (mk_gen (noexceptions g) (map_index (classes g) k), "", Ok (mk_ref k c)).

Declare Scope gen_scope.
Delimit Scope gen_scope with gen.
Notation "x <- c1 ;; c2" := (bind c1 (fun x => c2))
  (at level 61, c1 at next level, right associativity) : gen_scope.
Notation "' pat <- c1 ;; c2" := (bind c1 (fun x => match x with pat => c2 end))
  (at level 61, pat pattern, c1 at next level, right associativity) : gen_scope.
Notation "c1 ;; c2" := (bind c1 (fun _ => c2))
  (at level 61, right associativity) : gen_scope.

Definition nl : string := String (ascii_of_nat 10) EmptyString.
Definition dq : string := String (ascii_of_nat 34) EmptyString.

(** The three views of a run. *)
Definition state_of {A} (r : cpp_generator * string * result A)
  : cpp_generator :=
  fst (fst r).
Definition text_of {A} (r : cpp_generator * string * result A) : string :=
  snd (fst r).
Definition value_of {A} (r : cpp_generator * string * result A) : result A :=
  snd r.

(** [method->getParamDecl(i)]; no declaration is there to read when [i]
    is not below the number of parameters. *)
Definition getParamDecl (method : FunctionDecl.t) (i : nat)
  : result ParmVarDecl.t :=
  expect (nth_error (FunctionDecl.params method) i) (Undefined "getParamDecl").

(** [static const char *rename_map[][2]] *)
Definition rename_map : list (string * string) :=
  [ ("union", "unite"); ("delete", "del") ].

Fixpoint rename_lookup (map : list (string * string)) (name : string)
  : string :=
  match map with
  | [] => name
  | (from, to) :: map' =>
      if String.eqb name from then to else rename_lookup map' name
  end.

(** [cpp_generator::rename_method] *)
Definition rename_method (name : string) : string :=
  rename_lookup rename_map name.

Section Printers.
Context {G : generator}.

(** The number of iterations granted to the two loops of the generator
    whose trip count is not fixed by a list: the traversal of [classes]
    and the work list of [is_subclass]. *)
Variable fuel : nat.

Local Open Scope gen_scope.

(** [type2cpp] and its relatives inside a printer. *)
Definition type2cpp_m (type : QualType.t) : M string :=
  noexc <- read noexceptions ;; lift (type2cpp noexc type).

Definition isl_bool2cpp_m : M string :=
  noexc <- read noexceptions ;; ret (isl_bool2cpp noexc).

(** *** Traversal of the class map

    [for (ci = classes.begin(); ci != classes.end(); ++ci) body], with the
    loop-carried local [a].  The body may evaluate [classes[k]]; the
    iterator stays valid and moves on in the map as it then is. *)
Definition iterator_deref (k : string) : M class_ref := fun g =>
  (g, "", match map_find (classes g) k with
          | Some c => Ok (mk_ref k c)
          | None => Fail (Undefined "iterator")
          end).

Fixpoint classes_loop {A} (n : nat) (body : class_ref -> A -> M A)
    (ci : option string) (a : A) : M A :=
  match ci with
  | None => ret a
  | Some k =>
      match n with
      | O => fail OutOfFuel
      | S n' =>
          clazz <- iterator_deref k ;;
          a' <- body clazz a ;;
          ci' <- read (fun g => map_next (classes g) k) ;;
          classes_loop n' body ci' a'
      end
  end.

Definition for_classes {A} (body : class_ref -> A -> M A) (a : A) : M A :=
  ci <- read (fun g => map_begin (classes g)) ;;
  classes_loop fuel body ci a.

(** *** Declarations *)

(** [cpp_generator::print_class_forward_decl] *)
Definition print_class_forward_decl (clazz : class_ref) : M unit :=
  cppname <- lift (type2cpp_class clazz) ;;
  osprintf ("class " ++ cppname ++ ";" ++ nl).

(** [cpp_generator::print_forward_declarations] *)
Definition print_forward_declarations : M unit :=
  osprintf ("// forward declarations" ++ nl) ;;
  for_classes (fun clazz _ => print_class_forward_decl clazz) tt.

(** [cpp_generator::print_subclass_type] *)
Definition print_subclass_type (clazz : class_ref) : M unit :=
  cppname <- lift (type2cpp_class clazz) ;;
  supername <- lift (type2cpp_str (isl_class.name clazz)) ;;
  if negb (is_type_subclass clazz) then ret tt
  else
    b <- isl_bool2cpp_m ;;
    osprintf ("  friend " ++ b ++ " " ++ supername ++ "::isa<" ++ cppname
              ++ ">();" ++ nl) ;;
    osprintf ("  friend " ++ cppname ++ " " ++ supername ++ "::as<" ++ cppname
              ++ ">();" ++ nl) ;;
    osprintf ("  static const auto type = " ++ isl_class.subclass_name clazz
              ++ ";" ++ nl).

(** [cpp_generator::print_class_factory_decl]; the declaration in cpp.h
    gives [prefix] the empty string as default. *)
Definition print_class_factory_decl (clazz : class_ref) (prefix : string)
  : M unit :=
  let name := isl_class.name clazz in
  cppname <- lift (type2cpp_class clazz) ;;
  if is_type_subclass clazz then ret tt
  else
    osprintf prefix ;;
    osprintf ("inline isl::" ++ cppname ++ " manage(__isl_take " ++ name
              ++ " *ptr);" ++ nl) ;;
    osprintf prefix ;;
    osprintf ("inline isl::" ++ cppname ++ " manage_copy(__isl_keep " ++ name
              ++ " *ptr);" ++ nl).

(** [cpp_generator::print_protected_constructors_decl] *)
Definition print_protected_constructors_decl (clazz : class_ref) : M unit :=
  let name := isl_class.name clazz in
  cppname <- lift (type2cpp_class clazz) ;;
  osprintf ("  inline explicit " ++ cppname ++ "(__isl_take " ++ name
            ++ " *ptr);" ++ nl).

(** [cpp_generator::print_public_constructors_decl] *)
Definition print_public_constructors_decl (clazz : class_ref) : M unit :=
  cppname <- lift (type2cpp_class clazz) ;;
  osprintf ("  inline /* implicit */ " ++ cppname ++ "();" ++ nl) ;;
  osprintf ("  inline /* implicit */ " ++ cppname ++ "(const isl::" ++ cppname
            ++ " &obj);" ++ nl).

(** [cpp_generator::print_copy_assignment_decl] *)
Definition print_copy_assignment_decl (clazz : class_ref) : M unit :=
  cppname <- lift (type2cpp_class clazz) ;;
  osprintf ("  inline isl::" ++ cppname ++ " &operator=(isl::" ++ cppname
            ++ " obj);" ++ nl).

(** [cpp_generator::print_destructor_decl] *)
Definition print_destructor_decl (clazz : class_ref) : M unit :=
  cppname <- lift (type2cpp_class clazz) ;;
  if is_type_subclass clazz then ret tt
  else osprintf ("  inline ~" ++ cppname ++ "();" ++ nl).

(** [cpp_generator::print_ptr_decl] *)
Definition print_ptr_decl (clazz : class_ref) : M unit :=
  let name := isl_class.name clazz in
  if is_type_subclass clazz then ret tt
  else
    osprintf ("  inline __isl_give " ++ name ++ " *copy() const &;" ++ nl) ;;
    osprintf ("  inline __isl_give " ++ name ++ " *copy() && = delete;"
              ++ nl) ;;
    osprintf ("  inline __isl_keep " ++ name ++ " *get() const;" ++ nl) ;;
    osprintf ("  inline __isl_give " ++ name ++ " *release();" ++ nl) ;;
    osprintf ("  inline bool is_null() const;" ++ nl) ;;
    osprintf ("  inline explicit operator bool() const;" ++ nl).

(** [cpp_generator::print_downcast_decl] *)
Definition print_downcast_decl (clazz : class_ref) : M unit :=
  match isl_class.fn_type clazz with
  | None => ret tt
  | Some _ =>
      b <- isl_bool2cpp_m ;;
      osprintf ("  template <class T> inline " ++ b ++ " isa();" ++ nl) ;;
      osprintf ("  template <class T> inline T as();" ++ nl)
  end.

(** [cpp_generator::print_get_ctx_decl] *)
Definition print_get_ctx_decl : M unit :=
  osprintf ("  inline isl::ctx get_ctx() const;" ++ nl).

(** [cpp_generator::print_str_decl] *)
Definition print_str_decl (clazz : class_ref) : M unit :=
  match isl_class.fn_to_str clazz with
  | None => ret tt
  | Some _ => osprintf ("  inline std::string to_str() const;" ++ nl)
  end.

(** A [for] loop over a [std::set] or over the entries of a map that the
    loop body does not touch, with the loop-carried local [s]. *)
Fixpoint for_list {A S} (l : list A) (body : A -> S -> M S) (s : S) : M S :=
  match l with
  | [] => ret s
  | x :: l' => s' <- body x s ;; for_list l' body s'
  end.

Definition for_each {A} (l : list A) (body : A -> M unit) : M unit :=
  for_list l (fun x _ => body x) tt.

(** *** Classification of constructors *)

(** The [for] loop that pushes [&classes[*ci]] for every superclass name;
    [parents] is a vector used as a stack and is kept with its back
    first. *)
Fixpoint push_superclasses (superclasses : list string)
    (parents : list class_ref) : M (list class_ref) :=
  match superclasses with
  | [] => ret parents
  | ci :: rest =>
      c <- classes_index ci ;;
      push_superclasses rest (c :: parents)
  end.

(** The [while (!parents.empty())] loop of [is_subclass]. *)
Fixpoint is_subclass_loop (n : nat) (class_type : class_ref)
    (parents : list class_ref) : M bool :=
  match parents with
  | [] => ret false
  | candidate :: parents =>
      match n with
      | O => fail OutOfFuel
      | S n' =>
          if String.eqb (addr class_type) (addr candidate) then ret true
          else
            parents <- push_superclasses
                         (find_superclasses (isl_class.type candidate))
                         parents ;;
            is_subclass_loop n' class_type parents
      end
  end.

(** [cpp_generator::is_subclass] *)
Definition is_subclass (subclass_type : QualType.t) (class_type : class_ref)
  : M bool :=
  pointee <- lift (expect (QualType.getPointeeType subclass_type)
                     (Undefined "getPointeeType")) ;;
  let type_str := QualType.getAsString pointee in
  c <- classes_index type_str ;;
  parents <- push_superclasses (find_superclasses (isl_class.type c)) [] ;;
  is_subclass_loop fuel class_type parents.

(** [cpp_generator::is_implicit_conversion] *)
Definition is_implicit_conversion (clazz : class_ref) (cons : FunctionDecl.t)
  : M bool :=
  param <- lift (getParamDecl cons 0) ;;
  let type := ParmVarDecl.getOriginalType param in
  let num_params := FunctionDecl.getNumParams cons in
  if negb (num_params =? 1)%Z then ret false
  else if is_isl_type type && negb (is_isl_ctx type) then
    sub <- is_subclass type clazz ;;
    if sub then ret true else ret false
  else ret false.

(** [cpp_generator::get_method_kind] *)
Definition get_method_kind (clazz : class_ref) (method : FunctionDecl.t)
  : function_kind :=
  if is_static clazz method then function_kind_static_method
  else function_kind_member_method.

(** *** Method headers *)

(** [cpp_generator::super2sub]: the returned string is [type] after the
    call. *)
Definition super2sub (clazz : class_ref) (type : string)
  : result (bool * string) :=
  if negb (is_type_subclass clazz) then Ok (false, type)
  else
    (super <- type2cpp_str (isl_class.name clazz) ;;
     if negb (String.eqb type ("isl::" ++ super)) then Ok (false, type)
     else
       sub <- type2cpp_class clazz ;;
       Ok (true, "isl::" ++ sub))%result.

(** The parameter loop of [print_method_header], at index [i] with the
    parameters from [i] on still to visit; [num_params] shrinks when a
    callback is met. *)
Fixpoint header_params_loop (num_params i : Z) (rest : list ParmVarDecl.t)
  : M unit :=
  match rest with
  | [] => ret tt
  | param :: rest' =>
      if (i <? num_params)%Z then
        let type := ParmVarDecl.getOriginalType param in
        cpptype <- type2cpp_m type ;;
        let num_params :=
          if is_callback type then (num_params - 1)%Z else num_params in
        (if keeps param || is_string type || is_callback type then
           osprintf ("const " ++ cpptype ++ " &" ++ ParmVarDecl.getName param)
         else
           osprintf (cpptype ++ " " ++ ParmVarDecl.getName param)) ;;
        (if negb (i =? num_params - 1)%Z then osprintf ", " else ret tt) ;;
        header_params_loop num_params (i + 1)%Z rest'
      else ret tt
  end.

(** [cpp_generator::print_method_header] *)
Definition print_method_header (clazz : class_ref) (method : FunctionDecl.t)
    (fullname : string) (is_declaration : bool) (kind : function_kind)
  : M unit :=
  let cname := method_name clazz method in
  rettype_str <- type2cpp_m (FunctionDecl.getReturnType method) ;;
  classname <- lift (type2cpp_class clazz) ;;
  let num_params := FunctionDecl.getNumParams method in
  let cname := rename_method cname in
  let first_param :=
    if function_kind_eqb kind function_kind_member_method then 1%nat
    else 0%nat in
  (if is_declaration then
     osprintf "  " ;;
     (if function_kind_eqb kind function_kind_static_method then
        osprintf "static "
      else ret tt) ;;
     osprintf "inline " ;;
     (if function_kind_eqb kind function_kind_constructor then
        implicit <- is_implicit_conversion clazz method ;;
        if implicit then osprintf "/* implicit */ "
        else osprintf "explicit "
      else ret tt)
   else ret tt) ;;
  ' (_, rettype_str) <- lift (super2sub clazz rettype_str) ;;
  (if negb (function_kind_eqb kind function_kind_constructor) then
     osprintf (rettype_str ++ " ")
   else ret tt) ;;
  (if negb is_declaration then osprintf (classname ++ "::") else ret tt) ;;
  (if negb (function_kind_eqb kind function_kind_constructor) then
     osprintf cname
   else osprintf classname) ;;
  osprintf "(" ;;
  header_params_loop num_params (Z.of_nat first_param)
    (skipn first_param (FunctionDecl.params method)) ;;
  osprintf ")" ;;
  (if function_kind_eqb kind function_kind_member_method then
     osprintf " const"
   else ret tt) ;;
  (if is_declaration then osprintf ";" else ret tt) ;;
  osprintf nl.

(** [cpp_generator::print_method_decl] *)
Definition print_method_decl (clazz : class_ref) (fullname : string)
    (method : FunctionDecl.t) (kind : function_kind) : M unit :=
  print_method_header clazz method fullname true kind.

(** [cpp_generator::print_method_group_decl] *)
Definition print_method_group_decl (clazz : class_ref) (fullname : string)
    (methods : list FunctionDecl.t) : M unit :=
  for_each methods (fun method =>
    let kind := get_method_kind clazz method in
    print_method_decl clazz fullname method kind).

(** [cpp_generator::print_methods_decl] *)
Definition print_methods_decl (clazz : class_ref) : M unit :=
  for_each (isl_class.methods clazz) (fun it =>
    print_method_group_decl clazz (fst it) (snd it)).

(** [cpp_generator::print_constructors_decl] *)
Definition print_constructors_decl (clazz : class_ref) : M unit :=
  for_each (isl_class.constructors clazz) (fun cons =>
    let fullname := FunctionDecl.getName cons in
    let kind := function_kind_constructor in
    print_method_decl clazz fullname cons kind).

(** [cpp_generator::print_class] *)
Definition print_class (clazz : class_ref) : M unit :=
  let name := isl_class.name clazz in
  cppname <- lift (type2cpp_class clazz) ;;
  osprintf ("// declarations for isl::" ++ cppname ++ nl) ;;
  print_class_factory_decl clazz "" ;;
  osprintf nl ;;
  osprintf ("class " ++ cppname ++ " ") ;;
  (if is_type_subclass clazz then
     super <- lift (type2cpp_str (isl_class.name clazz)) ;;
     osprintf (": public " ++ super ++ " ")
   else ret tt) ;;
  osprintf ("{" ++ nl) ;;
  print_subclass_type clazz ;;
  print_class_factory_decl clazz "  friend " ;;
  osprintf nl ;;
  osprintf ("protected:" ++ nl) ;;
  (if negb (is_type_subclass clazz) then
     osprintf ("  " ++ name ++ " *ptr = nullptr;" ++ nl) ;;
     osprintf nl
   else ret tt) ;;
  print_protected_constructors_decl clazz ;;
  osprintf nl ;;
  osprintf ("public:" ++ nl) ;;
  print_public_constructors_decl clazz ;;
  print_constructors_decl clazz ;;
  print_copy_assignment_decl clazz ;;
  print_destructor_decl clazz ;;
  print_ptr_decl clazz ;;
  print_downcast_decl clazz ;;
  print_get_ctx_decl ;;
  print_str_decl clazz ;;
  osprintf nl ;;
  print_methods_decl clazz ;;
  osprintf ("  typedef " ++ name ++ "* isl_ptr_t;" ++ nl) ;;
  osprintf ("};" ++ nl).

(** [cpp_generator::print_declarations] *)
Definition print_declarations : M unit :=
  for_classes (fun clazz (first : bool) =>
    (if first then ret tt else osprintf nl) ;;
    print_class clazz ;;
    ret false) true ;;
  ret tt.

(** *** Implementations *)

(** [print_throw_NULL_input] *)
Definition print_throw_NULL_input : M unit :=
  osprintf ("    throw isl::exception::create(isl_error_invalid," ++ nl
            ++ "        " ++ dq ++ "NULL input" ++ dq
            ++ ", __FILE__, __LINE__);" ++ nl).

(** [cpp_generator::print_class_factory_impl] *)
Definition print_class_factory_impl (clazz : class_ref) : M unit :=
  let name := isl_class.name clazz in
  cppname <- lift (type2cpp_class clazz) ;;
  if is_type_subclass clazz then ret tt
  else
    noexc <- read noexceptions ;;
    osprintf ("isl::" ++ cppname ++ " manage(__isl_take " ++ name
              ++ " *ptr) {" ++ nl) ;;
    (if negb noexc then
       osprintf ("  if (!ptr)" ++ nl) ;;
       print_throw_NULL_input
     else ret tt) ;;
    osprintf ("  return " ++ cppname ++ "(ptr);" ++ nl) ;;
    osprintf ("}" ++ nl) ;;
    osprintf ("isl::" ++ cppname ++ " manage_copy(__isl_keep " ++ name
              ++ " *ptr) {" ++ nl) ;;
    (if negb noexc then
       osprintf ("  if (!ptr)" ++ nl) ;;
       print_throw_NULL_input ;;
       osprintf ("  auto ctx = " ++ name ++ "_get_ctx(ptr);" ++ nl)
     else ret tt) ;;
    osprintf ("  ptr = " ++ name ++ "_copy(ptr);" ++ nl) ;;
    (if negb noexc then
       osprintf ("  if (!ptr)" ++ nl) ;;
       osprintf ("    throw exception::create_from_last_error(ctx);" ++ nl)
     else ret tt) ;;
    osprintf ("  return " ++ cppname ++ "(ptr);" ++ nl) ;;
    osprintf ("}" ++ nl).

(** [cpp_generator::print_protected_constructors_impl] *)
Definition print_protected_constructors_impl (clazz : class_ref) : M unit :=
  let name := isl_class.name clazz in
  cppname <- lift (type2cpp_class clazz) ;;
  super <- lift (type2cpp_str (isl_class.name clazz)) ;;
  let subclass := is_type_subclass clazz in
  osprintf (cppname ++ "::" ++ cppname ++ "(__isl_take " ++ name ++ " *ptr)"
            ++ nl) ;;
  if subclass then osprintf ("    : " ++ super ++ "(ptr) {}" ++ nl)
  else osprintf ("    : ptr(ptr) {}" ++ nl).

(** [cpp_generator::print_public_constructors_impl] *)
Definition print_public_constructors_impl (clazz : class_ref) : M unit :=
  let name := isl_class.name clazz in
  cppname <- lift (type2cpp_class clazz) ;;
  super <- lift (type2cpp_str (isl_class.name clazz)) ;;
  let subclass := is_type_subclass clazz in
  osprintf (cppname ++ "::" ++ cppname ++ "()" ++ nl) ;;
  (if subclass then osprintf ("    : " ++ super ++ "() {}" ++ nl ++ nl)
   else osprintf ("    : ptr(nullptr) {}" ++ nl ++ nl)) ;;
  osprintf (cppname ++ "::" ++ cppname ++ "(const isl::" ++ cppname ++ " &obj)"
            ++ nl) ;;
  (if subclass then osprintf ("    : " ++ super ++ "(obj)" ++ nl)
   else osprintf ("    : ptr(obj.copy())" ++ nl)) ;;
  osprintf ("{" ++ nl) ;;
  noexc <- read noexceptions ;;
  (if negb noexc && negb subclass then
     osprintf ("  if (obj.ptr && !ptr)" ++ nl) ;;
     osprintf ("    throw exception::create_from_last_error(" ++ name
               ++ "_get_ctx(obj.ptr));" ++ nl)
   else ret tt) ;;
  osprintf ("}" ++ nl).

(** [cpp_generator::print_copy_assignment_impl] *)
Definition print_copy_assignment_impl (clazz : class_ref) : M unit :=
  cppname <- lift (type2cpp_class clazz) ;;
  osprintf (cppname ++ " &" ++ cppname ++ "::operator=(isl::" ++ cppname
            ++ " obj) {" ++ nl) ;;
  osprintf ("  std::swap(this->ptr, obj.ptr);" ++ nl) ;;
  osprintf ("  return *this;" ++ nl) ;;
  osprintf ("}" ++ nl).

(** [cpp_generator::print_destructor_impl] *)
Definition print_destructor_impl (clazz : class_ref) : M unit :=
  let name := isl_class.name clazz in
  cppname <- lift (type2cpp_class clazz) ;;
  if is_type_subclass clazz then ret tt
  else
    osprintf (cppname ++ "::~" ++ cppname ++ "() {" ++ nl) ;;
    osprintf ("  if (ptr)" ++ nl) ;;
    osprintf ("    " ++ name ++ "_free(ptr);" ++ nl) ;;
    osprintf ("}" ++ nl).

(** [cpp_generator::print_ptr_impl] *)
Definition print_ptr_impl (clazz : class_ref) : M unit :=
  let name := isl_class.name clazz in
  cppname <- lift (type2cpp_class clazz) ;;
  if is_type_subclass clazz then ret tt
  else
    osprintf ("__isl_give " ++ name ++ " *" ++ cppname ++ "::copy() const & {"
              ++ nl) ;;
    osprintf ("  return " ++ name ++ "_copy(ptr);" ++ nl) ;;
    osprintf ("}" ++ nl ++ nl) ;;
    osprintf ("__isl_keep " ++ name ++ " *" ++ cppname ++ "::get() const {"
              ++ nl) ;;
    osprintf ("  return ptr;" ++ nl) ;;
    osprintf ("}" ++ nl ++ nl) ;;
    osprintf ("__isl_give " ++ name ++ " *" ++ cppname ++ "::release() {"
              ++ nl) ;;
    osprintf ("  " ++ name ++ " *tmp = ptr;" ++ nl) ;;
    osprintf ("  ptr = nullptr;" ++ nl) ;;
    osprintf ("  return tmp;" ++ nl) ;;
    osprintf ("}" ++ nl ++ nl) ;;
    osprintf ("bool " ++ cppname ++ "::is_null() const {" ++ nl) ;;
    osprintf ("  return ptr == nullptr;" ++ nl) ;;
    osprintf ("}" ++ nl) ;;
    osprintf (cppname ++ "::operator bool() const" ++ nl) ;;
    osprintf ("{" ++ nl) ;;
    osprintf ("  return !is_null();" ++ nl) ;;
    osprintf ("}" ++ nl).

(** [cpp_generator::print_downcast_impl] *)
Definition print_downcast_impl (clazz : class_ref) : M bool :=
  cppname <- lift (type2cpp_class clazz) ;;
  match isl_class.fn_type clazz with
  | None => ret false
  | Some fn_type =>
      noexc <- read noexceptions ;;
      b <- isl_bool2cpp_m ;;
      osprintf ("template <class T>" ++ nl) ;;
      osprintf (b ++ " " ++ cppname ++ "::isa()" ++ nl) ;;
      osprintf ("{" ++ nl) ;;
      osprintf ("  if (is_null())" ++ nl) ;;
      (if noexc then osprintf ("    return isl::boolean();" ++ nl)
       else print_throw_NULL_input) ;;
      osprintf ("  return " ++ FunctionDecl.getName fn_type
                ++ "(get()) == T::type;" ++ nl) ;;
      osprintf ("}" ++ nl) ;;
      osprintf ("template <class T>" ++ nl) ;;
      osprintf ("T " ++ cppname ++ "::as()" ++ nl) ;;
      osprintf ("{" ++ nl) ;;
      (if noexc then
         osprintf ("  if (is_null())" ++ nl) ;;
         osprintf ("    T();" ++ nl)
       else ret tt) ;;
      osprintf ("  return isa<T>() ? T(copy()) : T();" ++ nl) ;;
      osprintf ("}" ++ nl) ;;
      ret true
  end.

(** [cpp_generator::print_get_ctx_impl] *)
Definition print_get_ctx_impl (clazz : class_ref) : M unit :=
  let name := isl_class.name clazz in
  cppname <- lift (type2cpp_class clazz) ;;
  osprintf ("isl::ctx " ++ cppname ++ "::get_ctx() const {" ++ nl) ;;
  osprintf ("  return isl::ctx(" ++ name ++ "_get_ctx(ptr));" ++ nl) ;;
  osprintf ("}" ++ nl).

(** [cpp_generator::print_str_impl] *)
Definition print_str_impl (clazz : class_ref) : M unit :=
  match isl_class.fn_to_str clazz with
  | None => ret tt
  | Some _ =>
      let name := isl_class.name clazz in
      cppname <- lift (type2cpp_class clazz) ;;
      osprintf ("std::string " ++ cppname ++ "::to_str() const {" ++ nl) ;;
      osprintf ("  char *Tmp = " ++ name ++ "_to_str(get());" ++ nl) ;;
      osprintf ("  if (!Tmp)" ++ nl) ;;
      osprintf ("    return " ++ dq ++ dq ++ ";" ++ nl) ;;
      osprintf ("  std::string S(Tmp);" ++ nl) ;;
      osprintf ("  free(Tmp);" ++ nl) ;;
      osprintf ("  return S;" ++ nl) ;;
      osprintf ("}" ++ nl) ;;
      osprintf nl
  end.

(** [cpp_generator::print_operators_impl] *)
Definition print_operators_impl (clazz : class_ref) : M unit :=
  cppname <- lift (type2cpp_class clazz) ;;
  (match isl_class.fn_to_str clazz with
   | Some _ =>
       osprintf ("inline std::ostream& operator<<(std::ostream& os, const "
                 ++ cppname ++ "& C) {" ++ nl) ;;
       osprintf ("  os << C.to_str();" ++ nl) ;;
       osprintf ("  return os;" ++ nl) ;;
       osprintf ("}" ++ nl) ;;
       osprintf nl
   | None => ret tt
   end) ;;
  match isl_class.fn_is_equal clazz with
  | Some fn_is_equal =>
      let return_type := FunctionDecl.getReturnType fn_is_equal in
      rettype <- type2cpp_m return_type ;;
      osprintf ("inline " ++ rettype ++ " operator==(const " ++ cppname
                ++ "& C1, const " ++ cppname ++ "& C2) {" ++ nl) ;;
      osprintf ("  return C1.is_equal(C2);" ++ nl) ;;
      osprintf ("}" ++ nl) ;;
      osprintf nl
  | None => ret tt
  end.

(** *** Method bodies *)

(** [cpp_generator::print_method_param_use] *)
Definition print_method_param_use (param : ParmVarDecl.t)
    (load_from_this_ptr : bool) : M unit :=
  let name := ParmVarDecl.getName param in
  let type := ParmVarDecl.getOriginalType param in
  if extensions && QualType.isEnumeralType type then
    let typestr := QualType.getAsString type in
    osprintf ("static_cast<" ++ typestr ++ ">(" ++ name ++ ")")
  else if QualType.isIntegerType type then osprintf name
  else if is_string type then osprintf (name ++ ".c_str()")
  else if is_callback type then
    osprintf (name ++ "_lambda, ") ;;
    osprintf ("&" ++ name ++ "_data")
  else
    (if negb load_from_this_ptr && negb (is_callback type) then
       osprintf (name ++ ".")
     else ret tt) ;;
    if keeps param then osprintf "get()"
    else if load_from_this_ptr then osprintf "copy()"
    else osprintf "release()".

(** The loop of [print_argument_validity_check] at index [i]; the value
    is the local [first] after the loop. *)
Fixpoint validity_loop (kind : function_kind) (i : Z) (first : bool)
    (rest : list ParmVarDecl.t) : M bool :=
  match rest with
  | [] => ret first
  | param :: rest' =>
      let name := ParmVarDecl.getName param in
      let type := ParmVarDecl.getOriginalType param in
      let is_this :=
        (i =? 0)%Z && function_kind_eqb kind function_kind_member_method in
      if negb is_this && (is_isl_ctx type || negb (is_isl_type type)) then
        validity_loop kind (i + 1)%Z first rest'
      else
        (if first then osprintf "  if (" else osprintf " || ") ;;
        (if is_this then osprintf "!ptr"
         else osprintf (name ++ ".is_null()")) ;;
        validity_loop kind (i + 1)%Z false rest'
  end.

(** [cpp_generator::print_argument_validity_check] *)
Definition print_argument_validity_check (method : FunctionDecl.t)
    (kind : function_kind) : M unit :=
  noexc <- read noexceptions ;;
  if noexc then ret tt
  else
    first <- validity_loop kind 0 true (FunctionDecl.params method) ;;
    if first then ret tt
    else
      osprintf (")" ++ nl) ;;
      print_throw_NULL_input.

(** The loop of [print_save_ctx]. *)
Fixpoint save_ctx_loop (rest : list ParmVarDecl.t) : M unit :=
  match rest with
  | [] => ret tt
  | param :: rest' =>
      let type := ParmVarDecl.getOriginalType param in
      if negb (is_isl_type type) then save_ctx_loop rest'
      else
        osprintf ("  auto ctx = " ++ ParmVarDecl.getName param
                  ++ ".get_ctx();" ++ nl)
  end.

(** [cpp_generator::print_save_ctx] *)
Definition print_save_ctx (method : FunctionDecl.t) (kind : function_kind)
  : M unit :=
  param <- lift (getParamDecl method 0) ;;
  let type := ParmVarDecl.getOriginalType param in
  noexc <- read noexceptions ;;
  if noexc then ret tt
  else if function_kind_eqb kind function_kind_member_method then ret tt
  else if is_isl_ctx type then ret tt
  else save_ctx_loop (FunctionDecl.params method).

(** [cpp_generator::print_method_ctx] *)
Definition print_method_ctx (method : FunctionDecl.t) (kind : function_kind)
  : M unit :=
  param <- lift (getParamDecl method 0) ;;
  let type := ParmVarDecl.getOriginalType param in
  if function_kind_eqb kind function_kind_member_method then
    osprintf "get_ctx()"
  else if is_isl_ctx type then osprintf (ParmVarDecl.getName param)
  else osprintf "ctx".

(** [cpp_generator::print_on_error_continue] *)
Definition print_on_error_continue (method : FunctionDecl.t)
    (kind : function_kind) : M unit :=
  noexc <- read noexceptions ;;
  if noexc then ret tt
  else
    osprintf "  options_scoped_set_on_error saved_on_error(" ;;
    print_method_ctx method kind ;;
    osprintf (", ISL_ON_ERROR_CONTINUE);" ++ nl).

(** [name = param->getName().str().c_str()]: the [std::string] that
    [str()] returns is a temporary, destroyed at the end of the
    assignment, and [name] points into it.  Reading [name] afterwards is
    a read through a dangling pointer. *)
Definition c_str_of_temporary (s : string) : result string :=
  Fail (Undefined "c_str() of a destroyed std::string").

(** The body of the loop of [print_exceptional_execution_check] for one
    parameter; both calls of [osprintf] read [name]. *)
Definition print_rethrow (param : ParmVarDecl.t) : M unit :=
  if negb (is_callback (ParmVarDecl.getOriginalType param)) then ret tt
  else
    name <- lift (c_str_of_temporary (ParmVarDecl.getName param)) ;;
    osprintf ("  if (" ++ name ++ "_data.eptr)" ++ nl) ;;
    osprintf ("    std::rethrow_exception(" ++ name ++ "_data.eptr);" ++ nl).

(** [cpp_generator::print_exceptional_execution_check] *)
Definition print_exceptional_execution_check (method : FunctionDecl.t)
    (kind : function_kind) : M unit :=
  let return_type := FunctionDecl.getReturnType method in
  noexc <- read noexceptions ;;
  if noexc then ret tt
  else
    for_each (FunctionDecl.params method) print_rethrow ;;
    let check_neg := is_isl_stat return_type || is_isl_bool return_type in
    let check_null := is_isl_type return_type in
    if negb check_null && negb check_neg then ret tt
    else
      (if check_neg then osprintf ("  if (res < 0)" ++ nl)
       else osprintf ("  if (!res)" ++ nl)) ;;
      osprintf "    throw exception::create_from_last_error(" ;;
      print_method_ctx method kind ;;
      osprintf (");" ++ nl).

(** [cpp_generator::print_wrapped_call_noexceptions] *)
Definition print_wrapped_call_noexceptions (call : string)
    (rtype : QualType.t) : M unit :=
  osprintf ("    auto ret = " ++ call ++ ";" ++ nl) ;;
  if is_isl_stat rtype then osprintf ("    return isl_stat(ret);" ++ nl)
  else osprintf ("    return ret.release();" ++ nl).

(** [cpp_generator::print_wrapped_call] *)
Definition print_wrapped_call (call : string) (rtype : QualType.t) : M unit :=
  noexc <- read noexceptions ;;
  if noexc then print_wrapped_call_noexceptions call rtype
  else
    osprintf ("    try {" ++ nl) ;;
    (if is_isl_stat rtype then osprintf ("      " ++ call ++ ";" ++ nl)
     else osprintf ("      auto ret = " ++ call ++ ";" ++ nl)) ;;
    (if is_isl_stat rtype then osprintf ("      return isl_stat_ok;" ++ nl)
     else if is_isl_bool rtype then
       osprintf ("      return ret ? isl_bool_true : isl_bool_false;" ++ nl)
     else osprintf ("      return ret.release();" ++ nl)) ;;
    osprintf ("    } catch (...) {" ++ nl
              ++ "      data->eptr = std::current_exception();" ++ nl) ;;
    (if is_isl_stat rtype then osprintf ("      return isl_stat_error;" ++ nl)
     else if is_isl_bool rtype then
       osprintf ("      return isl_bool_error;" ++ nl)
     else osprintf ("      return NULL;" ++ nl)) ;;
    osprintf ("    }" ++ nl).

(** The loop of [print_callback_local] that builds the arguments of the
    call, at index [i]. *)
Fixpoint call_args_loop (callback : QualType.t) (num_params i : Z)
    (rest : list QualType.t) : string :=
  match rest with
  | [] => ""
  | _ :: rest' =>
      if (i <? num_params - 1)%Z then
        (if negb (callback_takes_arguments callback) then "isl::manage_copy"
         else "isl::manage")
        ++ "(arg_" ++ to_string i ++ ")"
        ++ (if negb (i =? num_params - 2)%Z then ", " else "")
        ++ call_args_loop callback num_params (i + 1)%Z rest'
      else ""
  end.

(** [cpp_generator::print_callback_local] *)
Definition print_callback_local (param : ParmVarDecl.t) : M unit :=
  let pname := ParmVarDecl.getName param in
  let ptype := ParmVarDecl.getType param in
  noexc <- read noexceptions ;;
  c_args <- lift (generate_callback_args noexc ptype false) ;;
  cpp_args <- lift (generate_callback_type noexc ptype) ;;
  ' (callback, rtype, args) <-
    lift (expect (getAs_FunctionProtoType ptype)
            (Undefined "getAs<FunctionProtoType>")) ;;
  let rettype := QualType.getAsString rtype in
  let num_params := Z.of_nat (List.length args) in
  let last_idx := to_string (num_params - 1) in
  let call := "(" ++ "*data->func)("
              ++ call_args_loop callback num_params 0 args ++ ")" in
  osprintf ("  struct " ++ pname ++ "_data {" ++ nl) ;;
  osprintf ("    const " ++ cpp_args ++ " *func;" ++ nl) ;;
  (if negb noexc then osprintf ("    std::exception_ptr eptr;" ++ nl)
   else ret tt) ;;
  osprintf ("  } " ++ pname ++ "_data = { &" ++ pname ++ " };" ++ nl) ;;
  osprintf ("  auto " ++ pname ++ "_lambda = [](" ++ c_args ++ ") -> "
            ++ rettype ++ " {" ++ nl) ;;
  osprintf ("    auto *data = static_cast<struct " ++ pname ++ "_data *>(arg_"
            ++ last_idx ++ ");" ++ nl) ;;
  print_wrapped_call call rtype ;;
  osprintf ("  };" ++ nl).

(** The first loop of [print_method_impl]: the locals of every callback
    parameter below the shrinking [num_params]; the value is
    [num_params] and [has_callback] after the loop. *)
Fixpoint callback_locals_loop (num_params i : Z) (has_callback : bool)
    (rest : list ParmVarDecl.t) : M (Z * bool) :=
  match rest with
  | [] => ret (num_params, has_callback)
  | param :: rest' =>
      if (i <? num_params)%Z then
        if is_callback (ParmVarDecl.getType param) then
          print_callback_local param ;;
          callback_locals_loop (num_params - 1)%Z (i + 1)%Z true rest'
        else callback_locals_loop num_params (i + 1)%Z has_callback rest'
      else ret (num_params, has_callback)
  end.

(** The second loop of [print_method_impl]: the arguments of the call. *)
Fixpoint param_use_loop (kind : function_kind) (num_params i : Z)
    (rest : list ParmVarDecl.t) : M unit :=
  match rest with
  | [] => ret tt
  | param :: rest' =>
      if (i <? num_params)%Z then
        let load_from_this_ptr :=
          (i =? 0)%Z && function_kind_eqb kind function_kind_member_method in
        print_method_param_use param load_from_this_ptr ;;
        (if negb (i =? num_params - 1)%Z then osprintf ", " else ret tt) ;;
        param_use_loop kind num_params (i + 1)%Z rest'
      else ret tt
  end.

(** The statement of [print_method_impl] that hands the result back. *)
Definition print_method_return (method : FunctionDecl.t)
    (kind : function_kind) (rettype_str : string)
    (returns_super has_callback : bool) : M unit :=
  let return_type := FunctionDecl.getReturnType method in
  noexc <- read noexceptions ;;
  if function_kind_eqb kind function_kind_constructor then
    osprintf ("  ptr = res;" ++ nl)
  else if is_isl_type return_type || (noexc && is_isl_bool return_type) then
    if returns_super then
      osprintf ("  return manage(res).as<" ++ rettype_str ++ ">();" ++ nl)
    else osprintf ("  return manage(res);" ++ nl)
  else if has_callback then
    osprintf ("  return " ++ rettype_str ++ "(res);" ++ nl)
  else if is_string return_type then
    osprintf ("  std::string tmp(res);" ++ nl) ;;
    (if gives method then osprintf ("  free(res);" ++ nl) else ret tt) ;;
    osprintf ("  return tmp;" ++ nl)
  else if is_isl_enum return_type then
    typestr <- lift (replace_isl_prefix (QualType.getAsString return_type)) ;;
    osprintf ("  return static_cast<" ++ typestr ++ ">(res);" ++ nl)
  else osprintf ("  return res;" ++ nl).

(** [cpp_generator::print_method_impl] *)
Definition print_method_impl (clazz : class_ref) (fullname : string)
    (method : FunctionDecl.t) (kind : function_kind) : M unit :=
  let methodname := FunctionDecl.getName method in
  let num_params := FunctionDecl.getNumParams method in
  let return_type := FunctionDecl.getReturnType method in
  rettype_str <- type2cpp_m return_type ;;
  ' (returns_super, rettype_str) <- lift (super2sub clazz rettype_str) ;;
  print_method_header clazz method fullname false kind ;;
  osprintf ("{" ++ nl) ;;
  print_argument_validity_check method kind ;;
  print_save_ctx method kind ;;
  print_on_error_continue method kind ;;
  ' (num_params, has_callback) <-
    callback_locals_loop num_params 0 false (FunctionDecl.params method) ;;
  osprintf ("  auto res = " ++ methodname ++ "(") ;;
  param_use_loop kind num_params 0 (FunctionDecl.params method) ;;
  osprintf (");" ++ nl) ;;
  print_exceptional_execution_check method kind ;;
  print_method_return method kind rettype_str returns_super has_callback ;;
  osprintf ("}" ++ nl).

(** [cpp_generator::print_method_group_impl] *)
Definition print_method_group_impl (clazz : class_ref) (fullname : string)
    (methods : list FunctionDecl.t) : M unit :=
  for_list methods (fun method (first : bool) =>
    (if first then ret tt else osprintf nl) ;;
    let kind := get_method_kind clazz method in
    print_method_impl clazz fullname method kind ;;
    ret false) true ;;
  ret tt.

(** [cpp_generator::print_methods_impl] *)
Definition print_methods_impl (clazz : class_ref) : M unit :=
  for_list (isl_class.methods clazz) (fun it (first : bool) =>
    (if first then ret tt else osprintf nl) ;;
    print_method_group_impl clazz (fst it) (snd it) ;;
    ret false) true ;;
  ret tt.

(** [cpp_generator::print_constructors_impl] *)
Definition print_constructors_impl (clazz : class_ref) : M unit :=
  for_each (isl_class.constructors clazz) (fun cons =>
    let fullname := FunctionDecl.getName cons in
    let kind := function_kind_constructor in
    print_method_impl clazz fullname cons kind).

(** [cpp_generator::print_class_impl] *)
Definition print_class_impl (clazz : class_ref) : M unit :=
  cppname <- lift (type2cpp_class clazz) ;;
  osprintf ("// implementations for isl::" ++ cppname ++ nl) ;;
  print_class_factory_impl clazz ;;
  osprintf nl ;;
  print_public_constructors_impl clazz ;;
  osprintf nl ;;
  print_protected_constructors_impl clazz ;;
  osprintf nl ;;
  print_constructors_impl clazz ;;
  osprintf nl ;;
  print_copy_assignment_impl clazz ;;
  osprintf nl ;;
  print_destructor_impl clazz ;;
  osprintf nl ;;
  print_ptr_impl clazz ;;
  (if extensions then
     osprintf nl ;;
     print_operators_impl clazz ;;
     osprintf nl ;;
     print_str_impl clazz
   else ret tt) ;;
  osprintf nl ;;
  printed <- print_downcast_impl clazz ;;
  (if printed then osprintf nl else ret tt) ;;
  print_get_ctx_impl clazz ;;
  osprintf nl ;;
  print_methods_impl clazz.

(** [cpp_generator::print_implementations] *)
Definition print_implementations : M unit :=
  for_classes (fun clazz (first : bool) =>
    (if first then ret tt else osprintf nl) ;;
    print_class_impl clazz ;;
    ret false) true ;;
  ret tt.

(** [cpp_generator::generate] *)
Definition generate : M unit :=
  osprintf nl ;;
  osprintf ("namespace isl {" ++ nl ++ nl) ;;
  noexc <- read noexceptions ;;
  (if noexc then osprintf ("inline namespace noexceptions {" ++ nl ++ nl)
   else ret tt) ;;
  print_forward_declarations ;;
  osprintf nl ;;
  print_declarations ;;
  osprintf nl ;;
  print_implementations ;;
  noexc <- read noexceptions ;;
  (if noexc then osprintf ("} // namespace noexceptions" ++ nl) else ret tt) ;;
  osprintf ("} // namespace isl" ++ nl).

End Printers.

(** ** An instance of the base class

    The conventions of isl's headers, as far as the interface above needs
    them: an isl object type is a pointer to a type whose name starts
    with [isl_]; ownership and subclassing are annotations. *)

Definition has_attr (a : string) (attrs : list string) : bool :=
  existsb (String.eqb a) attrs.

Definition pointee_name (type : QualType.t) : string :=
  match QualType.getPointeeType type with
  | Some p => QualType.getAsString p
  | None => ""
  end.

Definition is_function_type (type : QualType.t) : bool :=
  match type with QualType.FunctionProto _ _ _ => true | _ => false end.

Definition is_pointer_type (type : QualType.t) : bool :=
  match type with QualType.PointerTo _ _ => true | _ => false end.

(** The superclasses named by the [isl_subclass(...)] annotations. *)
Fixpoint superclass_annotations (attrs : list string) : list string :=
  match attrs with
  | [] => []
  | a :: attrs' =>
      if prefix "isl_subclass(" a then
        substring 13 (String.length a - 14) a :: superclass_annotations attrs'
      else superclass_annotations attrs'
  end.

#[export] Instance isl_generator : generator := {
  is_isl_type type :=
    match QualType.getPointeeType type with
    | Some p => negb (is_function_type p)
                && prefix "isl_" (QualType.getAsString p)
    | None => false
    end;
  is_isl_ctx type :=
    is_pointer_type type && String.eqb (pointee_name type) "isl_ctx";
  is_isl_bool type :=
    negb (is_pointer_type type)
    && String.eqb (QualType.getAsString type) "isl_bool";
  is_isl_stat type :=
    negb (is_pointer_type type)
    && String.eqb (QualType.getAsString type) "isl_stat";
  is_isl_enum type :=
    QualType.isEnumeralType type
    && match find (QualType.getAsString type) "isl_" with
       | Some _ => true
       | None => false
       end;
  is_string type :=
    is_pointer_type type
    && (String.eqb (pointee_name type) "const char"
        || String.eqb (pointee_name type) "char");
  is_callback type :=
    match QualType.getPointeeType type with
    | Some p => is_function_type p
    | None => false
    end;
  keeps param := has_attr "isl_keep" (ParmVarDecl.attrs param);
  gives method := has_attr "isl_give" (FunctionDecl.attrs method);
  callback_takes_arguments callback :=
    match callback with
    | QualType.FunctionProto s _ _ =>
        match index 0 "__isl_keep" s with
        | Some _ => false
        | None => true
        end
    | _ => true
    end;
  is_static clazz method :=
    match FunctionDecl.params method with
    | [] => true
    | param :: _ =>
        negb (String.eqb (pointee_name (ParmVarDecl.getOriginalType param))
                (isl_class.name clazz))
    end;
  find_superclasses decl :=
    match decl with
    | Some d => superclass_annotations (RecordDecl.attrs d)
    | None => []
    end;
  is_type_subclass clazz :=
    negb (String.eqb (isl_class.name clazz) (isl_class.subclass_name clazz));
  method_name clazz method :=
    let n := FunctionDecl.getName method in
    let skip := (String.length (isl_class.name clazz) + 1)%nat in
    substring skip (String.length n - skip) n
}.


(** ** A small description of an API, for the worked examples *)

Definition ty_object (n : string) : QualType.t :=
  QualType.PointerTo (n ++ " *") (QualType.Plain n false false).

Definition ty_set : QualType.t := ty_object "isl_set".
Definition ty_basic_set : QualType.t := ty_object "isl_basic_set".
Definition ty_ctx : QualType.t := ty_object "isl_ctx".
Definition ty_bool : QualType.t := QualType.Plain "isl_bool" true true.
Definition ty_stat : QualType.t := QualType.Plain "isl_stat" true true.
Definition ty_double : QualType.t := QualType.Plain "double" false false.
Definition ty_user : QualType.t :=
  QualType.PointerTo "void *" (QualType.Plain "void" false false).

(** The type of a callback [fn] that takes a basic set and the user
    pointer and returns [isl_stat]. *)
Definition ty_callback : QualType.t :=
  QualType.PointerTo ("isl_stat (" ++ "*" ++ ")(isl_basic_set *, void *)")
    (QualType.FunctionProto "isl_stat (isl_basic_set *, void *)" ty_stat
       [ty_basic_set; ty_user]).

Definition parm (n : string) (type : QualType.t) (attrs : list string)
  : ParmVarDecl.t :=
  ParmVarDecl.mk n type type attrs.

(** The message of the fatal error of [type2cpp]. *)
Definition cannot_convert : failure := Die "Cannot convert type to C++ type".

(** A type that belongs to none of the categories [type2cpp] knows. *)
Definition unrecognized {G : generator} (type : QualType.t) : Prop :=
  is_isl_type type = false /\ is_isl_bool type = false
  /\ is_isl_stat type = false /\ QualType.isEnumeralType type = false
  /\ is_isl_ctx type = false /\ QualType.isIntegerType type = false
  /\ is_string type = false /\ is_callback type = false.

(** ** Vocabulary of the statements *)

(** A computation that leaves the generator object as it found it. *)
Definition read_only {A} (m : M A) : Prop :=
  forall g, state_of (m g) = g.

(** The class map after some evaluations of [classes[k]]. *)
Inductive map_grows : class_map -> class_map -> Prop :=
| map_grows_refl m : map_grows m m
| map_grows_step m m' k : map_grows m m' -> map_grows m (map_index m' k).

Definition grows (g g' : cpp_generator) : Prop :=
  noexceptions g' = noexceptions g /\ map_grows (classes g) (classes g').

(** A computation that at most evaluates [classes[k]] for some keys. *)
Definition monotone {A} (m : M A) : Prop :=
  forall g, grows g (state_of (m g)).

(** *** The validity check of the arguments *)

(** An argument whose validity is tested: an isl object other than the
    context. *)
Definition checked_argument {G : generator} (param : ParmVarDecl.t) : bool :=
  let type := ParmVarDecl.getOriginalType param in
  is_isl_type type && negb (is_isl_ctx type).

(** The tests of the arguments after the first one of the check. *)
Fixpoint null_tests {G : generator} (rest : list ParmVarDecl.t) : string :=
  match rest with
  | [] => ""
  | param :: rest' =>
      (if checked_argument param then
         " || " ++ ParmVarDecl.getName param ++ ".is_null()"
       else "")
      ++ null_tests rest'
  end.

(** The statement that raises the failure for invalid input. *)
Definition throw_NULL_input : string :=
  "    throw isl::exception::create(isl_error_invalid," ++ nl
  ++ "        " ++ dq ++ "NULL input" ++ dq ++ ", __FILE__, __LINE__);" ++ nl.

(** The validity check of a member method: the receiver first. *)
Definition member_validity_check {G : generator}
    (rest : list ParmVarDecl.t) : string :=
  "  if (!ptr" ++ null_tests rest ++ ")" ++ nl ++ throw_NULL_input.

(** The line that silences isl's own error reports in a member method. *)
Definition member_on_error_continue : string :=
  "  options_scoped_set_on_error saved_on_error(get_ctx(), "
  ++ "ISL_ON_ERROR_CONTINUE);" ++ nl.

(** *** The example classes *)

Definition ex_intersect : FunctionDecl.t :=
  FunctionDecl.mk "isl_set_intersect" ty_set
    [parm "set1" ty_set ["isl_take"]; parm "set2" ty_set ["isl_take"]]
    ["isl_give"].

Definition ex_is_empty : FunctionDecl.t :=
  FunctionDecl.mk "isl_set_is_empty" ty_bool
    [parm "set" ty_set ["isl_keep"]] [].

Definition ex_foreach_basic_set : FunctionDecl.t :=
  FunctionDecl.mk "isl_set_foreach_basic_set" ty_stat
    [parm "set" ty_set ["isl_keep"]; parm "fn" ty_callback [];
     parm "user" ty_user []] [].

Definition ex_from_basic_set : FunctionDecl.t :=
  FunctionDecl.mk "isl_set_from_basic_set" ty_set
    [parm "bset" ty_basic_set ["isl_take"]] ["isl_give"].

Definition ex_set : isl_class.t :=
  isl_class.mk "isl_set" "isl_set" (Some (RecordDecl.mk "isl_set" []))
    [ex_from_basic_set]
    [("foreach_basic_set", [ex_foreach_basic_set]);
     ("intersect", [ex_intersect]);
     ("is_empty", [ex_is_empty])]
    None None None.

Definition ex_basic_set : isl_class.t :=
  isl_class.mk "isl_basic_set" "isl_basic_set"
    (Some (RecordDecl.mk "isl_basic_set" ["isl_subclass(isl_set)"]))
    [] [] None None None.

Definition ex_classes : class_map :=
  [("isl_basic_set", ex_basic_set); ("isl_set", ex_set)].

Definition ex_set_ref : class_ref := mk_ref "isl_set" ex_set.

Definition ex_gen : cpp_generator := mk_gen false ex_classes.
Definition ex_gen_noexceptions : cpp_generator := mk_gen true ex_classes.

(** The definition of [set::intersect] in the two modes. *)
Definition ex_intersect_impl (g : cpp_generator)
  : cpp_generator * string * result unit :=
  print_method_impl 0 ex_set_ref "intersect" ex_intersect
    function_kind_member_method g.

(** *** The callback protocol *)

(** The value a trampoline returns after it caught an exception. *)
Definition failure_sentinel {G : generator} (rtype : QualType.t) : string :=
  if is_isl_stat rtype then "isl_stat_error"
  else if is_isl_bool rtype then "isl_bool_error"
  else "NULL".

(** The invocation of the closure and its regular return. *)
Definition closure_invocation {G : generator} (call : string)
    (rtype : QualType.t) : string :=
  if is_isl_stat rtype then
    "      " ++ call ++ ";" ++ nl ++ "      return isl_stat_ok;" ++ nl
  else if is_isl_bool rtype then
    "      auto ret = " ++ call ++ ";" ++ nl
    ++ "      return ret ? isl_bool_true : isl_bool_false;" ++ nl
  else
    "      auto ret = " ++ call ++ ";" ++ nl
    ++ "      return ret.release();" ++ nl.

(** The guarded invocation of exception mode. *)
Definition guarded_call {G : generator} (call : string) (rtype : QualType.t)
  : string :=
  "    try {" ++ nl
  ++ closure_invocation call rtype
  ++ "    } catch (...) {" ++ nl
  ++ "      data->eptr = std::current_exception();" ++ nl
  ++ "      return " ++ failure_sentinel rtype ++ ";" ++ nl
  ++ "    }" ++ nl.

(** The plain invocation of status-code mode. *)
Definition unguarded_call {G : generator} (call : string) (rtype : QualType.t)
  : string :=
  "    auto ret = " ++ call ++ ";" ++ nl
  ++ (if is_isl_stat rtype then "    return isl_stat(ret);" ++ nl
      else "    return ret.release();" ++ nl).

(** The call of the closure inside the trampoline. *)
Definition closure_call {G : generator} (callback : QualType.t)
    (args : list QualType.t) : string :=
  "(" ++ "*data->func)("
  ++ call_args_loop callback (Z.of_nat (List.length args)) 0 args ++ ")".

(** The outcome of reading the name of a parameter through the pointer
    that [c_str()] of a destroyed string left behind. *)
Definition dangling_name : failure :=
  Undefined "c_str() of a destroyed std::string".

(** Some parameter of the list is a callback. *)
Definition has_callback_parameter {G : generator}
    (params : list ParmVarDecl.t) : bool :=
  existsb (fun param => is_callback (ParmVarDecl.getOriginalType param))
    params.

(** The definition of [set::foreach_basic_set] in a mode. *)
Definition ex_foreach_impl (g : cpp_generator)
  : cpp_generator * string * result unit :=
  print_method_impl 0 ex_set_ref "foreach_basic_set" ex_foreach_basic_set
    function_kind_member_method g.

(** The locals printed for a callback parameter [pname]: the context
    record with the closure and, in exception mode, the slot for a
    captured exception, and the trampoline. *)
Definition callback_locals {G : generator} (noexc : bool)
    (pname cpp_args c_args : string) (callback rtype : QualType.t)
    (args : list QualType.t) : string :=
  "  struct " ++ pname ++ "_data {" ++ nl
  ++ "    const " ++ cpp_args ++ " *func;" ++ nl
  ++ (if noexc then "" else "    std::exception_ptr eptr;" ++ nl)
  ++ "  } " ++ pname ++ "_data = { &" ++ pname ++ " };" ++ nl
  ++ "  auto " ++ pname ++ "_lambda = [](" ++ c_args ++ ") -> "
  ++ QualType.getAsString rtype ++ " {" ++ nl
  ++ "    auto *data = static_cast<struct " ++ pname ++ "_data *>(arg_"
  ++ to_string (Z.of_nat (List.length args) - 1) ++ ");" ++ nl
  ++ (if noexc then unguarded_call (closure_call callback args) rtype
      else guarded_call (closure_call callback args) rtype)
  ++ "  };" ++ nl.

(** *** Covariant return types *)

(** The rendered return type is the wrapper type of the class the
    type-tag subclass [clazz] is derived from. *)
Definition narrows {G : generator} (clazz : isl_class.t) (rettype : string)
  : bool :=
  is_type_subclass clazz
  && match type2cpp_str (isl_class.name clazz) with
     | Ok super => String.eqb rettype ("isl::" ++ super)
     | Fail _ => false
     end.

(** The return type of the synthesized method; [sub] is the C++ name of
    [clazz]. *)
Definition synthesized_return_type {G : generator} (clazz : isl_class.t)
    (rettype sub : string) : string :=
  if narrows clazz rettype then "isl::" ++ sub else rettype.

(** The header of a method that is no constructor. *)
Definition method_header_text (is_declaration : bool) (kind : function_kind)
    (rettype classname cname params : string) : string :=
  (if is_declaration then
     "  "
     ++ (if function_kind_eqb kind function_kind_static_method then "static "
         else "")
     ++ "inline "
   else "")
  ++ rettype ++ " "
  ++ (if is_declaration then "" else classname ++ "::")
  ++ cname ++ "(" ++ params ++ ")"
  ++ (if function_kind_eqb kind function_kind_member_method then " const"
      else "")
  ++ (if is_declaration then ";" else "")
  ++ nl.

(** The statement that returns an isl object. *)
Definition return_object {G : generator} (clazz : isl_class.t)
    (rettype sub : string) : string :=
  if narrows clazz rettype then
    "  return manage(res).as<" ++ synthesized_return_type clazz rettype sub
    ++ ">();" ++ nl
  else "  return manage(res);" ++ nl.

(** A type-tag subclass: the band nodes of a schedule tree. *)
Definition ty_schedule_node : QualType.t := ty_object "isl_schedule_node".

Definition ex_band_tile : FunctionDecl.t :=
  FunctionDecl.mk "isl_schedule_node_band_tile" ty_schedule_node
    [parm "node" ty_schedule_node ["isl_take"];
     parm "sizes" (ty_object "isl_multi_val") ["isl_take"]]
    ["isl_give"].

Definition ex_band : isl_class.t :=
  isl_class.mk "isl_schedule_node" "isl_schedule_node_band"
    (Some (RecordDecl.mk "isl_schedule_node" []))
    [] [("band_tile", [ex_band_tile])] None None None.

Definition ex_band_ref : class_ref := mk_ref "isl_schedule_node_band" ex_band.

(** *** Downcasts *)

(** The definition of [isa] that is printed for the class [cppname] with
    type function [fn_type]. *)
Definition isa_text (noexc : bool) (cppname fn_type : string) : string :=
  "template <class T>" ++ nl
  ++ isl_bool2cpp noexc ++ " " ++ cppname ++ "::isa()" ++ nl
  ++ "{" ++ nl
  ++ "  if (is_null())" ++ nl
  ++ (if noexc then "    return isl::boolean();" ++ nl else throw_NULL_input)
  ++ "  return " ++ fn_type ++ "(get()) == T::type;" ++ nl
  ++ "}" ++ nl.

(** The definition of [as] that is printed. *)
Definition as_text (noexc : bool) (cppname : string) : string :=
  "template <class T>" ++ nl
  ++ "T " ++ cppname ++ "::as()" ++ nl
  ++ "{" ++ nl
  ++ (if noexc then "  if (is_null())" ++ nl ++ "    T();" ++ nl else "")
  ++ "  return isa<T>() ? T(copy()) : T();" ++ nl
  ++ "}" ++ nl.

(** The declarations of the two. *)
Definition downcast_decl_text (noexc : bool) : string :=
  "  template <class T> inline " ++ isl_bool2cpp noexc ++ " isa();" ++ nl
  ++ "  template <class T> inline T as();" ++ nl.

(** A class with a type function: the nodes of a schedule tree. *)
Definition ex_get_type : FunctionDecl.t :=
  FunctionDecl.mk "isl_schedule_node_get_type"
    (QualType.Plain "enum isl_schedule_node_type" true true)
    [parm "node" ty_schedule_node ["isl_keep"]] [].

Definition ex_node : isl_class.t :=
  isl_class.mk "isl_schedule_node" "isl_schedule_node"
    (Some (RecordDecl.mk "isl_schedule_node" []))
    [] [] (Some ex_get_type) None None.

Definition ex_node_ref : class_ref := mk_ref "isl_schedule_node" ex_node.

(** *** The subclass relation *)

(** The class that [classes[k]] refers to. *)
Definition class_at (m : class_map) (k : string) : isl_class.t :=
  match map_find m k with
  | Some c => c
  | None => isl_class.default
  end.

(** The names [find_superclasses] reports for the class under key [k]. *)
Definition superclasses_of {G : generator} (m : class_map) (k : string)
  : list string :=
  find_superclasses (isl_class.type (class_at m k)).

(** [k'] is reached from [k] by one or more steps to a superclass. *)
Inductive is_subclass_of {G : generator} (m : class_map)
  : string -> string -> Prop :=
| subclass_direct k k' :
    In k' (superclasses_of m k) -> is_subclass_of m k k'
| subclass_step k k1 k' :
    In k1 (superclasses_of m k) -> is_subclass_of m k1 k' ->
    is_subclass_of m k k'.

(** The steps to superclasses that start at [k] all come to an end. *)
Inductive finite_ancestry {G : generator} (m : class_map) : string -> Prop :=
| finite_ancestry_intro k :
    (forall k', In k' (superclasses_of m k) -> finite_ancestry m k') ->
    finite_ancestry m k.

(** The work list of [is_subclass], on keys. *)
Fixpoint worklist {G : generator} (m : class_map) (n : nat) (target : string)
    (parents : list string) : option bool :=
  match parents with
  | [] => Some false
  | candidate :: parents =>
      match n with
      | O => None
      | S n' =>
          if String.eqb target candidate then Some true
          else worklist m n' target
                 (rev (superclasses_of m candidate) ++ parents)
      end
  end.

(** The reference [&classes[k]]. *)
Definition ref_at (m : class_map) (k : string) : class_ref :=
  mk_ref k (class_at m k).

(** The constructor [cons] of the class at [target] converts from a
    subclass: it has a single parameter, of an isl object type other than
    the context, whose class is a subclass of the class constructed. *)
Definition converts_from_subclass {G : generator} (m : class_map)
    (target : string) (cons : FunctionDecl.t) : Prop :=
  exists param pointee,
    FunctionDecl.params cons = [param]
    /\ is_isl_type (ParmVarDecl.getOriginalType param) = true
    /\ is_isl_ctx (ParmVarDecl.getOriginalType param) = false
    /\ QualType.getPointeeType (ParmVarDecl.getOriginalType param)
       = Some pointee
    /\ is_subclass_of m (QualType.getAsString pointee) target.

(** The generator objects met while the class map [m] grows. *)
Definition later (m : class_map) (g : cpp_generator) : Prop :=
  map_grows m (classes g).

Definition worklist_result (r : option bool) : result bool :=
  match r with
  | Some b => Ok b
  | None => Fail OutOfFuel
  end.

(** [k] is the target or a subclass of it. *)
Definition reaches {G : generator} (m : class_map) (target k : string)
  : Prop :=
  k = target \/ is_subclass_of m k target.

(** The work list comes to an answer. *)
Definition answers {G : generator} (m : class_map) (target : string)
    (parents : list string) : Prop :=
  exists n b, worklist m n target parents = Some b.

(** A computation that prints nothing. *)
Definition silent {A} (m : M A) : Prop :=
  forall g, text_of (m g) = "".

(** What the classification of a constructor asks of its first
    parameter: an isl object type is a pointer type, and the ancestry of
    the class it points to is finite. *)
Definition ancestry_known {G : generator} (m : class_map)
    (param : ParmVarDecl.t) : Prop :=
  let type := ParmVarDecl.getOriginalType param in
  is_isl_type type = true -> is_isl_ctx type = false ->
  exists pointee,
    QualType.getPointeeType type = Some pointee
    /\ finite_ancestry m (QualType.getAsString pointee).

(** The declaration of a constructor. *)
Definition constructor_decl_text (implicit : bool) (classname params : string)
  : string :=
  "  inline " ++ (if implicit then "/* implicit */ " else "explicit ")
  ++ classname ++ "(" ++ params ++ ");" ++ nl.

Definition ex_set_from_basic_set_decl (g : cpp_generator)
  : cpp_generator * string * result unit :=
  print_method_header 2 ex_set_ref ex_from_basic_set
    "isl_set_from_basic_set" true function_kind_constructor g.

(** *** The traversal of the class map *)

Definition key_ltb (a b : string) : bool :=
  match String.compare a b with
  | Lt => true
  | _ => false
  end.

(** Every key of [m] is above [k]. *)
Definition keys_above (k : string) (m : class_map) : bool :=
  forallb (fun kc => key_ltb k (fst kc)) m.

(** The entries are in strictly increasing key order, as the entries of
    a [std::map] are. *)
Fixpoint keys_sorted (m : class_map) : bool :=
  match m with
  | [] => true
  | (k, _) :: m' => keys_above k m' && keys_sorted m'
  end.

(** The reference to an entry of the map. *)
Definition ref_of (kc : string * isl_class.t) : class_ref :=
  mk_ref (fst kc) (snd kc).

(** A loop body was run on the entries [l] in turn, each time on the
    generator object [g] and leaving it as it was; [a] is the
    loop-carried local before, [a'] after, [out] the text printed. *)
Inductive visits {A} (body : class_ref -> A -> M A) (g : cpp_generator)
  : class_map -> A -> string -> A -> Prop :=
| visits_nil a : visits body g [] a "" a
| visits_cons kc l a o a1 o' a' :
    body (ref_of kc) a g = (g, o, Ok a1) ->
    visits body g l a1 o' a' ->
    visits body g (kc :: l) a (o ++ o') a'.

(** The forward declaration of a class. *)
Definition forward_decl_text (cppname : string) : string :=
  "class " ++ cppname ++ ";" ++ nl.

Fixpoint concat_all (l : list string) : string :=
  match l with
  | [] => ""
  | x :: l' => x ++ concat_all l'
  end.

(** The texts [l] with [sep] between them. *)
Definition separated (sep : string) (l : list string) : string :=
  match l with
  | [] => ""
  | x :: l' => x ++ concat_all (map (fun t => sep ++ t) l')
  end.

(** The body of the loops of [print_declarations] and of
    [print_implementations] around a printer [P]. *)
Definition separated_body (P : class_ref -> M unit) (clazz : class_ref)
    (first : bool) : M bool :=
  bind (if first then ret tt else osprintf nl)
    (fun _ => bind (P clazz) (fun _ => ret false)).

(** The text between the opening and the closing of the namespaces. *)
Definition namespace_open (noexc : bool) : string :=
  nl ++ "namespace isl {" ++ nl ++ nl
  ++ (if noexc then "inline namespace noexceptions {" ++ nl ++ nl else "").

Definition namespace_close (noexc : bool) : string :=
  (if noexc then "} // namespace noexceptions" ++ nl else "")
  ++ "} // namespace isl" ++ nl.

(** The three regions of the output for the classes [m]: [names] are
    the C++ names of the classes, [decls] and [impls] the declaration
    and the implementations printed for each. *)
Definition three_regions (names decls impls : list string) : string :=
  "// forward declarations" ++ nl
  ++ concat_all (map forward_decl_text names)
  ++ nl
  ++ separated nl decls
  ++ nl
  ++ separated nl impls.

(** [method] is printed for the class [c]. *)
Definition method_of (c : isl_class.t) (method : FunctionDecl.t) : Prop :=
  exists it, In it (isl_class.methods c) /\ In method (snd it).

(** [text] is what is printed for the callback parameter [param]: the
    context record and the trampoline of the mode [noexc]. *)
Definition callback_locals_of {G : generator} (noexc : bool)
    (param : ParmVarDecl.t) (text : string) : Prop :=
  is_callback (ParmVarDecl.getType param) = true
  /\ exists callback rtype args c_args cpp_args,
       getAs_FunctionProtoType (ParmVarDecl.getType param)
         = Some (callback, rtype, args)
       /\ generate_callback_args noexc (ParmVarDecl.getType param) false
          = Ok c_args
       /\ generate_callback_type noexc (ParmVarDecl.getType param)
          = Ok cpp_args
       /\ text = callback_locals noexc (ParmVarDecl.getName param) cpp_args
                   c_args callback rtype args.

(** [isl_set_foreach_basic_set] with a callback parameter whose name
    has 25 characters. *)
Definition ex_foreach_long_name : FunctionDecl.t :=
  FunctionDecl.mk "isl_set_foreach_basic_set" ty_stat
    [parm "set" ty_set ["isl_keep"];
     parm "callback_for_each_element" ty_callback [];
     parm "user" ty_user []] [].

(** The call of the closure inside a trampoline, written out. *)
Definition closure_call_text {G : generator} (callback : QualType.t)
    (args : list QualType.t) : string :=
  "(" ++ "*data->func)("
  ++ call_args_loop callback (Z.of_nat (List.length args)) 0 args ++ ")".

(** The classes of the examples without the method that takes a
    callback. *)
Definition ex_set_plain : isl_class.t :=
  isl_class.mk "isl_set" "isl_set" (Some (RecordDecl.mk "isl_set" []))
    [ex_from_basic_set]
    [("intersect", [ex_intersect]); ("is_empty", [ex_is_empty])]
    None None None.

Definition ex_classes_plain : class_map :=
  [("isl_basic_set", ex_basic_set); ("isl_set", ex_set_plain)].

Definition ex_gen_plain : cpp_generator := mk_gen false ex_classes_plain.

(** *** Fuel *)

(** A computation that, once it has come to a result with some fuel,
    comes to the same result with any larger fuel. *)
Definition fuel_stable {A} (m : nat -> M A) : Prop :=
  forall n n' g g' o a,
    m n g = (g', o, Ok a) -> (n <= n')%nat -> m n' g = (g', o, Ok a).

(** *** Resolved class maps *)

(** The class map has an entry under the key [k]. *)
Definition present (m : class_map) (k : string) : bool :=
  match map_find m k with
  | Some _ => true
  | None => false
  end.

(** The class that the classification of the constructor [cons] looks
    up first, if it looks one up: the class its single parameter points
    to, when that parameter is an isl object other than the context. *)
Definition converted_class {G : generator} (cons : FunctionDecl.t)
  : option string :=
  match FunctionDecl.params cons with
  | [param] =>
      let type := ParmVarDecl.getOriginalType param in
      if is_isl_type type && negb (is_isl_ctx type) then
        match QualType.getPointeeType type with
        | Some pointee => Some (QualType.getAsString pointee)
        | None => None
        end
      else None
  | _ => None
  end.

(** Every class that the class [c] refers to has an entry: its
    superclasses and the classes its constructors convert from. *)
Definition class_resolved {G : generator} (m : class_map) (c : isl_class.t)
  : bool :=
  forallb (present m) (find_superclasses (isl_class.type c))
  && forallb (fun cons =>
                match converted_class cons with
                | Some k => present m k
                | None => true
                end) (isl_class.constructors c).

(** A class map without references to classes that have no entry. *)
Definition resolved {G : generator} (m : class_map) : bool :=
  forallb (fun kc => class_resolved m (snd kc)) m.

(** ** Vocabulary of the further statements *)

(** The parameters of a trampoline: the spelling of each argument type of
    the callback, followed by [arg_] and the index of the argument. *)
Fixpoint trampoline_params (i : Z) (args : list QualType.t) : list string :=
  match args with
  | [] => []
  | type :: rest =>
      (QualType.getAsString type ++ "arg_" ++ to_string i)
      :: trampoline_params (i + 1) rest
  end.

(** A parameter as the header of a method declares it; [cpptype] is the
    rendering of its type. *)
Definition declared_param {G : generator} (cpptype : string)
    (param : ParmVarDecl.t) : string :=
  let type := ParmVarDecl.getOriginalType param in
  if keeps param || is_string type || is_callback type then
    "const " ++ cpptype ++ " &" ++ ParmVarDecl.getName param
  else cpptype ++ " " ++ ParmVarDecl.getName param.

(** The declaration of a parameter in a mode, when its type has a
    rendering. *)
Definition param_decl {G : generator} (noexc : bool) (param : ParmVarDecl.t)
  : result string :=
  (cpptype <- type2cpp noexc (ParmVarDecl.getOriginalType param) ;;
   Ok (declared_param cpptype param))%result.

(** No parameter of the list is a callback. *)
Definition callback_free {G : generator} (params : list ParmVarDecl.t)
  : Prop :=
  Forall (fun param =>
            is_callback (ParmVarDecl.getOriginalType param) = false
            /\ is_callback (ParmVarDecl.getType param) = false) params.

(** [param] is a callback, by its type as written and as adjusted. *)
Definition callback_param {G : generator} (param : ParmVarDecl.t) : Prop :=
  is_callback (ParmVarDecl.getOriginalType param) = true
  /\ is_callback (ParmVarDecl.getType param) = true.

(** The parameters [exposed] of the C++ method for the parameters
    [params] of the isl function: all of them when none is a callback,
    and all but the last when the last two are a callback and its user
    pointer. *)
Inductive exposes {G : generator}
  : list ParmVarDecl.t -> list ParmVarDecl.t -> Prop :=
| exposes_all params : callback_free params -> exposes params params
| exposes_callback front cb user :
    callback_free front -> callback_param cb ->
    exposes (front ++ [cb; user]) (front ++ [cb]).

(** The header of a method or constructor: [implicit] matters for the
    declaration of a constructor only, [rettype] and [cname] for methods
    only. *)
Definition header_text (is_declaration : bool) (kind : function_kind)
    (implicit : bool) (rettype classname cname params : string) : string :=
  (if is_declaration then
     "  "
     ++ (if function_kind_eqb kind function_kind_static_method then "static "
         else "")
     ++ "inline "
     ++ (if function_kind_eqb kind function_kind_constructor then
           if implicit then "/* implicit */ " else "explicit "
         else "")
   else "")
  ++ (if function_kind_eqb kind function_kind_constructor then ""
      else rettype ++ " ")
  ++ (if is_declaration then "" else classname ++ "::")
  ++ (if function_kind_eqb kind function_kind_constructor then classname
      else cname)
  ++ "(" ++ params ++ ")"
  ++ (if function_kind_eqb kind function_kind_member_method then " const"
      else "")
  ++ (if is_declaration then ";" else "")
  ++ nl.

(** The index of the first parameter that a header lists. *)
Definition first_param (kind : function_kind) : nat :=
  if function_kind_eqb kind function_kind_member_method then 1%nat else 0%nat.

(** An argument of the call of the isl function; [load_from_this_ptr]
    for the receiver. *)
Definition argument_use {G : generator} (param : ParmVarDecl.t)
    (load_from_this_ptr : bool) : string :=
  let name := ParmVarDecl.getName param in
  let type := ParmVarDecl.getOriginalType param in
  if extensions && QualType.isEnumeralType type then
    "static_cast<" ++ QualType.getAsString type ++ ">(" ++ name ++ ")"
  else if QualType.isIntegerType type then name
  else if is_string type then name ++ ".c_str()"
  else if is_callback type then name ++ "_lambda, &" ++ name ++ "_data"
  else
    (if load_from_this_ptr then "" else name ++ ".")
    ++ (if keeps param then "get()"
        else if load_from_this_ptr then "copy()" else "release()").

(** The arguments for the parameters [params], the first of which has
    index [i]; the parameter of index 0 of a member method is the
    receiver. *)
Fixpoint argument_uses {G : generator} (kind : function_kind) (i : Z)
    (params : list ParmVarDecl.t) : list string :=
  match params with
  | [] => []
  | param :: rest =>
      argument_use param
        ((i =? 0) && function_kind_eqb kind function_kind_member_method)
      :: argument_uses kind (i + 1) rest
  end.

(** The test of one argument for validity. *)
Definition is_null_test (param : ParmVarDecl.t) : string :=
  ParmVarDecl.getName param ++ ".is_null()".

(** The tests of the validity check of a method: the receiver of a
    member method, and every argument that is an isl object other than
    the context. *)
Definition validity_tests {G : generator} (kind : function_kind)
    (params : list ParmVarDecl.t) : list string :=
  if function_kind_eqb kind function_kind_member_method then
    match params with
    | [] => []
    | _ :: rest => "!ptr" :: map is_null_test (filter checked_argument rest)
    end
  else map is_null_test (filter checked_argument params).

(** The validity check with the tests [tests]. *)
Definition validity_check_text (tests : list string) : string :=
  match tests with
  | [] => ""
  | _ => "  if (" ++ separated " || " tests ++ ")" ++ nl ++ throw_NULL_input
  end.

(** The expression for the isl context in a method body: the context of
    the receiver, a parameter that is the context, or the local [ctx]. *)
Definition method_ctx_text {G : generator} (kind : function_kind)
    (first : ParmVarDecl.t) : string :=
  if function_kind_eqb kind function_kind_member_method then "get_ctx()"
  else if is_isl_ctx (ParmVarDecl.getOriginalType first) then
    ParmVarDecl.getName first
  else "ctx".

(** The declaration of the local [ctx]: from the first parameter that is
    an isl object. *)
Definition saved_ctx_text {G : generator} (params : list ParmVarDecl.t)
  : string :=
  match List.find (fun param =>
                     is_isl_type (ParmVarDecl.getOriginalType param))
          params with
  | Some param =>
      "  auto ctx = " ++ ParmVarDecl.getName param ++ ".get_ctx();" ++ nl
  | None => ""
  end.

(** The test of the result of the call in exception mode. *)
Definition result_check_text {G : generator} (return_type : QualType.t)
    (ctx : string) : string :=
  if is_isl_stat return_type || is_isl_bool return_type then
    "  if (res < 0)" ++ nl
    ++ "    throw exception::create_from_last_error(" ++ ctx ++ ");" ++ nl
  else if is_isl_type return_type then
    "  if (!res)" ++ nl
    ++ "    throw exception::create_from_last_error(" ++ ctx ++ ");" ++ nl
  else "".
(** ** Facts about the text and about runs *)

Lemma append_assoc (a b c : string) : ((a ++ b) ++ c = a ++ (b ++ c))%string.
Proof. induction a; simpl; congruence. Qed.

Lemma append_nil_r (a : string) : (a ++ "" = a)%string.
Proof. induction a; simpl; congruence. Qed.

Lemma bind_ok {A B} (m : M A) (f : A -> M B) g g' out b :
  bind m f g = (g', out, Ok b) ->
  exists g1 o1 a o2,
    m g = (g1, o1, Ok a) /\ f a g1 = (g', o2, Ok b) /\ out = (o1 ++ o2)%string.
Proof.
  unfold bind. destruct (m g) as [[g1 o1] [a | e]]; [| discriminate].
  destruct (f a g1) as [[g2 o2] r] eqn:E. intros H. inversion H; subst.
  exists g1, o1, a, o2. auto.
Qed.

Lemma bind_run {A B} (m : M A) (f : A -> M B) g g1 o1 a :
  m g = (g1, o1, Ok a) ->
  bind m f g = (state_of (f a g1), (o1 ++ text_of (f a g1))%string,
                value_of (f a g1)).
Proof.
  intros H. unfold bind. rewrite H. destruct (f a g1) as [[g2 o2] r].
  reflexivity.
Qed.

Lemma bind_fail {A B} (m : M A) (f : A -> M B) g g1 o1 e :
  m g = (g1, o1, Fail e) -> bind m f g = (g1, o1, Fail e).
Proof. intros H. unfold bind. rewrite H. reflexivity. Qed.

Lemma bind_ret {A B} (a : A) (f : A -> M B) g : bind (ret a) f g = f a g.
Proof. unfold bind, ret. destruct (f a g) as [[g2 o2] r]. reflexivity. Qed.

Lemma bind_lift {A B} (a : A) (f : A -> M B) g :
  bind (lift (Ok a)) f g = f a g.
Proof. unfold bind, lift. destruct (f a g) as [[g2 o2] r]. reflexivity. Qed.

Lemma bind_read {A B} (h : cpp_generator -> A) (f : A -> M B) g :
  bind (read h) f g = f (h g) g.
Proof. unfold bind, read. destruct (f (h g) g) as [[g2 o2] r]. reflexivity. Qed.

Lemma run_eta {A} (r : cpp_generator * string * result A) :
  r = (state_of r, text_of r, value_of r).
Proof. destruct r as [[g o] v]. reflexivity. Qed.

(** Running the sequencing of a printer without touching the text. *)
Ltac run :=
  cbv beta iota delta
    [bind osprintf ret lift read fail state_of text_of value_of fst snd].

Create HintDb text.
#[export] Hint Unfold throw_NULL_input member_validity_check
  member_on_error_continue failure_sentinel closure_invocation guarded_call
  unguarded_call closure_call callback_locals : text.

Ltac text_norm :=
  autounfold with text;
  repeat first
    [ rewrite append_assoc | rewrite append_nil_r | progress cbn [append] ].

Ltac text_eq := text_norm; reflexivity.


(** *** Printers that leave the generator object alone *)

Lemma read_only_ret {A} (a : A) : read_only (ret a).
Proof. intros g. reflexivity. Qed.

Lemma read_only_fail {A} e : read_only (@fail A e).
Proof. intros g. reflexivity. Qed.

Lemma read_only_lift {A} (r : result A) : read_only (lift r).
Proof. intros g. reflexivity. Qed.

Lemma read_only_read {A} (f : cpp_generator -> A) : read_only (read f).
Proof. intros g. reflexivity. Qed.

Lemma read_only_osprintf s : read_only (osprintf s).
Proof. intros g. reflexivity. Qed.

Lemma read_only_bind {A B} (m : M A) (f : A -> M B) :
  read_only m -> (forall a, read_only (f a)) -> read_only (bind m f).
Proof.
  intros Hm Hf g. unfold bind. specialize (Hm g).
  destruct (m g) as [[g1 o1] [a | e]]; unfold state_of in *; simpl in *; subst.
  - specialize (Hf a g). destruct (f a g) as [[g2 o2] r]. exact Hf.
  - reflexivity.
Qed.

Lemma read_only_for_list {A S} (l : list A) (body : A -> S -> M S) s :
  (forall x s, read_only (body x s)) -> read_only (for_list l body s).
Proof.
  intros Hb. revert s. induction l as [| x l IH]; intros s; simpl.
  - apply read_only_ret.
  - apply read_only_bind; [apply Hb | intros s'; apply IH].
Qed.

Lemma read_only_for_each {A} (l : list A) (body : A -> M unit) :
  (forall x, read_only (body x)) -> read_only (for_each l body).
Proof. intros Hb. apply read_only_for_list. intros x _. apply Hb. Qed.

Create HintDb read_only.

Ltac read_only_step :=
  first
    [ progress cbv zeta
    | solve [auto 1 with read_only nocore]
    | apply read_only_ret | apply read_only_fail | apply read_only_lift
    | apply read_only_read | apply read_only_osprintf
    | apply read_only_bind; [| intros ?]
    | apply read_only_for_each; intros ?
    | apply read_only_for_list; intros ? ?
    | match goal with
      | |- read_only (if ?b then _ else _) => destruct b
      | |- read_only (match ?x with _ => _ end) => destruct x
      end ].

Ltac read_only_tac := cbv zeta; repeat read_only_step.

Section ReadOnly.
Context {G : generator}.
Variable fuel : nat.

Lemma read_only_type2cpp_m type : read_only (type2cpp_m type).
Proof. unfold type2cpp_m. read_only_tac. Qed.

Lemma read_only_isl_bool2cpp_m : read_only isl_bool2cpp_m.
Proof. unfold isl_bool2cpp_m. read_only_tac. Qed.

Hint Resolve read_only_type2cpp_m read_only_isl_bool2cpp_m : read_only.

Lemma read_only_print_class_forward_decl clazz :
  read_only (print_class_forward_decl clazz).
Proof. unfold print_class_forward_decl. read_only_tac. Qed.

Lemma read_only_print_throw_NULL_input : read_only print_throw_NULL_input.
Proof. unfold print_throw_NULL_input. read_only_tac. Qed.

Hint Resolve read_only_print_throw_NULL_input : read_only.

Lemma read_only_print_class_factory_impl clazz :
  read_only (print_class_factory_impl clazz).
Proof. unfold print_class_factory_impl. read_only_tac. Qed.

Lemma read_only_print_protected_constructors_impl clazz :
  read_only (print_protected_constructors_impl clazz).
Proof. unfold print_protected_constructors_impl. read_only_tac. Qed.

Lemma read_only_print_public_constructors_impl clazz :
  read_only (print_public_constructors_impl clazz).
Proof. unfold print_public_constructors_impl. read_only_tac. Qed.

Lemma read_only_print_copy_assignment_impl clazz :
  read_only (print_copy_assignment_impl clazz).
Proof. unfold print_copy_assignment_impl. read_only_tac. Qed.

Lemma read_only_print_destructor_impl clazz :
  read_only (print_destructor_impl clazz).
Proof. unfold print_destructor_impl. read_only_tac. Qed.

Lemma read_only_print_ptr_impl clazz : read_only (print_ptr_impl clazz).
Proof. unfold print_ptr_impl. read_only_tac. Qed.

Lemma read_only_print_downcast_impl clazz :
  read_only (print_downcast_impl clazz).
Proof. unfold print_downcast_impl. read_only_tac. Qed.

Lemma read_only_print_get_ctx_impl clazz :
  read_only (print_get_ctx_impl clazz).
Proof. unfold print_get_ctx_impl. read_only_tac. Qed.

Lemma read_only_print_str_impl clazz : read_only (print_str_impl clazz).
Proof. unfold print_str_impl. read_only_tac. Qed.

Lemma read_only_print_operators_impl clazz :
  read_only (print_operators_impl clazz).
Proof. unfold print_operators_impl. read_only_tac. Qed.

Lemma read_only_print_method_param_use param load :
  read_only (print_method_param_use param load).
Proof. unfold print_method_param_use. read_only_tac. Qed.

Lemma read_only_validity_loop kind rest : forall i first,
  read_only (validity_loop kind i first rest).
Proof.
  induction rest as [| param rest IH]; intros i first; simpl; read_only_tac;
    apply IH.
Qed.

Hint Resolve read_only_validity_loop : read_only.

Lemma read_only_print_argument_validity_check method kind :
  read_only (print_argument_validity_check method kind).
Proof. unfold print_argument_validity_check. read_only_tac. Qed.

Lemma read_only_save_ctx_loop rest : read_only (save_ctx_loop rest).
Proof. induction rest as [| param rest IH]; simpl; read_only_tac; apply IH. Qed.

Hint Resolve read_only_save_ctx_loop : read_only.

Lemma read_only_print_save_ctx method kind :
  read_only (print_save_ctx method kind).
Proof. unfold print_save_ctx. read_only_tac. Qed.

Lemma read_only_print_method_ctx method kind :
  read_only (print_method_ctx method kind).
Proof. unfold print_method_ctx. read_only_tac. Qed.

Hint Resolve read_only_print_method_ctx : read_only.

Lemma read_only_print_on_error_continue method kind :
  read_only (print_on_error_continue method kind).
Proof. unfold print_on_error_continue. read_only_tac. Qed.

Lemma read_only_print_rethrow param : read_only (print_rethrow param).
Proof. unfold print_rethrow. read_only_tac. Qed.

Hint Resolve read_only_print_rethrow : read_only.

Lemma read_only_print_exceptional_execution_check method kind :
  read_only (print_exceptional_execution_check method kind).
Proof. unfold print_exceptional_execution_check. read_only_tac. Qed.

Lemma read_only_print_wrapped_call_noexceptions call rtype :
  read_only (print_wrapped_call_noexceptions call rtype).
Proof. unfold print_wrapped_call_noexceptions. read_only_tac. Qed.

Hint Resolve read_only_print_wrapped_call_noexceptions : read_only.

Lemma read_only_print_wrapped_call call rtype :
  read_only (print_wrapped_call call rtype).
Proof. unfold print_wrapped_call. read_only_tac. Qed.

Hint Resolve read_only_print_wrapped_call : read_only.

Lemma read_only_print_callback_local param :
  read_only (print_callback_local param).
Proof. unfold print_callback_local. read_only_tac. Qed.

Hint Resolve read_only_print_callback_local : read_only.

Lemma read_only_callback_locals_loop rest : forall num_params i has_callback,
  read_only (callback_locals_loop num_params i has_callback rest).
Proof.
  induction rest as [| param rest IH]; intros num_params i has_callback; simpl;
    read_only_tac; apply IH.
Qed.

Lemma read_only_param_use_loop kind rest : forall num_params i,
  read_only (param_use_loop kind num_params i rest).
Proof.
  induction rest as [| param rest IH]; intros num_params i; simpl;
    read_only_tac; solve [apply read_only_print_method_param_use | apply IH].
Qed.

Lemma read_only_print_method_return method kind rettype_str returns_super
    has_callback :
  read_only
    (print_method_return method kind rettype_str returns_super has_callback).
Proof. unfold print_method_return. read_only_tac. Qed.

Lemma read_only_header_params_loop rest : forall num_params i,
  read_only (header_params_loop num_params i rest).
Proof.
  induction rest as [| param rest IH]; intros num_params i; simpl;
    read_only_tac; apply IH.
Qed.

Hint Resolve read_only_header_params_loop read_only_callback_locals_loop
  read_only_param_use_loop read_only_print_method_return
  read_only_print_argument_validity_check read_only_print_save_ctx
  read_only_print_on_error_continue
  read_only_print_exceptional_execution_check : read_only.

(** The header of a definition does not classify the constructor, and
    so does not look into the class map. *)
Lemma read_only_print_method_header clazz method fullname kind :
  read_only (print_method_header fuel clazz method fullname false kind).
Proof. unfold print_method_header. read_only_tac. Qed.

Hint Resolve read_only_print_method_header : read_only.

Lemma read_only_print_method_impl clazz fullname method kind :
  read_only (print_method_impl fuel clazz fullname method kind).
Proof. unfold print_method_impl. read_only_tac. Qed.

Hint Resolve read_only_print_method_impl : read_only.

Lemma read_only_print_method_group_impl clazz fullname methods :
  read_only (print_method_group_impl fuel clazz fullname methods).
Proof. unfold print_method_group_impl. read_only_tac. Qed.

Hint Resolve read_only_print_method_group_impl : read_only.

Lemma read_only_print_methods_impl clazz :
  read_only (print_methods_impl fuel clazz).
Proof. unfold print_methods_impl. read_only_tac. Qed.

Lemma read_only_print_constructors_impl clazz :
  read_only (print_constructors_impl fuel clazz).
Proof. unfold print_constructors_impl. read_only_tac. Qed.

Hint Resolve read_only_print_class_factory_impl
  read_only_print_protected_constructors_impl
  read_only_print_public_constructors_impl read_only_print_copy_assignment_impl
  read_only_print_destructor_impl read_only_print_ptr_impl
  read_only_print_downcast_impl read_only_print_get_ctx_impl
  read_only_print_str_impl read_only_print_operators_impl
  read_only_print_methods_impl read_only_print_constructors_impl : read_only.

Lemma read_only_print_class_impl clazz :
  read_only (print_class_impl fuel clazz).
Proof. unfold print_class_impl. read_only_tac. Qed.

End ReadOnly.

Lemma read_only_run {A} (m : M A) g g1 o r :
  read_only m -> m g = (g1, o, r) -> g1 = g.
Proof. intros H E. specialize (H g). rewrite E in H. exact H. Qed.

Lemma lift_ok {A} (r : result A) g g1 o a :
  lift r g = (g1, o, Ok a) -> g1 = g /\ o = "" /\ r = Ok a.
Proof. unfold lift. intros H. inversion H; subst. auto. Qed.

Lemma osprintf_ok s g g1 o u :
  osprintf s g = (g1, o, Ok u) -> g1 = g /\ o = s.
Proof. unfold osprintf. intros H. inversion H; subst. auto. Qed.

Lemma type2cpp_m_ok {G : generator} type g g1 o s :
  type2cpp_m type g = (g1, o, Ok s) ->
  g1 = g /\ o = "" /\ type2cpp (noexceptions g) type = Ok s.
Proof.
  unfold type2cpp_m. run. intros H. inversion H; subst. auto.
Qed.

Lemma ret_ok {A} (a : A) g g1 o b :
  ret a g = (g1, o, Ok b) -> g1 = g /\ o = "" /\ b = a.
Proof. unfold ret. intros H. inversion H; subst. auto. Qed.

Lemma read_ok {A} (f : cpp_generator -> A) g g1 o b :
  read f g = (g1, o, Ok b) -> g1 = g /\ o = "" /\ b = f g.
Proof. unfold read. intros H. inversion H; subst. auto. Qed.

Lemma when_osprintf_ok (c : bool) s g g1 o u :
  (if c then osprintf s else ret tt) g = (g1, o, Ok u) ->
  g1 = g /\ o = if c then s else "".
Proof. destruct c; intros H; inversion H; subst; auto. Qed.

Lemma when_osprintf_ok' (c : bool) s g g1 o u :
  (if c then ret tt else osprintf s) g = (g1, o, Ok u) ->
  g1 = g /\ o = if c then "" else s.
Proof. destruct c; intros H; inversion H; subst; auto. Qed.

Lemma either_osprintf_ok (c : bool) s t g g1 o u :
  (if c then osprintf s else osprintf t) g = (g1, o, Ok u) ->
  g1 = g /\ o = if c then s else t.
Proof. destruct c; intros H; inversion H; subst; auto. Qed.

(** Using an equation between variables or texts that a step yields. *)
Ltac use_eq H :=
  match type of H with
  | ?x = ?x => clear H
  | ?x = _ => is_var x; subst x
  | _ = ?y => is_var y; subst y
  | _ => idtac
  end.

(** Taking a successful run apart into the runs of its steps. *)
Ltac run_inv :=
  repeat match goal with
    | H : bind _ _ _ = (_, _, Ok _) |- _ =>
        apply bind_ok in H;
        let g := fresh "g" in
        let o := fresh "o" in
        let a := fresh "a" in
        let o' := fresh "o" in
        let H1 := fresh "H" in
        let Ho := fresh "Ho" in
        destruct H as (g & o & a & o' & H1 & H & Ho); use_eq Ho
    | H : osprintf _ _ = (_, _, Ok _) |- _ =>
        apply osprintf_ok in H;
        let Hg := fresh "Hg" in
        let Ho := fresh "Ho" in
        destruct H as (Hg & Ho); use_eq Hg; use_eq Ho
    | H : lift _ _ = (_, _, Ok _) |- _ =>
        apply lift_ok in H;
        let Hg := fresh "Hg" in
        let Ho := fresh "Ho" in
        destruct H as (Hg & Ho & H); use_eq Hg; use_eq Ho
    | H : ret _ _ = (_, _, Ok _) |- _ =>
        apply ret_ok in H;
        let Hg := fresh "Hg" in
        let Ho := fresh "Ho" in
        destruct H as (Hg & Ho & H); use_eq Hg; use_eq Ho; use_eq H
    | H : read _ _ = (_, _, Ok _) |- _ =>
        apply read_ok in H;
        let Hg := fresh "Hg" in
        let Ho := fresh "Ho" in
        destruct H as (Hg & Ho & H); use_eq Hg; use_eq Ho; use_eq H
    | H : type2cpp_m _ _ = (_, _, Ok _) |- _ =>
        apply type2cpp_m_ok in H;
        let Hg := fresh "Hg" in
        let Ho := fresh "Ho" in
        destruct H as (Hg & Ho & H); use_eq Hg; use_eq Ho
    | H : (if _ then osprintf _ else ret tt) _ = (_, _, Ok _) |- _ =>
        apply when_osprintf_ok in H;
        let Hg := fresh "Hg" in
        let Ho := fresh "Ho" in
        destruct H as (Hg & Ho); use_eq Hg; use_eq Ho
    | H : (if _ then ret tt else osprintf _) _ = (_, _, Ok _) |- _ =>
        apply when_osprintf_ok' in H;
        let Hg := fresh "Hg" in
        let Ho := fresh "Ho" in
        destruct H as (Hg & Ho); use_eq Hg; use_eq Ho
    | H : (if _ then osprintf _ else osprintf _) _ = (_, _, Ok _) |- _ =>
        apply either_osprintf_ok in H;
        let Hg := fresh "Hg" in
        let Ho := fresh "Ho" in
        destruct H as (Hg & Ho); use_eq Hg; use_eq Ho
    | H : (let (_, _) := ?x in _) _ = (_, _, Ok _) |- _ => destruct x
    | u : unit |- _ => destruct u
    end.

(** *** The parts of a method definition

    A definition that was printed to its end consists of the header, the
    opening brace, the validity check of the arguments, the saved context,
    the error mode, the locals of the callbacks, the call, the check of
    the outcome, the return statement and the closing brace; each part is
    the text of its printer, run on the same generator object. *)
Lemma print_method_impl_ok {G : generator} (fuel : nat) clazz fullname method
    kind g g' out :
  print_method_impl fuel clazz fullname method kind g = (g', out, Ok tt) ->
  g' = g /\
  exists rettype_str returns_super rettype_str' num_params has_callback
         H V S E L A X R,
    type2cpp (noexceptions g) (FunctionDecl.getReturnType method)
      = Ok rettype_str
    /\ super2sub clazz rettype_str = Ok (returns_super, rettype_str')
    /\ print_method_header fuel clazz method fullname false kind g
       = (g, H, Ok tt)
    /\ print_argument_validity_check method kind g = (g, V, Ok tt)
    /\ print_save_ctx method kind g = (g, S, Ok tt)
    /\ print_on_error_continue method kind g = (g, E, Ok tt)
    /\ callback_locals_loop (FunctionDecl.getNumParams method) 0 false
         (FunctionDecl.params method) g
       = (g, L, Ok (num_params, has_callback))
    /\ param_use_loop kind num_params 0 (FunctionDecl.params method) g
       = (g, A, Ok tt)
    /\ print_exceptional_execution_check method kind g = (g, X, Ok tt)
    /\ print_method_return method kind rettype_str' returns_super has_callback
         g = (g, R, Ok tt)
    /\ out = (H ++ "{" ++ nl ++ V ++ S ++ E ++ L
              ++ "  auto res = " ++ FunctionDecl.getName method ++ "("
              ++ A ++ ");" ++ nl ++ X ++ R ++ "}" ++ nl)%string.
Proof.
  unfold print_method_impl. intros H0.
  apply bind_ok in H0. destruct H0 as (g1 & o1 & rt & o2 & H1 & H0 & ->).
  apply type2cpp_m_ok in H1. destruct H1 as (-> & -> & Hrt).
  apply bind_ok in H0. destruct H0 as (g1 & o1 & [rs rt'] & o3 & H1 & H0 & ->).
  apply lift_ok in H1. destruct H1 as (-> & -> & Hs2s).
  apply bind_ok in H0. destruct H0 as (g1 & H & [] & o4 & HH & H0 & ->).
  pose proof (read_only_run _ _ _ _ _
                (read_only_print_method_header fuel clazz method fullname kind)
                HH); subst g1.
  apply bind_ok in H0. destruct H0 as (g1 & o1 & [] & o5 & H1 & H0 & ->).
  apply osprintf_ok in H1. destruct H1 as (-> & ->).
  apply bind_ok in H0. destruct H0 as (g1 & V & [] & o6 & HV & H0 & ->).
  pose proof (read_only_run _ _ _ _ _
                (read_only_print_argument_validity_check method kind) HV);
    subst g1.
  apply bind_ok in H0. destruct H0 as (g1 & S & [] & o7 & HS & H0 & ->).
  pose proof (read_only_run _ _ _ _ _ (read_only_print_save_ctx method kind)
                HS); subst g1.
  apply bind_ok in H0. destruct H0 as (g1 & E & [] & o8 & HE & H0 & ->).
  pose proof (read_only_run _ _ _ _ _
                (read_only_print_on_error_continue method kind) HE); subst g1.
  apply bind_ok in H0. destruct H0 as (g1 & L & [np hc] & o9 & HL & H0 & ->).
  pose proof (read_only_run _ _ _ _ _
                (read_only_callback_locals_loop _ _ _ _) HL); subst g1.
  apply bind_ok in H0. destruct H0 as (g1 & o1 & [] & o10 & H1 & H0 & ->).
  apply osprintf_ok in H1. destruct H1 as (-> & ->).
  apply bind_ok in H0. destruct H0 as (g1 & A & [] & o11 & HA & H0 & ->).
  pose proof (read_only_run _ _ _ _ _ (read_only_param_use_loop _ _ _ _) HA);
    subst g1.
  apply bind_ok in H0. destruct H0 as (g1 & o1 & [] & o12 & H1 & H0 & ->).
  apply osprintf_ok in H1. destruct H1 as (-> & ->).
  apply bind_ok in H0. destruct H0 as (g1 & X & [] & o13 & HX & H0 & ->).
  pose proof (read_only_run _ _ _ _ _
                (read_only_print_exceptional_execution_check method kind) HX);
    subst g1.
  apply bind_ok in H0. destruct H0 as (g1 & R & [] & o14 & HR & H0 & ->).
  pose proof (read_only_run _ _ _ _ _
                (read_only_print_method_return _ _ _ _ _) HR); subst g1.
  apply osprintf_ok in H0. destruct H0 as (-> & ->).
  split; [reflexivity |].
  exists rt, rs, rt', np, hc, H, V, S, E, L, A, X, R.
  repeat (split; [assumption |]).
  simpl. repeat rewrite append_assoc. reflexivity.
Qed.

(** *** The validity check *)

Lemma print_throw_NULL_input_run g :
  print_throw_NULL_input g = (g, throw_NULL_input, Ok tt).
Proof. reflexivity. Qed.

Lemma validity_loop_rest {G : generator} kind rest : forall i g,
  (0 < i)%Z ->
  validity_loop kind i false rest g = (g, null_tests rest, Ok false).
Proof.
  induction rest as [| param rest IH]; intros i g Hi; simpl.
  - reflexivity.
  - assert (Ei : (i =? 0)%Z = false) by (apply Z.eqb_neq; lia).
    rewrite Ei. cbn [andb negb]. unfold checked_argument. cbv zeta.
    destruct (is_isl_type (ParmVarDecl.getOriginalType param));
      destruct (is_isl_ctx (ParmVarDecl.getOriginalType param));
      cbn [andb orb negb].
    + rewrite IH by lia. reflexivity.
    + erewrite bind_run by reflexivity.
      erewrite bind_run by reflexivity.
      rewrite IH by lia. run. text_eq.
    + rewrite IH by lia. reflexivity.
    + rewrite IH by lia. reflexivity.
Qed.

Lemma member_validity_check_run {G : generator} method this rest g :
  FunctionDecl.params method = this :: rest ->
  noexceptions g = false ->
  print_argument_validity_check method function_kind_member_method g
  = (g, member_validity_check rest, Ok tt).
Proof.
  intros Hp Hn. unfold print_argument_validity_check, read.
  erewrite bind_run by reflexivity. rewrite Hn, Hp.
  unfold validity_loop; fold (validity_loop (G := G)).
  cbn [Z.eqb function_kind_eqb andb negb].
  erewrite bind_run.
  2:{ erewrite bind_run by reflexivity. erewrite bind_run by reflexivity.
      rewrite validity_loop_rest by lia. run. reflexivity. }
  run. unfold member_validity_check, throw_NULL_input.
  text_eq.
Qed.

Lemma noexceptions_validity_check_run {G : generator} method kind g :
  noexceptions g = true ->
  print_argument_validity_check method kind g = (g, "", Ok tt).
Proof.
  intros Hn. unfold print_argument_validity_check, read.
  erewrite bind_run by reflexivity. rewrite Hn. reflexivity.
Qed.

Lemma getParamDecl_0_ok method param :
  getParamDecl method 0 = Ok param ->
  exists rest, FunctionDecl.params method = param :: rest.
Proof.
  unfold getParamDecl. destruct (FunctionDecl.params method) as [| p rest];
    simpl; intros H; inversion H; subst. eauto.
Qed.

Lemma print_save_ctx_ok {G : generator} method kind g g1 o :
  print_save_ctx method kind g = (g1, o, Ok tt) ->
  exists this rest, FunctionDecl.params method = this :: rest.
Proof.
  unfold print_save_ctx. intros H. apply bind_ok in H.
  destruct H as (g2 & o1 & param & o2 & H1 & _ & _).
  apply lift_ok in H1. destruct H1 as (_ & _ & H1).
  apply getParamDecl_0_ok in H1. destruct H1 as [rest H1]. eauto.
Qed.

Lemma member_save_ctx_run {G : generator} method this rest g :
  FunctionDecl.params method = this :: rest ->
  print_save_ctx method function_kind_member_method g = (g, "", Ok tt).
Proof.
  intros Hp. unfold print_save_ctx, getParamDecl. rewrite Hp. run.
  destruct (noexceptions g); reflexivity.
Qed.

Lemma member_on_error_continue_run {G : generator} method this rest g :
  FunctionDecl.params method = this :: rest ->
  print_on_error_continue method function_kind_member_method g
  = (g, if noexceptions g then "" else member_on_error_continue, Ok tt).
Proof.
  intros Hp. unfold print_on_error_continue, print_method_ctx, getParamDecl.
  rewrite Hp. run. destruct (noexceptions g); [reflexivity |].
  unfold member_on_error_continue. simpl. text_eq.
Qed.

(** *** The callback protocol *)

Lemma print_wrapped_call_run {G : generator} call rtype g :
  print_wrapped_call call rtype g
  = (g, if noexceptions g then unguarded_call call rtype
        else guarded_call call rtype, Ok tt).
Proof.
  unfold print_wrapped_call, print_wrapped_call_noexceptions, read.
  erewrite bind_run by reflexivity.
  unfold guarded_call, unguarded_call, closure_invocation, failure_sentinel.
  destruct (noexceptions g); destruct (is_isl_stat rtype);
    try destruct (is_isl_bool rtype); run; text_eq.
Qed.

Lemma print_callback_local_ok {G : generator} param g g1 o :
  print_callback_local param g = (g1, o, Ok tt) ->
  g1 = g /\
  exists callback rtype args c_args cpp_args,
    getAs_FunctionProtoType (ParmVarDecl.getType param)
      = Some (callback, rtype, args)
    /\ generate_callback_args (noexceptions g) (ParmVarDecl.getType param)
         false = Ok c_args
    /\ generate_callback_type (noexceptions g) (ParmVarDecl.getType param)
       = Ok cpp_args
    /\ o = callback_locals (noexceptions g) (ParmVarDecl.getName param)
             cpp_args c_args callback rtype args.
Proof.
  intros H0.
  assert (Hg : g1 = g)
    by exact (read_only_run _ _ _ _ _
                (read_only_print_callback_local param) H0).
  split; [exact Hg |]. subst g1.
  unfold print_callback_local in H0. cbv zeta in H0.
  unfold read in H0. erewrite bind_run in H0 by reflexivity.
  destruct (generate_callback_args (noexceptions g) (ParmVarDecl.getType param)
              false) as [c_args | e] eqn:Ec; [| discriminate H0].
  destruct (generate_callback_type (noexceptions g) (ParmVarDecl.getType param))
    as [cpp_args | e] eqn:Et; [| discriminate H0].
  destruct (getAs_FunctionProtoType (ParmVarDecl.getType param))
    as [[[callback rtype] args] |] eqn:Ef; [| discriminate H0].
  exists callback, rtype, args, c_args, cpp_args.
  repeat (split; [reflexivity |]).
  revert H0. unfold lift, expect.
  destruct (noexceptions g) eqn:Hn; cbn [negb]; run;
    rewrite print_wrapped_call_run, Hn; intros H0; injection H0 as <-;
    text_eq.
Qed.

Lemma for_each_print_rethrow_run {G : generator} params g :
  for_each params print_rethrow g
  = (g, "",
     if has_callback_parameter params then Fail dangling_name else Ok tt).
Proof.
  unfold for_each, has_callback_parameter.
  induction params as [| param rest IH]; cbn [for_list existsb].
  - reflexivity.
  - unfold print_rethrow at 1.
    destruct (is_callback (ParmVarDecl.getOriginalType param));
      cbn [negb orb].
    + reflexivity.
    + rewrite bind_ret. exact IH.
Qed.

(** In exception mode the check after the call starts with the loop over
    the parameters, which does not get past a callback parameter. *)
Lemma print_exceptional_execution_check_callback {G : generator} method kind
    g :
  noexceptions g = false ->
  has_callback_parameter (FunctionDecl.params method) = true ->
  print_exceptional_execution_check method kind g
  = (g, "", Fail dangling_name).
Proof.
  intros Hn Hc. unfold print_exceptional_execution_check. cbv zeta.
  rewrite bind_read, Hn.
  apply bind_fail. rewrite for_each_print_rethrow_run, Hc. reflexivity.
Qed.

Lemma print_exceptional_execution_check_noexceptions {G : generator} method
    kind g :
  noexceptions g = true ->
  print_exceptional_execution_check method kind g = (g, "", Ok tt).
Proof.
  intros Hn. unfold print_exceptional_execution_check. cbv zeta.
  rewrite bind_read, Hn. reflexivity.
Qed.

(** *** Headers and return statements *)

#[export] Hint Unfold method_header_text return_object
  synthesized_return_type : text.

Lemma super2sub_ok {G : generator} (clazz : class_ref) rettype b rettype' :
  super2sub clazz rettype = Ok (b, rettype') ->
  b = narrows clazz rettype
  /\ forall sub, type2cpp_class clazz = Ok sub ->
       rettype' = synthesized_return_type clazz rettype sub.
Proof.
  unfold super2sub, synthesized_return_type, narrows.
  destruct (is_type_subclass clazz); cbn [negb andb].
  - destruct (type2cpp_str (isl_class.name clazz)) as [super | e];
      cbn [rbind]; [| discriminate].
    destruct (String.eqb rettype ("isl::" ++ super)); cbn [negb].
    + destruct (type2cpp_class clazz) as [sub | e]; cbn [rbind];
        [| discriminate].
      intros H. inversion H; subst. split; [reflexivity |].
      intros sub' Hs. inversion Hs; subst. reflexivity.
    + intros H. inversion H; subst. auto.
  - intros H. inversion H; subst. auto.
Qed.

Lemma function_kind_eqb_constructor kind :
  kind <> function_kind_constructor ->
  function_kind_eqb kind function_kind_constructor = false.
Proof. destruct kind; intros H; try reflexivity. contradiction. Qed.

Lemma read_only_print_method_header_method {G : generator} fuel clazz method
    fullname is_declaration kind :
  kind <> function_kind_constructor ->
  read_only
    (print_method_header fuel clazz method fullname is_declaration kind).
Proof.
  intros Hk. unfold print_method_header.
  rewrite (function_kind_eqb_constructor _ Hk). read_only_tac;
    apply read_only_header_params_loop.
Qed.

Lemma print_method_header_ok {G : generator} fuel (clazz : class_ref) method
    fullname is_declaration kind g g1 o :
  kind <> function_kind_constructor ->
  print_method_header fuel clazz method fullname is_declaration kind g
    = (g1, o, Ok tt) ->
  g1 = g /\
  exists rettype sub params,
    type2cpp (noexceptions g) (FunctionDecl.getReturnType method) = Ok rettype
    /\ type2cpp_class clazz = Ok sub
    /\ o = method_header_text is_declaration kind
             (synthesized_return_type clazz rettype sub) sub
             (rename_method (method_name clazz method)) params.
Proof.
  intros Hk H0.
  assert (Hg : g1 = g)
    by exact (read_only_run _ _ _ _ _
                (read_only_print_method_header_method fuel clazz method
                   fullname is_declaration kind Hk) H0).
  split; [exact Hg |]. subst g1.
  unfold print_method_header in H0. cbv zeta in H0.
  rewrite (function_kind_eqb_constructor _ Hk) in H0. cbn [negb] in H0.
  apply bind_ok in H0. destruct H0 as (g1 & o1 & rt & o2 & H1 & H0 & ->).
  apply type2cpp_m_ok in H1. destruct H1 as (-> & -> & Hrt).
  apply bind_ok in H0. destruct H0 as (g1 & o1 & sub & o3 & H1 & H0 & ->).
  apply lift_ok in H1. destruct H1 as (-> & -> & Hsub).
  apply bind_ok in H0. destruct H0 as (g1 & D & [] & o4 & HD & H0 & ->).
  apply bind_ok in H0. destruct H0 as (g2 & o1 & [b rt'] & o5 & H1 & H0 & ->).
  apply lift_ok in H1. destruct H1 as (-> & -> & Hs).
  apply super2sub_ok in Hs. destruct Hs as [_ Hs]. specialize (Hs sub Hsub).
  apply bind_ok in H0. destruct H0 as (g2 & o1 & [] & o6 & H1 & H0 & ->).
  apply osprintf_ok in H1. destruct H1 as (-> & ->).
  apply bind_ok in H0. destruct H0 as (g2 & C & [] & o7 & HC & H0 & ->).
  apply bind_ok in H0. destruct H0 as (g3 & o1 & [] & o8 & H1 & H0 & ->).
  apply osprintf_ok in H1. destruct H1 as (-> & ->).
  apply bind_ok in H0. destruct H0 as (g3 & o1 & [] & o9 & H1 & H0 & ->).
  apply osprintf_ok in H1. destruct H1 as (-> & ->).
  apply bind_ok in H0. destruct H0 as (g3 & P & [] & o10 & HP & H0 & ->).
  apply bind_ok in H0. destruct H0 as (g4 & o1 & [] & o11 & H1 & H0 & ->).
  apply osprintf_ok in H1. destruct H1 as (-> & ->).
  apply bind_ok in H0. destruct H0 as (g4 & K & [] & o12 & HK & H0 & ->).
  apply bind_ok in H0. destruct H0 as (g5 & S & [] & o13 & HS & H0 & ->).
  apply osprintf_ok in H0. destruct H0 as (_ & ->).
  exists rt, sub, P. split; [exact Hrt |]. split; [exact Hsub |].
  subst rt'.
  assert (ED : D = if is_declaration then
                     ("  "
                      ++ (if function_kind_eqb kind function_kind_static_method
                          then "static " else "")
                      ++ "inline ")%string
                   else "").
  { destruct is_declaration.
    - revert HD. run.
      destruct (function_kind_eqb kind function_kind_static_method);
        intros HD; injection HD as _ <-; text_eq.
    - injection HD as _ <-. reflexivity. }
  assert (EC : C = if is_declaration then "" else (sub ++ "::")%string).
  { destruct is_declaration; cbn [negb] in HC; injection HC as _ <-;
      reflexivity. }
  assert (EK : K = if function_kind_eqb kind function_kind_member_method
                   then " const" else "").
  { destruct (function_kind_eqb kind function_kind_member_method);
      injection HK as _ <-; reflexivity. }
  assert (ES : S = if is_declaration then ";" else "").
  { destruct is_declaration; injection HS as _ <-; reflexivity. }
  subst D C K S. unfold method_header_text.
  destruct is_declaration;
    destruct (function_kind_eqb kind function_kind_static_method);
    destruct (function_kind_eqb kind function_kind_member_method); text_eq.
Qed.

Lemma print_method_return_object {G : generator} method kind (clazz : class_ref)
    rettype sub has_callback g :
  kind <> function_kind_constructor ->
  is_isl_type (FunctionDecl.getReturnType method) = true ->
  print_method_return method kind
    (synthesized_return_type clazz rettype sub) (narrows clazz rettype)
    has_callback g
  = (g, return_object clazz rettype sub, Ok tt).
Proof.
  intros Hk Ht. unfold print_method_return, read. cbv zeta.
  erewrite bind_run by reflexivity.
  rewrite (function_kind_eqb_constructor _ Hk), Ht. cbn [orb].
  unfold return_object. destruct (narrows clazz rettype); reflexivity.
Qed.

(** *** Downcasts *)

#[export] Hint Unfold isa_text as_text downcast_decl_text : text.

Lemma print_downcast_decl_run {G : generator} (clazz : class_ref) g :
  print_downcast_decl clazz g
  = (g, match isl_class.fn_type clazz with
        | Some _ => downcast_decl_text (noexceptions g)
        | None => ""
        end, Ok tt).
Proof.
  unfold print_downcast_decl, isl_bool2cpp_m, read.
  destruct (isl_class.fn_type clazz); [| reflexivity].
  run. text_eq.
Qed.

Lemma print_downcast_impl_run {G : generator} (clazz : class_ref) g cppname :
  type2cpp_class clazz = Ok cppname ->
  print_downcast_impl clazz g
  = match isl_class.fn_type clazz with
    | Some fn_type =>
        (g, (isa_text (noexceptions g) cppname (FunctionDecl.getName fn_type)
             ++ as_text (noexceptions g) cppname)%string, Ok true)
    | None => (g, "", Ok false)
    end.
Proof.
  intros Hc. unfold print_downcast_impl, isl_bool2cpp_m, read. rewrite Hc.
  destruct (isl_class.fn_type clazz) as [fn_type |]; [| reflexivity].
  unfold print_throw_NULL_input.
  destruct (noexceptions g) eqn:Hn; run; rewrite ?Hn; text_eq.
Qed.

(** *** The class map *)

Lemma map_find_insert m k c k' :
  map_find m k = None ->
  map_find (map_insert m k c) k'
  = if String.eqb k' k then Some c else map_find m k'.
Proof.
  induction m as [| [k0 c0] m IH]; simpl; intros Hk.
  - reflexivity.
  - destruct (String.eqb k k0) eqn:E0; [discriminate |].
    destruct (String.compare k k0); simpl.
    + reflexivity.
    + reflexivity.
    + rewrite IH by exact Hk.
      destruct (String.eqb k' k0) eqn:E1; [| reflexivity].
      apply String.eqb_eq in E1. subst k0.
      rewrite String.eqb_sym, E0. reflexivity.
Qed.

Lemma class_at_index m k k' : class_at (map_index m k) k' = class_at m k'.
Proof.
  unfold class_at, map_index. destruct (map_find m k) eqn:Hk; [reflexivity |].
  rewrite map_find_insert by exact Hk.
  destruct (String.eqb k' k) eqn:E; [| reflexivity].
  apply String.eqb_eq in E. subst k'. rewrite Hk. reflexivity.
Qed.

Lemma map_grows_trans m1 m2 m3 :
  map_grows m1 m2 -> map_grows m2 m3 -> map_grows m1 m3.
Proof.
  intros H12 H23. induction H23.
  - exact H12.
  - apply map_grows_step. apply IHmap_grows. exact H12.
Qed.

Lemma class_at_grows m m' k : map_grows m m' -> class_at m' k = class_at m k.
Proof.
  induction 1.
  - reflexivity.
  - rewrite class_at_index. exact IHmap_grows.
Qed.

Lemma grows_refl g : grows g g.
Proof. split; [reflexivity | apply map_grows_refl]. Qed.

Lemma grows_trans g1 g2 g3 : grows g1 g2 -> grows g2 g3 -> grows g1 g3.
Proof.
  intros [N12 M12] [N23 M23]. split.
  - congruence.
  - eapply map_grows_trans; eassumption.
Qed.

Lemma classes_index_run k g :
  classes_index k g
  = (mk_gen (noexceptions g) (map_index (classes g) k), "",
     Ok (ref_at (classes g) k)).
Proof. reflexivity. Qed.

Lemma grows_index g k :
  grows g (mk_gen (noexceptions g) (map_index (classes g) k)).
Proof.
  split; [reflexivity |]. simpl. apply map_grows_step. apply map_grows_refl.
Qed.

(** *** The work list of [is_subclass] *)

Section Worklist.
Context {G : generator}.
Variable m : class_map.
Variable target : class_ref.

Lemma ref_at_later g k : later m g -> ref_at (classes g) k = ref_at m k.
Proof.
  intros H. unfold ref_at. rewrite (class_at_grows _ _ k H). reflexivity.
Qed.

Lemma push_superclasses_run superclasses : forall parents g,
  later m g ->
  exists g',
    push_superclasses superclasses (map (ref_at m) parents) g
    = (g', "", Ok (map (ref_at m) (rev superclasses ++ parents)%list))
    /\ grows g g' /\ later m g'.
Proof.
  induction superclasses as [| ci rest IH]; intros parents g Hg; simpl.
  - exists g. split; [reflexivity |]. split; [apply grows_refl | exact Hg].
  - erewrite bind_run by apply classes_index_run.
    rewrite (ref_at_later _ _ Hg).
    set (g1 := mk_gen (noexceptions g) (map_index (classes g) ci)).
    assert (Hg1 : later m g1) by (apply map_grows_step; exact Hg).
    destruct (IH (ci :: parents) g1 Hg1) as (g' & E & Hgr & Hl).
    simpl map in E. rewrite E. exists g'.
    split; [| split; [| exact Hl]].
    + unfold state_of, text_of, value_of. simpl.
      rewrite <- app_assoc. reflexivity.
    + eapply grows_trans; [apply grows_index | exact Hgr].
Qed.

Lemma is_subclass_loop_run n : forall parents g,
  later m g ->
  exists g',
    is_subclass_loop n target (map (ref_at m) parents) g
    = (g', "", worklist_result (worklist m n (addr target) parents))
    /\ grows g g' /\ later m g'.
Proof.
  induction n as [| n IH]; intros parents g Hg.
  - destruct parents as [| candidate parents]; simpl;
      exists g; (split; [reflexivity |]);
      (split; [apply grows_refl | exact Hg]).
  - destruct parents as [| candidate parents]; simpl.
    + exists g. split; [reflexivity |]. split; [apply grows_refl | exact Hg].
    + destruct (String.eqb (addr target) candidate).
      * exists g. split; [reflexivity |].
        split; [apply grows_refl | exact Hg].
      * destruct (push_superclasses_run
                    (find_superclasses (isl_class.type (class_at m candidate)))
                    parents g Hg) as (g1 & E1 & Hgr1 & Hl1).
        erewrite bind_run by exact E1.
        destruct (IH (rev (superclasses_of m candidate) ++ parents)%list g1 Hl1)
          as (g' & E & Hgr & Hl).
        unfold superclasses_of in E. rewrite E. exists g'.
        split; [reflexivity |].
        split; [eapply grows_trans; eassumption | exact Hl].
Qed.

(** More fuel does not change an answer. *)
Lemma worklist_more n : forall parents b d,
  worklist m n (addr target) parents = Some b ->
  worklist m (n + d) (addr target) parents = Some b.
Proof.
  induction n as [| n IH]; intros parents b d H.
  - destruct parents; simpl in H; [| discriminate].
    destruct d; exact H.
  - destruct parents as [| candidate parents]; simpl in *; [exact H |].
    destruct (String.eqb (addr target) candidate); [exact H |].
    apply IH. exact H.
Qed.

Lemma reaches_step k :
  reaches m (addr target) k <->
  k = addr target
  \/ exists k1, In k1 (superclasses_of m k) /\ reaches m (addr target) k1.
Proof.
  unfold reaches. split.
  - intros [H | H]; [left; exact H | right].
    inversion H; subst.
    + exists (addr target). auto.
    + exists k1. auto.
  - intros [H | (k1 & Hin & [-> | H])].
    + left. exact H.
    + right. apply subclass_direct. exact Hin.
    + right. eapply subclass_step; eassumption.
Qed.

Lemma worklist_true n : forall parents,
  worklist m n (addr target) parents = Some true ->
  exists k, In k parents /\ reaches m (addr target) k.
Proof.
  induction n as [| n IH]; intros parents H.
  - destruct parents; simpl in H; discriminate.
  - destruct parents as [| candidate parents]; simpl in H; [discriminate |].
    destruct (String.eqb (addr target) candidate) eqn:E.
    + apply String.eqb_eq in E. exists candidate. split; [left; reflexivity |].
      left. symmetry. exact E.
    + apply IH in H. destruct H as (k & Hin & Hk).
      apply in_app_or in Hin. destruct Hin as [Hin | Hin].
      * exists candidate. split; [left; reflexivity |].
        apply reaches_step. right. exists k.
        split; [apply in_rev; exact Hin | exact Hk].
      * exists k. split; [right; exact Hin | exact Hk].
Qed.

Lemma worklist_false n : forall parents,
  worklist m n (addr target) parents = Some false ->
  forall k, In k parents -> ~ reaches m (addr target) k.
Proof.
  induction n as [| n IH]; intros parents H k Hin.
  - destruct parents; [contradiction | discriminate].
  - destruct parents as [| candidate parents]; [contradiction |].
    simpl in H. destruct (String.eqb (addr target) candidate) eqn:E;
      [discriminate |].
    specialize (IH _ H). destruct Hin as [<- | Hin].
    + intros Hr. apply reaches_step in Hr.
      destruct Hr as [Hr | (k1 & Hin1 & Hr)].
      * apply String.eqb_neq in E. congruence.
      * apply (IH k1); [| exact Hr].
        apply in_or_app. left. apply -> in_rev. exact Hin1.
    + apply IH. apply in_or_app. right. exact Hin.
Qed.

Lemma answers_cons k :
  finite_ancestry m k ->
  forall parents,
    answers m (addr target) parents ->
    answers m (addr target) (k :: parents).
Proof.
  induction 1 as [k _ IH]. intros parents Hp.
  assert (Hs : forall l, (forall k', In k' l -> In k' (superclasses_of m k)) ->
                         answers m (addr target) (l ++ parents)%list).
  { induction l as [| k' l IHl]; intros Hl; simpl.
    - exact Hp.
    - apply IH; [apply Hl; left; reflexivity |].
      apply IHl. intros k'' Hin. apply Hl. right. exact Hin. }
  specialize (Hs (rev (superclasses_of m k))
                (fun k' Hin => proj2 (in_rev _ _) Hin)).
  destruct Hs as (n & b & Hn).
  destruct (String.eqb (addr target) k) eqn:E.
  - exists 1%nat, true. simpl. rewrite E. reflexivity.
  - exists (S n), b. simpl. rewrite E. exact Hn.
Qed.

Lemma answers_all parents :
  (forall k, In k parents -> finite_ancestry m k) ->
  answers m (addr target) parents.
Proof.
  induction parents as [| k parents IH]; intros H.
  - exists 0%nat, false. reflexivity.
  - apply answers_cons; [apply H; left; reflexivity |].
    apply IH. intros k' Hin. apply H. right. exact Hin.
Qed.

End Worklist.

(** *** Printers that print nothing *)

Lemma silent_ret {A} (a : A) : silent (ret a).
Proof. intros g. reflexivity. Qed.

Lemma silent_fail {A} e : silent (@fail A e).
Proof. intros g. reflexivity. Qed.

Lemma silent_lift {A} (r : result A) : silent (lift r).
Proof. intros g. reflexivity. Qed.

Lemma silent_read {A} (f : cpp_generator -> A) : silent (read f).
Proof. intros g. reflexivity. Qed.

Lemma silent_classes_index k : silent (classes_index k).
Proof. intros g. reflexivity. Qed.

Lemma silent_bind {A B} (m : M A) (f : A -> M B) :
  silent m -> (forall a, silent (f a)) -> silent (bind m f).
Proof.
  intros Hm Hf g. unfold bind. specialize (Hm g).
  destruct (m g) as [[g1 o1] [a | e]]; unfold text_of in *; simpl in *; subst.
  - specialize (Hf a g1). destruct (f a g1) as [[g2 o2] r]. exact Hf.
  - reflexivity.
Qed.

Lemma silent_run {A} (m : M A) g g1 o r :
  silent m -> m g = (g1, o, r) -> o = "".
Proof. intros H E. specialize (H g). rewrite E in H. exact H. Qed.

Section Classification.
Context {G : generator}.

Lemma silent_push_superclasses superclasses : forall parents,
  silent (push_superclasses superclasses parents).
Proof.
  induction superclasses as [| ci rest IH]; intros parents; simpl.
  - apply silent_ret.
  - apply silent_bind; [apply silent_classes_index | intros c; apply IH].
Qed.

Lemma silent_is_subclass_loop class_type n : forall parents,
  silent (is_subclass_loop n class_type parents).
Proof.
  induction n as [| n IH]; intros [| candidate parents]; simpl;
    try apply silent_ret; try apply silent_fail.
  destruct (String.eqb (addr class_type) (addr candidate)).
  - apply silent_ret.
  - apply silent_bind; [apply silent_push_superclasses | intros p; apply IH].
Qed.

Lemma silent_is_subclass fuel type class_type :
  silent (is_subclass fuel type class_type).
Proof.
  unfold is_subclass.
  apply silent_bind; [apply silent_lift | intros pointee].
  apply silent_bind; [apply silent_classes_index | intros c].
  apply silent_bind; [apply silent_push_superclasses | intros p].
  apply silent_is_subclass_loop.
Qed.

Lemma silent_is_implicit_conversion fuel clazz cons :
  silent (is_implicit_conversion fuel clazz cons).
Proof.
  unfold is_implicit_conversion.
  apply silent_bind; [apply silent_lift | intros param]. cbv zeta.
  destruct (negb (FunctionDecl.getNumParams cons =? 1)%Z);
    [apply silent_ret |].
  destruct (is_isl_type (ParmVarDecl.getOriginalType param)
            && negb (is_isl_ctx (ParmVarDecl.getOriginalType param)));
    [| apply silent_ret].
  apply silent_bind; [apply silent_is_subclass | intros [|]; apply silent_ret].
Qed.

Lemma is_subclass_of_superclass m k target :
  is_subclass_of m k target <->
  exists k1, In k1 (superclasses_of m k) /\ reaches m target k1.
Proof.
  unfold reaches. split.
  - intros H. inversion H; subst.
    + exists target. auto.
    + exists k1. auto.
  - intros (k1 & Hin & [-> | H]).
    + apply subclass_direct. exact Hin.
    + eapply subclass_step; eassumption.
Qed.

(** With fuel enough, [is_subclass] decides the subclass relation. *)
Lemma is_subclass_decides (g : cpp_generator) (class_type : class_ref) type
    pointee :
  QualType.getPointeeType type = Some pointee ->
  finite_ancestry (classes g) (QualType.getAsString pointee) ->
  exists fuel0 b,
    (b = true <->
     is_subclass_of (classes g) (QualType.getAsString pointee)
       (addr class_type))
    /\ forall fuel, (fuel0 <= fuel)%nat ->
         exists g', is_subclass fuel type class_type g = (g', "", Ok b)
                    /\ grows g g'.
Proof.
  intros Hp Hfin. set (m := classes g). set (k := QualType.getAsString pointee).
  fold m k in Hfin.
  assert (Hsup : forall k', In k' (rev (superclasses_of m k) ++ [])%list ->
                            finite_ancestry m k').
  { intros k' Hin. rewrite app_nil_r in Hin. apply in_rev in Hin.
    inversion Hfin; subst. auto. }
  destruct (answers_all m class_type _ Hsup) as (fuel0 & b & Hb).
  exists fuel0, b. split.
  - split.
    + intros ->. apply worklist_true in Hb. destruct Hb as (k1 & Hin & Hr).
      rewrite app_nil_r in Hin. apply in_rev in Hin.
      apply is_subclass_of_superclass. eauto.
    + intros Hs. destruct b; [reflexivity | exfalso].
      apply is_subclass_of_superclass in Hs. destruct Hs as (k1 & Hin & Hr).
      refine (worklist_false m class_type _ _ Hb k1 _ Hr).
      rewrite app_nil_r. apply -> in_rev. exact Hin.
  - intros fuel Hfuel. unfold is_subclass. rewrite Hp.
    unfold lift, expect. erewrite bind_run by reflexivity.
    erewrite bind_run by apply classes_index_run.
    set (g1 := mk_gen (noexceptions g) (map_index (classes g) k)).
    assert (Hl1 : later m g1)
      by (apply map_grows_step; apply map_grows_refl).
    destruct (push_superclasses_run m (superclasses_of m k) [] g1 Hl1)
      as (g2 & E2 & Hgr2 & Hl2).
    simpl map in E2 at 1. erewrite bind_run by exact E2.
    destruct (is_subclass_loop_run m class_type fuel
                (rev (superclasses_of m k) ++ [])%list g2 Hl2)
      as (g' & E & Hgr & Hl).
    rewrite E. exists g'.
    replace fuel with (fuel0 + (fuel - fuel0))%nat by lia.
    rewrite (worklist_more m class_type fuel0 _ b _ Hb).
    split; [reflexivity |].
    eapply grows_trans; [apply grows_index |].
    eapply grows_trans; eassumption.
Qed.

End Classification.

#[export] Hint Unfold constructor_decl_text : text.

Section ConstructorDecl.
Context {G : generator}.

Lemma is_implicit_conversion_decides (g : cpp_generator) (clazz : class_ref)
    cons param rest :
  FunctionDecl.params cons = param :: rest ->
  ancestry_known (classes g) param ->
  exists fuel0 b,
    (b = true <-> converts_from_subclass (classes g) (addr clazz) cons)
    /\ forall fuel, (fuel0 <= fuel)%nat ->
         exists g',
           is_implicit_conversion fuel clazz cons g = (g', "", Ok b)
           /\ grows g g'.
Proof.
  intros Hp Hknown. unfold ancestry_known in Hknown. cbv zeta in Hknown.
  unfold is_implicit_conversion, getParamDecl, FunctionDecl.getNumParams.
  rewrite Hp. cbn [nth_error expect].
  assert (L : forall fuel g0,
            bind (lift (Ok param))
              (fun param0 =>
                 let type := ParmVarDecl.getOriginalType param0 in
                 let num_params := Z.of_nat (List.length (param :: rest)) in
                 if negb (num_params =? 1)%Z then ret false
                 else if is_isl_type type && negb (is_isl_ctx type) then
                   bind (is_subclass fuel type clazz)
                     (fun sub => if sub then ret true else ret false)
                 else ret false) g0
            = (let type := ParmVarDecl.getOriginalType param in
               let num_params := Z.of_nat (List.length (param :: rest)) in
               if negb (num_params =? 1)%Z then ret false
               else if is_isl_type type && negb (is_isl_ctx type) then
                 bind (is_subclass fuel type clazz)
                   (fun sub => if sub then ret true else ret false)
               else ret false) g0)
    by (intros; apply bind_lift).
  cbv zeta in L.
  destruct rest as [| p2 rest].
  - (* a single parameter *)
    destruct (is_isl_type (ParmVarDecl.getOriginalType param)) eqn:Ht;
      [destruct (is_isl_ctx (ParmVarDecl.getOriginalType param)) eqn:Hc |];
      cbn [andb negb].
    + exists 0%nat, false. split.
      * split; [discriminate |].
        intros (p & q & Hq & _ & Hc' & _). rewrite Hp in Hq.
        injection Hq as <-. congruence.
      * intros fuel _. exists g. split; [| apply grows_refl].
        rewrite L.
        cbn [List.length Z.of_nat Pos.of_succ_nat Z.eqb Pos.eqb negb].
        rewrite ?Ht, ?Hc. reflexivity.
    + destruct (Hknown eq_refl eq_refl) as (pointee & Hpt & Hfin).
      destruct (is_subclass_decides g clazz _ _ Hpt Hfin)
        as (fuel0 & b & Hb & Hrun).
      exists fuel0, b. split.
      * rewrite Hb. split.
        -- intros Hs. exists param, pointee. auto.
        -- intros (p & q & Hq & _ & _ & Hq' & Hs). rewrite Hp in Hq.
           injection Hq as <-. rewrite Hpt in Hq'. injection Hq' as <-.
           exact Hs.
      * intros fuel Hfuel. destruct (Hrun fuel Hfuel) as (g' & E & Hgr).
        exists g'. split; [| exact Hgr].
        rewrite L.
        cbn [List.length Z.of_nat Pos.of_succ_nat Z.eqb Pos.eqb negb].
        rewrite ?Ht, ?Hc. cbn [andb negb].
        erewrite bind_run by exact E. destruct b; reflexivity.
    + exists 0%nat, false. split.
      * split; [discriminate |].
        intros (p & q & Hq & Ht' & _). rewrite Hp in Hq.
        injection Hq as <-. congruence.
      * intros fuel _. exists g. split; [| apply grows_refl].
        rewrite L.
        cbn [List.length Z.of_nat Pos.of_succ_nat Z.eqb Pos.eqb negb].
        rewrite ?Ht. reflexivity.
  - (* more than one parameter *)
    exists 0%nat, false. split.
    + split; [discriminate |].
      intros (p & q & Hq & _). rewrite Hp in Hq. discriminate.
    + intros fuel _. exists g. split; [| apply grows_refl].
      rewrite L.
      replace (Z.of_nat (List.length (param :: p2 :: rest)) =? 1)%Z
        with false; [reflexivity |].
      symmetry. apply Z.eqb_neq. simpl List.length. lia.
Qed.

Lemma constructor_decl_ok fuel (clazz : class_ref) cons fullname g g2 o :
  print_method_header fuel clazz cons fullname true function_kind_constructor
    g = (g2, o, Ok tt) ->
  exists g1 b classname params,
    is_implicit_conversion fuel clazz cons g = (g1, "", Ok b)
    /\ type2cpp_class clazz = Ok classname
    /\ o = constructor_decl_text b classname params.
Proof.
  unfold print_method_header. cbv zeta.
  cbn [function_kind_eqb negb]. intros H0. run_inv.
  match goal with
  | H : is_implicit_conversion _ _ _ _ = (?g1, ?o1, Ok ?b) |- _ =>
      pose proof (silent_run _ _ _ _ _
                    (silent_is_implicit_conversion fuel clazz cons) H);
      subst o1;
      match goal with
      | Hp : header_params_loop _ _ _ _ = (_, ?P, _),
        Hc : type2cpp_class _ = Ok ?sub |- _ =>
          exists g1, b, sub, P; split; [exact H |]; split; [exact Hc |]
      end
  end.
  text_eq.
Qed.

End ConstructorDecl.

(** *** Printers that at most evaluate [classes[k]] *)

Lemma monotone_read_only {A} (m : M A) : read_only m -> monotone m.
Proof. intros H g. rewrite H. apply grows_refl. Qed.

Lemma monotone_bind {A B} (m : M A) (f : A -> M B) :
  monotone m -> (forall a, monotone (f a)) -> monotone (bind m f).
Proof.
  intros Hm Hf g. unfold bind. specialize (Hm g).
  destruct (m g) as [[g1 o1] [a | e]]; unfold state_of in *; simpl in *.
  - specialize (Hf a g1). destruct (f a g1) as [[g2 o2] r]. simpl in *.
    eapply grows_trans; eassumption.
  - exact Hm.
Qed.

Lemma monotone_classes_index k : monotone (classes_index k).
Proof. intros g. apply grows_index. Qed.

Lemma monotone_for_list {A S} (l : list A) (body : A -> S -> M S) s :
  (forall x s, monotone (body x s)) -> monotone (for_list l body s).
Proof.
  intros Hb. revert s. induction l as [| x l IH]; intros s; simpl.
  - apply monotone_read_only, read_only_ret.
  - apply monotone_bind; [apply Hb | intros s'; apply IH].
Qed.

Section Monotone.
Context {G : generator}.
Variable fuel : nat.

Lemma read_only_iterator_deref k : read_only (iterator_deref k).
Proof. intros g. reflexivity. Qed.

Lemma monotone_classes_loop {A} (body : class_ref -> A -> M A) n :
  (forall clazz a, monotone (body clazz a)) ->
  forall ci a, monotone (classes_loop n body ci a).
Proof.
  intros Hb. induction n as [| n IH]; intros [k |] a; simpl;
    try (apply monotone_read_only; first [apply read_only_ret
                                         | apply read_only_fail]).
  apply monotone_bind;
    [apply monotone_read_only, read_only_iterator_deref | intros clazz].
  apply monotone_bind; [apply Hb | intros a'].
  apply monotone_bind; [apply monotone_read_only, read_only_read | intros ci'].
  apply IH.
Qed.

Lemma monotone_for_classes {A} (body : class_ref -> A -> M A) a :
  (forall clazz a, monotone (body clazz a)) ->
  monotone (for_classes fuel body a).
Proof.
  intros Hb. unfold for_classes.
  apply monotone_bind; [apply monotone_read_only, read_only_read | intros ci].
  apply monotone_classes_loop. exact Hb.
Qed.

Lemma monotone_push_superclasses superclasses : forall parents,
  monotone (push_superclasses superclasses parents).
Proof.
  induction superclasses as [| ci rest IH]; intros parents; simpl.
  - apply monotone_read_only, read_only_ret.
  - apply monotone_bind; [apply monotone_classes_index | intros c; apply IH].
Qed.

Lemma monotone_is_subclass_loop class_type n : forall parents,
  monotone (is_subclass_loop n class_type parents).
Proof.
  induction n as [| n IH]; intros [| candidate parents]; simpl;
    try (apply monotone_read_only; first [apply read_only_ret
                                         | apply read_only_fail]).
  destruct (String.eqb (addr class_type) (addr candidate)).
  - apply monotone_read_only, read_only_ret.
  - apply monotone_bind; [apply monotone_push_superclasses | intros p].
    apply IH.
Qed.

Lemma monotone_is_subclass type class_type :
  monotone (is_subclass fuel type class_type).
Proof.
  unfold is_subclass.
  apply monotone_bind; [apply monotone_read_only, read_only_lift |].
  intros pointee.
  apply monotone_bind; [apply monotone_classes_index | intros c].
  apply monotone_bind; [apply monotone_push_superclasses | intros p].
  apply monotone_is_subclass_loop.
Qed.

Lemma monotone_is_implicit_conversion clazz cons :
  monotone (is_implicit_conversion fuel clazz cons).
Proof.
  unfold is_implicit_conversion.
  apply monotone_bind; [apply monotone_read_only, read_only_lift |].
  intros param. cbv zeta.
  destruct (negb (FunctionDecl.getNumParams cons =? 1)%Z);
    [apply monotone_read_only, read_only_ret |].
  destruct (is_isl_type (ParmVarDecl.getOriginalType param)
            && negb (is_isl_ctx (ParmVarDecl.getOriginalType param)));
    [| apply monotone_read_only, read_only_ret].
  apply monotone_bind; [apply monotone_is_subclass |].
  intros [|]; apply monotone_read_only, read_only_ret.
Qed.

Lemma monotone_print_method_header clazz method fullname is_declaration kind :
  monotone
    (print_method_header fuel clazz method fullname is_declaration kind).
Proof.
  destruct kind;
    try (apply monotone_read_only, read_only_print_method_header_method;
         discriminate).
  destruct is_declaration;
    [| apply monotone_read_only, read_only_print_method_header].
  unfold print_method_header. cbv zeta. cbn [function_kind_eqb negb].
  apply monotone_bind;
    [apply monotone_read_only, read_only_type2cpp_m | intros rt].
  apply monotone_bind; [apply monotone_read_only, read_only_lift | intros c].
  apply monotone_bind.
  - apply monotone_bind;
      [apply monotone_read_only, read_only_osprintf | intros _].
    apply monotone_bind; [apply monotone_read_only, read_only_ret | intros _].
    apply monotone_bind;
      [apply monotone_read_only, read_only_osprintf | intros _].
    apply monotone_bind; [apply monotone_is_implicit_conversion |].
    intros [|]; apply monotone_read_only, read_only_osprintf.
  - intros _. apply monotone_read_only. read_only_tac.
    apply read_only_header_params_loop.
Qed.

Lemma read_only_print_subclass_type clazz :
  read_only (print_subclass_type clazz).
Proof.
  unfold print_subclass_type. read_only_tac.
Qed.

Lemma read_only_print_class_factory_decl clazz prefix :
  read_only (print_class_factory_decl clazz prefix).
Proof. unfold print_class_factory_decl. read_only_tac. Qed.

Lemma read_only_print_protected_constructors_decl clazz :
  read_only (print_protected_constructors_decl clazz).
Proof. unfold print_protected_constructors_decl. read_only_tac. Qed.

Lemma read_only_print_public_constructors_decl clazz :
  read_only (print_public_constructors_decl clazz).
Proof. unfold print_public_constructors_decl. read_only_tac. Qed.

Lemma read_only_print_copy_assignment_decl clazz :
  read_only (print_copy_assignment_decl clazz).
Proof. unfold print_copy_assignment_decl. read_only_tac. Qed.

Lemma read_only_print_destructor_decl clazz :
  read_only (print_destructor_decl clazz).
Proof. unfold print_destructor_decl. read_only_tac. Qed.

Lemma read_only_print_ptr_decl clazz : read_only (print_ptr_decl clazz).
Proof. unfold print_ptr_decl. read_only_tac. Qed.

Lemma read_only_print_downcast_decl clazz :
  read_only (print_downcast_decl clazz).
Proof.
  unfold print_downcast_decl. read_only_tac.
Qed.

Lemma read_only_print_get_ctx_decl : read_only print_get_ctx_decl.
Proof. unfold print_get_ctx_decl. read_only_tac. Qed.

Lemma read_only_print_str_decl clazz : read_only (print_str_decl clazz).
Proof. unfold print_str_decl. read_only_tac. Qed.

Lemma read_only_print_methods_decl clazz :
  read_only (print_methods_decl fuel clazz).
Proof.
  unfold print_methods_decl, print_method_group_decl, print_method_decl.
  apply read_only_for_each. intros it. apply read_only_for_each.
  intros method. cbv zeta. apply read_only_print_method_header_method.
  unfold get_method_kind. destruct (is_static clazz method); discriminate.
Qed.

Lemma monotone_print_constructors_decl clazz :
  monotone (print_constructors_decl fuel clazz).
Proof.
  unfold print_constructors_decl, print_method_decl, for_each.
  apply monotone_for_list. intros cons _. cbv zeta.
  apply monotone_print_method_header.
Qed.

Lemma monotone_print_class clazz : monotone (print_class fuel clazz).
Proof.
  unfold print_class. cbv zeta.
  repeat first
    [ apply monotone_print_constructors_decl
    | apply monotone_read_only;
      first [ apply read_only_lift | apply read_only_osprintf
            | apply read_only_ret
            | apply read_only_print_class_factory_decl
            | apply read_only_print_subclass_type
            | apply read_only_print_protected_constructors_decl
            | apply read_only_print_public_constructors_decl
            | apply read_only_print_copy_assignment_decl
            | apply read_only_print_destructor_decl
            | apply read_only_print_ptr_decl
            | apply read_only_print_downcast_decl
            | apply read_only_print_get_ctx_decl
            | apply read_only_print_str_decl
            | apply read_only_print_methods_decl ]
    | apply monotone_bind; [| intros ?]
    | match goal with
      | |- monotone (if ?b then _ else _) => destruct b
      end ].
Qed.

Lemma monotone_print_declarations : monotone (print_declarations fuel).
Proof.
  unfold print_declarations.
  apply monotone_bind; [| intros _; apply monotone_read_only, read_only_ret].
  apply monotone_for_classes. intros clazz first.
  apply monotone_bind;
    [destruct first; apply monotone_read_only;
     [apply read_only_ret | apply read_only_osprintf] | intros _].
  apply monotone_bind; [apply monotone_print_class | intros _].
  apply monotone_read_only, read_only_ret.
Qed.

End Monotone.

(** *** The order of the class map *)

Lemma compare_lt_trans a b c :
  String.compare a b = Lt -> String.compare b c = Lt ->
  String.compare a c = Lt.
Proof.
  intros H1 H2. apply String_as_OT.cmp_lt.
  apply String_as_OT.cmp_lt in H1, H2.
  eapply String_as_OT.lt_trans; eassumption.
Qed.

Lemma compare_refl a : String.compare a a = Eq.
Proof. apply String_as_OT.cmp_eq. reflexivity. Qed.

Lemma key_ltb_lt a b : key_ltb a b = true <-> String.compare a b = Lt.
Proof.
  unfold key_ltb. destruct (String.compare a b); split; congruence.
Qed.

Lemma key_ltb_neq a b : key_ltb a b = true -> String.eqb a b = false.
Proof.
  intros H. apply key_ltb_lt in H. apply String.eqb_neq. intros ->.
  rewrite compare_refl in H. discriminate.
Qed.

Lemma key_ltb_gt a b : key_ltb a b = true -> String.compare b a = Gt.
Proof.
  intros H. apply key_ltb_lt in H. rewrite String.compare_antisym, H.
  reflexivity.
Qed.

Lemma keys_above_trans a b m :
  key_ltb a b = true -> keys_above b m = true -> keys_above a m = true.
Proof.
  unfold keys_above. intros Hab H. rewrite forallb_forall in *.
  intros kc Hin. specialize (H kc Hin). apply key_ltb_lt.
  apply key_ltb_lt in Hab, H. eapply compare_lt_trans; eassumption.
Qed.

Lemma keys_above_find k m : keys_above k m = true -> map_find m k = None.
Proof.
  induction m as [| [k' c'] m IH]; simpl; intros H; [reflexivity |].
  apply andb_prop in H. destruct H as [H1 H2]. simpl in H1.
  rewrite (key_ltb_neq _ _ H1). apply IH. exact H2.
Qed.

Lemma keys_above_next k m : keys_above k m = true -> map_next m k = map_begin m.
Proof.
  destruct m as [| [k' c'] m]; simpl; intros H; [reflexivity |].
  apply andb_prop in H. destruct H as [H1 _]. simpl in H1.
  apply key_ltb_lt in H1. rewrite H1. reflexivity.
Qed.

(** An entry of a sorted map, seen from the entries before it. *)
Lemma keys_sorted_middle pre : forall k c post,
  keys_sorted (pre ++ (k, c) :: post)%list = true ->
  map_find (pre ++ (k, c) :: post)%list k = Some c
  /\ map_next (pre ++ (k, c) :: post)%list k = map_begin post.
Proof.
  induction pre as [| [k0 c0] pre IH]; intros k c post H; simpl in H |- *.
  - apply andb_prop in H. destruct H as [H1 _].
    rewrite String.eqb_refl, compare_refl.
    split; [reflexivity | apply keys_above_next; exact H1].
  - apply andb_prop in H. destruct H as [H1 H2].
    assert (Hlt : key_ltb k0 k = true).
    { unfold keys_above in H1. rewrite forallb_forall in H1.
      apply (H1 (k, c)). apply in_or_app. right. left. reflexivity. }
    rewrite String.eqb_sym, (key_ltb_neq _ _ Hlt), (key_ltb_gt _ _ Hlt).
    apply IH. exact H2.
Qed.

Lemma keys_sorted_app pre post :
  keys_sorted (pre ++ post)%list = true -> keys_sorted post = true.
Proof.
  induction pre as [| [k c] pre IH]; simpl; intros H; [exact H |].
  apply andb_prop in H. apply IH. apply H.
Qed.

Lemma keys_above_insert k0 m k c :
  key_ltb k0 k = true -> keys_above k0 m = true ->
  keys_above k0 (map_insert m k c) = true.
Proof.
  intros Hk. induction m as [| [k' c'] m IH]; simpl; intros H.
  - rewrite Hk. reflexivity.
  - apply andb_prop in H. destruct H as [H1 H2]. simpl in H1.
    destruct (String.compare k k'); simpl; rewrite ?Hk, ?H1, ?H2, ?IH; auto.
Qed.

Lemma keys_sorted_insert m k c :
  keys_sorted m = true -> map_find m k = None ->
  keys_sorted (map_insert m k c) = true.
Proof.
  induction m as [| [k' c'] m IH]; simpl; intros Hs Hf; [reflexivity |].
  apply andb_prop in Hs. destruct Hs as [H1 H2].
  destruct (String.eqb k k') eqn:E; [discriminate |].
  destruct (String.compare k k') eqn:Ec.
  - apply String.compare_eq_iff in Ec. apply String.eqb_neq in E. contradiction.
  - simpl. rewrite H1, H2.
    assert (Hlt : key_ltb k k' = true) by (apply key_ltb_lt; exact Ec).
    rewrite Hlt, (keys_above_trans _ _ _ Hlt H1). reflexivity.
  - simpl. rewrite IH by assumption.
    rewrite keys_above_insert; [reflexivity | | exact H1].
    apply key_ltb_lt. rewrite String.compare_antisym, Ec. reflexivity.
Qed.

Lemma keys_sorted_index m k :
  keys_sorted m = true -> keys_sorted (map_index m k) = true.
Proof.
  intros H. unfold map_index. destruct (map_find m k) eqn:E; [exact H |].
  apply keys_sorted_insert; assumption.
Qed.

Lemma keys_sorted_grows m m' :
  map_grows m m' -> keys_sorted m = true -> keys_sorted m' = true.
Proof.
  induction 1; intros Hs; [exact Hs |].
  apply keys_sorted_index. apply IHmap_grows. exact Hs.
Qed.

(** *** How the class map grows *)

Lemma length_insert m k c :
  List.length (map_insert m k c) = S (List.length m).
Proof.
  induction m as [| [k' c'] m IH]; simpl; [reflexivity |].
  destruct (String.compare k k'); simpl; rewrite ?IH; reflexivity.
Qed.

Lemma in_insert m k c : In (k, c) (map_insert m k c).
Proof.
  induction m as [| [k' c'] m IH]; simpl; [left; reflexivity |].
  destruct (String.compare k k'); simpl; auto.
Qed.

Lemma in_insert_old m k c x : In x m -> In x (map_insert m k c).
Proof.
  induction m as [| [k' c'] m IH]; simpl; [contradiction |].
  intros [<- | H]; destruct (String.compare k k'); simpl; auto.
Qed.

Lemma length_grows m m' :
  map_grows m m' -> (List.length m <= List.length m')%nat.
Proof.
  induction 1; [lia |]. unfold map_index.
  destruct (map_find m' k); [exact IHmap_grows |].
  rewrite length_insert. lia.
Qed.

Lemma grows_same_length m m' :
  map_grows m m' -> List.length m' = List.length m -> m' = m.
Proof.
  induction 1; intros Hl; [reflexivity |].
  pose proof (length_grows _ _ H) as Hle.
  unfold map_index in *. destruct (map_find m' k).
  - apply IHmap_grows. exact Hl.
  - rewrite length_insert in Hl. lia.
Qed.

Lemma grows_default m m' :
  map_grows m m' -> m' = m \/ exists k, In (k, isl_class.default) m'.
Proof.
  induction 1; [left; reflexivity |].
  unfold map_index. destruct (map_find m' k) eqn:E; [exact IHmap_grows |].
  right. exists k. apply in_insert.
Qed.

Lemma grows_between g g1 g2 :
  grows g g1 -> grows g1 g2 -> classes g2 = classes g -> g1 = g.
Proof.
  intros [N1 M1] [N2 M2] Hc.
  pose proof (length_grows _ _ M1). pose proof (length_grows _ _ M2).
  rewrite Hc in *. assert (Hm : classes g1 = classes g)
    by (apply grows_same_length; [exact M1 | lia]).
  destruct g1, g; simpl in *; congruence.
Qed.

Lemma grows_same g g' : grows g g' -> classes g' = classes g -> g' = g.
Proof.
  intros H Hc. apply (grows_between g g' g'); [exact H | apply grows_refl |].
  exact Hc.
Qed.

(** *** The traversal of the class map *)

Section Traversal.
Context {G : generator}.
Context {A : Type}.
Variable body : class_ref -> A -> M A.
Hypothesis body_monotone : forall clazz a, monotone (body clazz a).

Lemma classes_loop_end n a : classes_loop n body None a = ret a.
Proof. destruct n; reflexivity. Qed.

(** A traversal that ends with the class map it started with has run
    its body once on every entry from the iterator on, in order, and
    never changed the generator object. *)
Lemma classes_loop_stable post : forall pre k c n a g g' out a',
  classes g = (pre ++ (k, c) :: post)%list ->
  keys_sorted (classes g) = true ->
  classes_loop n body (Some k) a g = (g', out, Ok a') ->
  classes g' = classes g ->
  g' = g /\ visits body g ((k, c) :: post) a out a'.
Proof.
  induction post as [| [k2 c2] post IH];
    intros pre k c n a g g' out a' Hm Hs Hrun Hsame.
  - destruct n as [| n]; [discriminate Hrun |]. simpl in Hrun.
    pose proof Hs as Hmid. rewrite Hm in Hmid.
    apply keys_sorted_middle in Hmid. destruct Hmid as [Hfind Hnext].
    rewrite <- Hm in Hfind, Hnext.
    apply bind_ok in Hrun.
    destruct Hrun as (g1 & o1 & clazz & o2 & H1 & Hrun & ->).
    unfold iterator_deref in H1. rewrite Hfind in H1.
    injection H1 as <- <- <-.
    apply bind_ok in Hrun.
    destruct Hrun as (g1 & o1 & a1 & o3 & Hbody & Hrun & ->).
    apply bind_ok in Hrun.
    destruct Hrun as (g2 & o4 & ci & o5 & H1 & Hrun & ->).
    apply read_ok in H1. destruct H1 as (-> & -> & ->).
    assert (Hg1 : grows g g1).
    { pose proof (body_monotone (mk_ref k c) a g) as Hg.
      rewrite Hbody in Hg. exact Hg. }
    assert (Hg' : grows g1 g').
    { pose proof (monotone_classes_loop body n body_monotone
                    (map_next (classes g1) k) a1 g1) as Hg.
      rewrite Hrun in Hg. exact Hg. }
    assert (g1 = g) by (eapply grows_between; eassumption). subst g1.
    rewrite Hnext in Hrun. simpl map_begin in Hrun.
    rewrite classes_loop_end in Hrun. injection Hrun as <- <- <-.
    split; [reflexivity |].
    replace ("" ++ o1 ++ "" ++ "")%string with (o1 ++ "")%string
      by (rewrite !append_nil_r; reflexivity).
    apply (visits_cons body g (k, c) [] a o1 a1 "" a1); [exact Hbody |].
    apply visits_nil.
  - destruct n as [| n]; [discriminate Hrun |]. simpl in Hrun.
    pose proof Hs as Hmid. rewrite Hm in Hmid.
    apply keys_sorted_middle in Hmid. destruct Hmid as [Hfind Hnext].
    rewrite <- Hm in Hfind, Hnext.
    apply bind_ok in Hrun.
    destruct Hrun as (g1 & o1 & clazz & o2 & H1 & Hrun & ->).
    unfold iterator_deref in H1. rewrite Hfind in H1.
    injection H1 as <- <- <-.
    apply bind_ok in Hrun.
    destruct Hrun as (g1 & o1 & a1 & o3 & Hbody & Hrun & ->).
    apply bind_ok in Hrun.
    destruct Hrun as (g2 & o4 & ci & o5 & H1 & Hrun & ->).
    apply read_ok in H1. destruct H1 as (-> & -> & ->).
    assert (Hg1 : grows g g1).
    { pose proof (body_monotone (mk_ref k c) a g) as Hg.
      rewrite Hbody in Hg. exact Hg. }
    assert (Hg' : grows g1 g').
    { pose proof (monotone_classes_loop body n body_monotone
                    (map_next (classes g1) k) a1 g1) as Hg.
      rewrite Hrun in Hg. exact Hg. }
    assert (g1 = g) by (eapply grows_between; eassumption). subst g1.
    rewrite Hnext in Hrun. simpl map_begin in Hrun.
    destruct (IH (pre ++ [(k, c)])%list k2 c2 n a1 g g' o5 a') as [-> Hv].
    + rewrite Hm, <- app_assoc. reflexivity.
    + exact Hs.
    + exact Hrun.
    + exact Hsame.
    + split; [reflexivity |].
      apply (visits_cons body g (k, c) ((k2, c2) :: post) a o1 a1 o5 a');
        assumption.
Qed.

Lemma for_classes_stable fuel a g g' out a' :
  keys_sorted (classes g) = true ->
  for_classes fuel body a g = (g', out, Ok a') ->
  classes g' = classes g ->
  g' = g /\ visits body g (classes g) a out a'.
Proof.
  intros Hs Hrun Hsame. unfold for_classes in Hrun.
  rewrite bind_read in Hrun.
  destruct (classes g) as [| [k c] post] eqn:Hm.
  - simpl map_begin in Hrun. rewrite classes_loop_end in Hrun.
    injection Hrun as <- <- <-. split; [reflexivity | apply visits_nil].
  - simpl map_begin in Hrun. rewrite <- Hm in Hsame, Hs.
    apply (classes_loop_stable post [] k c fuel a g g' out a' Hm Hs Hrun
             Hsame).
Qed.

Lemma visits_each g l : forall a out a',
  visits body g l a out a' ->
  forall kc, In kc l -> exists a0 o a1, body (ref_of kc) a0 g = (g, o, Ok a1).
Proof.
  induction l as [| kc0 l IH]; intros a out a' Hv kc Hin; [contradiction |].
  inversion Hv; subst. destruct Hin as [<- | Hin]; eauto.
Qed.

End Traversal.

(** *** The three passes over the classes *)

#[export] Hint Unfold forward_decl_text namespace_open namespace_close
  three_regions : text.

Lemma read_only_classes_loop {A} (body : class_ref -> A -> M A) n :
  (forall clazz a, read_only (body clazz a)) ->
  forall ci a, read_only (classes_loop n body ci a).
Proof.
  intros Hb. induction n as [| n IH]; intros [k |] a; simpl;
    try apply read_only_ret; try apply read_only_fail.
  apply read_only_bind; [intros g; reflexivity | intros clazz].
  apply read_only_bind; [apply Hb | intros a'].
  apply read_only_bind; [apply read_only_read | intros ci'].
  apply IH.
Qed.

Lemma read_only_for_classes {G : generator} {A} fuel
    (body : class_ref -> A -> M A) a :
  (forall clazz a, read_only (body clazz a)) ->
  read_only (for_classes fuel body a).
Proof.
  intros Hb. unfold for_classes.
  apply read_only_bind; [apply read_only_read | intros ci].
  apply read_only_classes_loop. exact Hb.
Qed.

Lemma visits_separated (P : class_ref -> M unit) g l :
  (forall clazz, monotone (P clazz)) ->
  forall first out b,
    visits (separated_body P) g l first out b ->
    exists texts,
      Forall2 (fun kc t => P (ref_of kc) g = (g, t, Ok tt)) l texts
      /\ out = if first then separated nl texts
               else concat_all (map (fun t => nl ++ t)%string texts).
Proof.
  intros HP. induction l as [| kc l IH]; intros first out b Hv;
    inversion Hv; subst.
  - exists []. split; [constructor |].
    match goal with |- _ = (if ?f then _ else _) => destruct f end;
      reflexivity.
  - match goal with
    | H : separated_body P _ _ _ = _ |- _ => rename H into Hbody
    end.
    unfold separated_body in Hbody. apply bind_ok in Hbody.
    destruct Hbody as (g1 & o1 & [] & o2 & Hsep & Hbody & ->).
    apply when_osprintf_ok' in Hsep. destruct Hsep as (-> & ->).
    apply bind_ok in Hbody.
    destruct Hbody as (g1 & t & [] & o3 & Ht & Hbody & ->).
    apply ret_ok in Hbody. destruct Hbody as (Hg & -> & ->). subst g1.
    match goal with
    | H : visits _ _ l _ _ _ |- _ =>
        apply IH in H; destruct H as (texts & HF & ->)
    end.
    exists (t :: texts). split; [constructor; assumption |].
    match goal with |- _ = (if ?f then _ else _) => destruct f end;
      simpl; text_eq.
Qed.

Lemma visits_forward_decl {G : generator} g l : forall out,
  visits (fun clazz (_ : unit) => print_class_forward_decl clazz) g l tt out
    tt ->
  exists names,
    Forall2 (fun kc n => type2cpp_class (snd kc) = Ok n) l names
    /\ out = concat_all (map forward_decl_text names).
Proof.
  induction l as [| kc l IH]; intros out Hv; inversion Hv; subst.
  - exists []. split; [constructor | reflexivity].
  - match goal with
    | H : print_class_forward_decl _ _ = _ |- _ =>
        unfold print_class_forward_decl in H; run_inv
    end.
    match goal with
    | H : visits _ _ l _ _ _ |- _ =>
        apply IH in H; destruct H as (names & HF & ->)
    end.
    match goal with
    | H : type2cpp_class _ = Ok ?n |- _ =>
        exists (n :: names); split; [constructor; assumption |]
    end.
    simpl. text_eq.
Qed.

Section Passes.
Context {G : generator}.
Variable fuel : nat.

Lemma read_only_print_forward_declarations :
  read_only (print_forward_declarations fuel).
Proof.
  unfold print_forward_declarations.
  apply read_only_bind; [apply read_only_osprintf | intros _].
  apply read_only_for_classes. intros clazz _.
  apply read_only_print_class_forward_decl.
Qed.

Lemma read_only_print_implementations :
  read_only (print_implementations fuel).
Proof.
  unfold print_implementations.
  apply read_only_bind; [| intros _; apply read_only_ret].
  apply read_only_for_classes. intros clazz first.
  apply read_only_bind;
    [destruct first; [apply read_only_ret | apply read_only_osprintf] |].
  intros _. apply read_only_bind; [| intros _; apply read_only_ret].
  apply read_only_print_class_impl.
Qed.

Lemma monotone_separated_body (P : class_ref -> M unit) :
  (forall clazz, monotone (P clazz)) ->
  forall clazz first, monotone (separated_body P clazz first).
Proof.
  intros HP clazz first. unfold separated_body.
  apply monotone_bind;
    [destruct first; apply monotone_read_only;
     [apply read_only_ret | apply read_only_osprintf] | intros _].
  apply monotone_bind; [apply HP | intros _].
  apply monotone_read_only, read_only_ret.
Qed.

Lemma print_forward_declarations_ok g g' out :
  keys_sorted (classes g) = true ->
  print_forward_declarations fuel g = (g', out, Ok tt) ->
  g' = g /\
  exists names,
    Forall2 (fun kc n => type2cpp_class (snd kc) = Ok n) (classes g) names
    /\ out = ("// forward declarations" ++ nl
              ++ concat_all (map forward_decl_text names))%string.
Proof.
  intros Hs Hrun.
  assert (Hg : g' = g)
    by exact (read_only_run _ _ _ _ _ read_only_print_forward_declarations
                Hrun).
  subst g'. split; [reflexivity |].
  unfold print_forward_declarations in Hrun. apply bind_ok in Hrun.
  destruct Hrun as (g1 & o1 & [] & o2 & H1 & Hrun & ->).
  apply osprintf_ok in H1. destruct H1 as (-> & ->).
  apply for_classes_stable in Hrun; try assumption; try reflexivity.
  - destruct Hrun as [_ Hv]. apply visits_forward_decl in Hv.
    destruct Hv as (names & HF & ->). exists names. auto.
  - intros clazz a. apply monotone_read_only.
    apply read_only_print_class_forward_decl.
Qed.

Lemma print_implementations_ok g g' out :
  keys_sorted (classes g) = true ->
  print_implementations fuel g = (g', out, Ok tt) ->
  g' = g /\
  exists impls,
    Forall2 (fun kc t => print_class_impl fuel (ref_of kc) g = (g, t, Ok tt))
      (classes g) impls
    /\ out = separated nl impls.
Proof.
  intros Hs Hrun.
  assert (Hg : g' = g)
    by exact (read_only_run _ _ _ _ _ read_only_print_implementations Hrun).
  subst g'. split; [reflexivity |].
  unfold print_implementations in Hrun. apply bind_ok in Hrun.
  destruct Hrun as (g1 & o1 & b & o2 & Hrun & H1 & ->).
  apply ret_ok in H1. destruct H1 as (Hg1 & -> & _). subst g1.
  change (for_classes fuel (separated_body (print_class_impl fuel)) true g
          = (g, o1, Ok b)) in Hrun.
  apply for_classes_stable in Hrun; try assumption; try reflexivity.
  - destruct Hrun as [_ Hv]. apply visits_separated in Hv.
    + destruct Hv as (texts & HF & ->). exists texts.
      split; [exact HF | apply append_nil_r].
    + intros clazz. apply monotone_read_only, read_only_print_class_impl.
  - apply monotone_separated_body. intros clazz.
    apply monotone_read_only, read_only_print_class_impl.
Qed.

(** Declarations that end with the class map they started with. *)
Lemma print_declarations_ok g g' out :
  keys_sorted (classes g) = true ->
  print_declarations fuel g = (g', out, Ok tt) ->
  classes g' = classes g ->
  g' = g /\
  exists decls,
    Forall2 (fun kc t => print_class fuel (ref_of kc) g = (g, t, Ok tt))
      (classes g) decls
    /\ out = separated nl decls.
Proof.
  intros Hs Hrun Hsame.
  unfold print_declarations in Hrun. apply bind_ok in Hrun.
  destruct Hrun as (g1 & o1 & b & o2 & Hrun & H1 & ->).
  apply ret_ok in H1. destruct H1 as (Hg1 & -> & _). subst g1.
  change (for_classes fuel (separated_body (print_class fuel)) true g
          = (g', o1, Ok b)) in Hrun.
  apply for_classes_stable in Hrun; try assumption.
  - destruct Hrun as [-> Hv]. split; [reflexivity |].
    apply visits_separated in Hv.
    + destruct Hv as (texts & HF & ->). exists texts.
      split; [exact HF | apply append_nil_r].
    + intros clazz. apply monotone_print_class.
  - apply monotone_separated_body. intros clazz. apply monotone_print_class.
Qed.

(** No implementation can be printed for a class that [classes[k]]
    created. *)
Lemma print_class_impl_default k g :
  value_of (print_class_impl fuel (mk_ref k isl_class.default) g)
  = Fail OutOfRange.
Proof. reflexivity. Qed.

(** A run of the generator that comes to its end never changed the class
    map. *)
Lemma implementations_need_names g g' out :
  keys_sorted (classes g) = true ->
  print_implementations fuel g = (g', out, Ok tt) ->
  forall k, ~ In (k, isl_class.default) (classes g).
Proof.
  intros Hs Hrun k Hin.
  unfold print_implementations in Hrun. apply bind_ok in Hrun.
  destruct Hrun as (g1 & o1 & b & o2 & Hrun & H1 & ->).
  assert (Hg : g1 = g).
  { refine (read_only_run _ _ _ _ _ _ Hrun).
    apply read_only_for_classes. intros clazz first.
    apply read_only_bind;
      [destruct first; [apply read_only_ret | apply read_only_osprintf] |].
    intros _. apply read_only_bind; [| intros _; apply read_only_ret].
    apply read_only_print_class_impl. }
  subst g1.
  change (for_classes fuel (separated_body (print_class_impl fuel)) true g
          = (g, o1, Ok b)) in Hrun.
  apply for_classes_stable in Hrun; try assumption; try reflexivity.
  - destruct Hrun as [_ Hv].
    destruct (visits_each _ _ _ _ _ _ Hv _ Hin) as (a0 & o & a1 & Hb).
    unfold separated_body in Hb. apply bind_ok in Hb.
    destruct Hb as (g1 & o3 & [] & o4 & Hsep & Hb & _).
    apply when_osprintf_ok' in Hsep. destruct Hsep as (-> & _).
    apply bind_ok in Hb. destruct Hb as (g2 & o5 & [] & o6 & Hb & _ & _).
    pose proof (print_class_impl_default k g) as Hd.
    unfold ref_of in Hb. simpl fst in Hb. simpl snd in Hb.
    rewrite Hb in Hd. discriminate Hd.
  - apply monotone_separated_body. intros clazz.
    apply monotone_read_only, read_only_print_class_impl.
Qed.

(** The whole run. *)
Lemma generate_ok g g' out :
  keys_sorted (classes g) = true ->
  generate fuel g = (g', out, Ok tt) ->
  g' = g /\
  exists names decls impls,
    Forall2 (fun kc n => type2cpp_class (snd kc) = Ok n) (classes g) names
    /\ Forall2 (fun kc t => print_class fuel (ref_of kc) g = (g, t, Ok tt))
         (classes g) decls
    /\ Forall2 (fun kc t => print_class_impl fuel (ref_of kc) g
                            = (g, t, Ok tt)) (classes g) impls
    /\ out = (namespace_open (noexceptions g)
              ++ three_regions names decls impls
              ++ namespace_close (noexceptions g))%string.
Proof.
  intros Hs Hrun. unfold generate in Hrun.
  apply bind_ok in Hrun. destruct Hrun as (g1 & o1 & [] & o2 & H1 & Hrun & ->).
  apply osprintf_ok in H1. destruct H1 as (-> & ->).
  apply bind_ok in Hrun. destruct Hrun as (g1 & o1 & [] & o3 & H1 & Hrun & ->).
  apply osprintf_ok in H1. destruct H1 as (-> & ->).
  rewrite bind_read in Hrun.
  apply bind_ok in Hrun. destruct Hrun as (g1 & o1 & [] & o4 & H1 & Hrun & ->).
  apply when_osprintf_ok in H1. destruct H1 as (-> & ->).
  apply bind_ok in Hrun. destruct Hrun as (g1 & F & [] & o5 & HF & Hrun & ->).
  apply print_forward_declarations_ok in HF; [| exact Hs].
  destruct HF as (-> & names & Hnames & ->).
  apply bind_ok in Hrun. destruct Hrun as (g1 & o1 & [] & o6 & H1 & Hrun & ->).
  apply osprintf_ok in H1. destruct H1 as (-> & ->).
  apply bind_ok in Hrun. destruct Hrun as (g2 & D & [] & o7 & HD & Hrun & ->).
  apply bind_ok in Hrun. destruct Hrun as (g1 & o1 & [] & o8 & H1 & Hrun & ->).
  apply osprintf_ok in H1. destruct H1 as (-> & ->).
  apply bind_ok in Hrun. destruct Hrun as (g3 & I & [] & o9 & HI & Hrun & ->).
  assert (Hgr : grows g g2).
  { pose proof (monotone_print_declarations fuel g) as Hm.
    rewrite HD in Hm. exact Hm. }
  assert (Hs2 : keys_sorted (classes g2) = true)
    by (eapply keys_sorted_grows; [apply Hgr | exact Hs]).
  assert (Hsame : classes g2 = classes g).
  { destruct (grows_default _ _ (proj2 Hgr)) as [E | (k & Hin)];
      [exact E | exfalso].
    exact (implementations_need_names g2 g3 I Hs2 HI k Hin). }
  assert (g2 = g) by (apply grows_same; assumption). subst g2.
  apply print_declarations_ok in HD; [| exact Hs | reflexivity].
  destruct HD as (_ & decls & Hdecls & ->).
  apply print_implementations_ok in HI; [| exact Hs].
  destruct HI as (-> & impls & Himpls & ->).
  rewrite bind_read in Hrun.
  apply bind_ok in Hrun. destruct Hrun as (g1 & o1 & [] & o10 & H1 & Hrun & ->).
  apply when_osprintf_ok in H1. destruct H1 as (-> & ->).
  apply osprintf_ok in Hrun. destruct Hrun as (-> & ->).
  split; [reflexivity |].
  exists names, decls, impls.
  repeat (split; [assumption |]).
  destruct (noexceptions g); text_eq.
Qed.

End Passes.

(** *** What a finished run has printed *)

Lemma for_list_ok_each {A S} (body : A -> S -> M S) (l : list A) :
  forall s g g' out s',
    for_list l body s g = (g', out, Ok s') ->
    forall x, In x l ->
    exists s0 g0 g1 o s1, body x s0 g0 = (g1, o, Ok s1).
Proof.
  induction l as [| x0 l IH]; intros s g g' out s' Hrun x Hin;
    [contradiction |].
  simpl in Hrun. apply bind_ok in Hrun.
  destruct Hrun as (g1 & o1 & s1 & o2 & Hb & Hrun & _).
  destruct Hin as [<- | Hin].
  - exists s, g, g1, o1, s1. exact Hb.
  - eapply IH; eassumption.
Qed.

Lemma print_class_impl_ok_methods {G : generator} fuel (clazz : class_ref) g
    g' out method :
  print_class_impl fuel clazz g = (g', out, Ok tt) ->
  method_of clazz method ->
  exists fullname g0 g1 o,
    print_method_impl fuel clazz fullname method
      (get_method_kind clazz method) g0 = (g1, o, Ok tt).
Proof.
  intros Hrun (it & Hit & Hm). unfold print_class_impl in Hrun.
  repeat (apply bind_ok in Hrun;
          let g := fresh "g" in
          let o := fresh "o" in
          let a := fresh "a" in
          let o' := fresh "o" in
          let H1 := fresh "H" in
          destruct Hrun as (g & o & a & o' & H1 & Hrun & _)).
  match goal with
  | H : for_list (isl_class.methods _) _ _ _ = _ |- _ =>
      destruct (for_list_ok_each _ _ _ _ _ _ _ H it Hit)
        as (xs0 & xg0 & xg1 & xo1 & xs1 & Hb)
  end.
  apply bind_ok in Hb. destruct Hb as (xg2 & xo2 & [] & xo3 & _ & Hb & _).
  apply bind_ok in Hb. destruct Hb as (xg3 & xo4 & [] & xo5 & Hb & _ & _).
  unfold print_method_group_impl in Hb. apply bind_ok in Hb.
  destruct Hb as (xg4 & xo6 & b' & xo7 & Hb & _ & _).
  destruct (for_list_ok_each _ _ _ _ _ _ _ Hb method Hm)
    as (yt0 & yg0 & yg1 & yo1 & yt1 & Hc).
  apply bind_ok in Hc. destruct Hc as (yg2 & yo2 & [] & yo3 & _ & Hc & _).
  apply bind_ok in Hc. destruct Hc as (yg3 & yo4 & [] & yo5 & Hc & _ & _).
  exists (fst it), yg2, yg3, yo4. exact Hc.
Qed.

Lemma Forall2_in_l {A B} (R : A -> B -> Prop) l l' :
  Forall2 R l l' -> forall x, In x l -> exists y, R x y.
Proof.
  induction 1; intros z Hin; [contradiction |].
  destruct Hin as [<- | Hin]; eauto.
Qed.

(** The locals of a method are the locals of callback parameters of the
    method, one after the other. *)
Lemma callback_locals_loop_ok {G : generator} rest :
  forall num_params i has_callback g g1 L r,
    callback_locals_loop num_params i has_callback rest g = (g1, L, Ok r) ->
    exists locals : list (ParmVarDecl.t * string),
      Forall (fun pt => In (fst pt) rest
                        /\ callback_locals_of (noexceptions g) (fst pt)
                             (snd pt)) locals
      /\ L = concat_all (map snd locals).
Proof.
  induction rest as [| param rest IH];
    intros num_params i has_callback g g1 L r Hrun; simpl in Hrun.
  - injection Hrun as _ <- _. exists []. split; [constructor | reflexivity].
  - destruct (i <? num_params)%Z.
    + destruct (is_callback (ParmVarDecl.getType param)) eqn:Ec.
      * apply bind_ok in Hrun.
        destruct Hrun as (g2 & t & [] & o2 & Ht & Hrun & ->).
        apply print_callback_local_ok in Ht.
        destruct Ht as (-> & callback & rtype & args & c_args & cpp_args
                          & Hf & Hc & Hy & Ht).
        apply IH in Hrun. destruct Hrun as (locals & HF & ->).
        exists ((param, t) :: locals). split; [| reflexivity].
        constructor.
        -- split; [left; reflexivity |]. split; [exact Ec |].
           exists callback, rtype, args, c_args, cpp_args. auto.
        -- eapply Forall_impl; [| exact HF].
           intros pt [Hin Hl]. split; [right; exact Hin | exact Hl].
      * apply IH in Hrun. destruct Hrun as (locals & HF & ->).
        exists locals. split; [| reflexivity].
        eapply Forall_impl; [| exact HF].
        intros pt [Hin Hl]. split; [right; exact Hin | exact Hl].
    + injection Hrun as _ <- _. exists [].
      split; [constructor | reflexivity].
Qed.

(** *** Fuel that is enough stays enough *)

Lemma fuel_stable_const {A} (m : M A) : fuel_stable (fun _ => m).
Proof. intros n n' g g' o a H _. exact H. Qed.

Lemma fuel_stable_bind {A B} (m : nat -> M A) (f : nat -> A -> M B) :
  fuel_stable m -> (forall a, fuel_stable (fun n => f n a)) ->
  fuel_stable (fun n => bind (m n) (f n)).
Proof.
  intros Hm Hf n n' g g' o b H Hle. apply bind_ok in H.
  destruct H as (g1 & o1 & a & o2 & H1 & H2 & ->).
  erewrite bind_run by (eapply Hm; eassumption).
  rewrite (Hf a n n' g1 g' o2 b H2 Hle). reflexivity.
Qed.

Lemma fuel_stable_for_list {A S} (l : list A) (body : nat -> A -> S -> M S) :
  (forall x s, fuel_stable (fun n => body n x s)) ->
  forall s, fuel_stable (fun n => for_list l (body n) s).
Proof.
  intros Hb. induction l as [| x l IH]; intros s; cbn [for_list].
  - apply fuel_stable_const.
  - apply (fuel_stable_bind (fun n => body n x s)
             (fun n s' => for_list l (body n) s')); [apply Hb | exact IH].
Qed.

Lemma fuel_stable_is_subclass_loop {G : generator} class_type parents :
  fuel_stable (fun n => is_subclass_loop n class_type parents).
Proof.
  intros n. revert parents.
  induction n as [| n IH]; intros parents n' g g' o b H Hle.
  - destruct parents as [| candidate parents]; [| discriminate H].
    destruct n'; exact H.
  - destruct n' as [| n']; [lia |].
    destruct parents as [| candidate parents]; [exact H |].
    cbn [is_subclass_loop] in H |- *.
    destruct (String.eqb (addr class_type) (addr candidate)); [exact H |].
    apply bind_ok in H. destruct H as (g1 & o1 & ps & o2 & H1 & H2 & ->).
    erewrite bind_run by exact H1.
    rewrite (IH ps n' g1 g' o2 b H2) by lia. reflexivity.
Qed.

Section FuelStable.
Context {G : generator}.

Lemma fuel_stable_is_subclass type class_type :
  fuel_stable (fun n => is_subclass n type class_type).
Proof.
  unfold is_subclass.
  apply (fuel_stable_bind (fun _ => lift _) (fun n pointee => _));
    [apply fuel_stable_const | intros pointee].
  apply (fuel_stable_bind (fun _ => classes_index _) (fun n c => _));
    [apply fuel_stable_const | intros c].
  apply (fuel_stable_bind (fun _ => push_superclasses _ _)
           (fun n ps => is_subclass_loop n class_type ps));
    [apply fuel_stable_const | intros ps].
  apply fuel_stable_is_subclass_loop.
Qed.

Lemma fuel_stable_is_implicit_conversion clazz cons :
  fuel_stable (fun n => is_implicit_conversion n clazz cons).
Proof.
  unfold is_implicit_conversion.
  apply (fuel_stable_bind (fun _ => lift _) (fun n param => _));
    [apply fuel_stable_const | intros param]. cbv zeta.
  destruct (negb (FunctionDecl.getNumParams cons =? 1)%Z);
    [apply fuel_stable_const |].
  destruct (is_isl_type (ParmVarDecl.getOriginalType param)
            && negb (is_isl_ctx (ParmVarDecl.getOriginalType param)));
    [| apply fuel_stable_const].
  apply (fuel_stable_bind (fun n => is_subclass n _ clazz) (fun _ sub => _));
    [apply fuel_stable_is_subclass | intros sub; apply fuel_stable_const].
Qed.

Lemma fuel_stable_print_method_header clazz method fullname is_declaration
    kind :
  fuel_stable
    (fun n => print_method_header n clazz method fullname is_declaration kind).
Proof.
  destruct is_declaration; [| intros n n' g g' o a H _; exact H].
  destruct kind; try (intros n n' g g' o a H _; exact H).
  unfold print_method_header. cbv zeta. cbn [function_kind_eqb negb].
  apply (fuel_stable_bind (fun _ => type2cpp_m _) (fun n rt => _));
    [apply fuel_stable_const | intros rt].
  apply (fuel_stable_bind (fun _ => lift _) (fun n c => _));
    [apply fuel_stable_const | intros c].
  apply (fuel_stable_bind
           (fun n =>
              bind (osprintf "  ")
                (fun _ =>
                   bind (ret tt)
                     (fun _ =>
                        bind (osprintf "inline ")
                          (fun _ =>
                             bind (is_implicit_conversion n clazz method)
                               (fun implicit =>
                                  if implicit then
                                    osprintf "/* implicit */ "
                                  else osprintf "explicit ")))))
           (fun _ _ => _)); [| intros u; apply fuel_stable_const].
  apply (fuel_stable_bind (fun _ => osprintf _) (fun n _ => _));
    [apply fuel_stable_const | intros _].
  apply (fuel_stable_bind (fun _ => ret tt) (fun n _ => _));
    [apply fuel_stable_const | intros _].
  apply (fuel_stable_bind (fun _ => osprintf _) (fun n _ => _));
    [apply fuel_stable_const | intros _].
  apply (fuel_stable_bind (fun n => is_implicit_conversion n clazz method)
           (fun _ implicit => _));
    [apply fuel_stable_is_implicit_conversion |].
  intros implicit. apply fuel_stable_const.
Qed.

Lemma fuel_stable_print_constructors_decl clazz :
  fuel_stable (fun n => print_constructors_decl n clazz).
Proof.
  unfold print_constructors_decl, print_method_decl, for_each.
  apply (fuel_stable_for_list _
           (fun n cons (_ : unit) =>
              print_method_header n clazz cons (FunctionDecl.getName cons)
                true function_kind_constructor)).
  intros cons _. apply fuel_stable_print_method_header.
Qed.

Lemma fuel_stable_print_methods_decl clazz :
  fuel_stable (fun n => print_methods_decl n clazz).
Proof.
  unfold print_methods_decl, for_each.
  apply (fuel_stable_for_list _
           (fun n (it : string * list FunctionDecl.t) (_ : unit) =>
              print_method_group_decl n clazz (fst it) (snd it))).
  intros it _. unfold print_method_group_decl, print_method_decl, for_each.
  apply (fuel_stable_for_list _
           (fun n method (_ : unit) =>
              print_method_header n clazz method (fst it) true
                (get_method_kind clazz method))).
  intros method _. apply fuel_stable_print_method_header.
Qed.

Ltac fuel_stable_step :=
  first
    [ apply fuel_stable_const
    | apply (fuel_stable_bind (fun _ => _) (fun n _ => _));
      [apply fuel_stable_const | intros ?]
    | apply (fuel_stable_bind (fun n => print_constructors_decl n _)
               (fun n _ => _));
      [apply fuel_stable_print_constructors_decl | intros ?]
    | apply (fuel_stable_bind (fun n => print_methods_decl n _)
               (fun n _ => _));
      [apply fuel_stable_print_methods_decl | intros ?] ].

Lemma fuel_stable_print_class clazz :
  fuel_stable (fun n => print_class n clazz).
Proof.
  unfold print_class. cbv zeta. do 30 try fuel_stable_step.
Qed.

Lemma print_class_impl_fuel clazz n n' :
  print_class_impl n clazz = print_class_impl n' clazz.
Proof. reflexivity. Qed.

End FuelStable.

(** *** A traversal that finds every entry in order *)

Section TraversalRuns.
Context {G : generator}.
Context {A : Type}.
Variable body : class_ref -> A -> M A.

(** With fuel for every entry from the iterator on, a traversal whose
    body leaves the generator object alone on each of them comes to its
    end. *)
Lemma classes_loop_visits post : forall pre k c n a g out a',
  classes g = (pre ++ (k, c) :: post)%list ->
  keys_sorted (classes g) = true ->
  visits body g ((k, c) :: post) a out a' ->
  (List.length ((k, c) :: post) <= n)%nat ->
  classes_loop n body (Some k) a g = (g, out, Ok a').
Proof.
  induction post as [| [k2 c2] post IH];
    intros pre k c n a g out a' Hm Hs Hv Hn;
    (destruct n as [| n]; [simpl in Hn; lia |]);
    pose proof Hs as Hmid; rewrite Hm in Hmid;
    apply keys_sorted_middle in Hmid; destruct Hmid as [Hfind Hnext];
    rewrite <- Hm in Hfind, Hnext;
    inversion Hv as [| kc l a0 o a1 o' a2 Hbody Hrest]; subst;
    cbn [classes_loop];
    (erewrite bind_run
       by (unfold iterator_deref; rewrite Hfind; reflexivity));
    unfold ref_of in Hbody; cbn [fst snd] in Hbody;
    (erewrite bind_run by exact Hbody);
    rewrite bind_read, Hnext; cbn [map_begin].
  - inversion Hrest; subst. rewrite classes_loop_end.
    unfold state_of, text_of, value_of. cbn [fst snd ret].
    rewrite !append_nil_r. reflexivity.
  - rewrite (IH (pre ++ [(k, c)])%list k2 c2 n a1 g o' a').
    + reflexivity.
    + rewrite Hm, <- app_assoc. reflexivity.
    + exact Hs.
    + exact Hrest.
    + simpl in Hn |- *. lia.
Qed.

Lemma for_classes_visits fuel a g out a' :
  keys_sorted (classes g) = true ->
  visits body g (classes g) a out a' ->
  (List.length (classes g) <= fuel)%nat ->
  for_classes fuel body a g = (g, out, Ok a').
Proof.
  intros Hs Hv Hn. unfold for_classes. rewrite bind_read.
  destruct (classes g) as [| [k c] post] eqn:Hm.
  - inversion Hv; subst. cbn [map_begin]. rewrite classes_loop_end.
    reflexivity.
  - cbn [map_begin]. rewrite <- Hm in Hs.
    apply (classes_loop_visits post [] k c fuel a g out a' Hm Hs Hv Hn).
Qed.

End TraversalRuns.

Lemma forward_decl_visits {G : generator} g l : forall names,
  Forall2 (fun kc n => type2cpp_class (snd kc) = Ok n) l names ->
  visits (fun clazz (_ : unit) => print_class_forward_decl clazz) g l tt
    (concat_all (map forward_decl_text names)) tt.
Proof.
  induction l as [| kc l IH]; intros names HF; inversion HF; subst.
  - apply visits_nil.
  - cbn [map concat_all].
    apply (visits_cons _ g kc l tt (forward_decl_text y) tt);
      [| apply IH; assumption].
    unfold print_class_forward_decl, ref_of. cbn [deref].
    match goal with H : type2cpp_class _ = Ok _ |- _ => rewrite H end.
    reflexivity.
Qed.

Lemma separated_visits (P : class_ref -> M unit) g l : forall texts first,
  Forall2 (fun kc t => P (ref_of kc) g = (g, t, Ok tt)) l texts ->
  visits (separated_body P) g l first
    (if first then separated nl texts
     else concat_all (map (fun t => nl ++ t) texts))
    (match l with [] => first | _ => false end).
Proof.
  induction l as [| kc l IH]; intros texts first HF; inversion HF; subst.
  - destruct first; apply visits_nil.
  - replace (if first then separated nl (y :: l')
             else concat_all (map (fun t => nl ++ t) (y :: l')))
      with ((if first then y else nl ++ y)
            ++ concat_all (map (fun t => nl ++ t) l'))
      by (destruct first; unfold separated; cbn [map concat_all];
          rewrite ?append_assoc; reflexivity).
    apply (visits_cons _ g kc l first _ false).
    + unfold separated_body.
      match goal with H : P _ _ = _ |- _ => rename H into HP end.
      destruct first.
      * rewrite bind_ret. erewrite bind_run by exact HP.
        unfold state_of, text_of, value_of. cbn [fst snd ret].
        rewrite append_nil_r. reflexivity.
      * run. rewrite HP. rewrite append_nil_r. reflexivity.
    + specialize (IH l' false). cbn beta iota in IH.
      replace (match l with [] => false | _ :: _ => false end) with false in IH
        by (destruct l; reflexivity).
      apply IH. assumption.
Qed.

(** With fuel for every class, the generator comes to its end when the
    declaration and the implementations of every class can be printed
    on the generator object and leave it as it is. *)
Lemma generate_runs {G : generator} fuel g names decls impls :
  keys_sorted (classes g) = true ->
  Forall2 (fun kc n => type2cpp_class (snd kc) = Ok n) (classes g) names ->
  Forall2 (fun kc t => print_class fuel (ref_of kc) g = (g, t, Ok tt))
    (classes g) decls ->
  Forall2 (fun kc t => print_class_impl fuel (ref_of kc) g = (g, t, Ok tt))
    (classes g) impls ->
  (List.length (classes g) <= fuel)%nat ->
  generate fuel g
  = (g,
     namespace_open (noexceptions g) ++ three_regions names decls impls
     ++ namespace_close (noexceptions g),
     Ok tt).
Proof.
  intros Hs Hn Hd Hi Hf.
  assert (EF : print_forward_declarations fuel g
               = (g, "// forward declarations" ++ nl
                     ++ concat_all (map forward_decl_text names), Ok tt)).
  { unfold print_forward_declarations.
    erewrite bind_run by reflexivity.
    rewrite (for_classes_visits _ fuel tt g _ tt Hs
               (forward_decl_visits g _ _ Hn) Hf).
    reflexivity. }
  assert (ED : print_declarations fuel g = (g, separated nl decls, Ok tt)).
  { unfold print_declarations.
    change (bind (for_classes fuel (separated_body (print_class fuel)) true)
              (fun _ => ret tt) g = (g, separated nl decls, Ok tt)).
    erewrite bind_run
      by exact (for_classes_visits _ fuel true g _ _ Hs
                  (separated_visits _ g _ _ true Hd) Hf).
    unfold state_of, text_of, value_of. cbn [fst snd ret].
    rewrite append_nil_r. reflexivity. }
  assert (EI : print_implementations fuel g = (g, separated nl impls, Ok tt)).
  { unfold print_implementations.
    change (bind (for_classes fuel (separated_body (print_class_impl fuel))
                    true)
              (fun _ => ret tt) g = (g, separated nl impls, Ok tt)).
    erewrite bind_run
      by exact (for_classes_visits _ fuel true g _ _ Hs
                  (separated_visits _ g _ _ true Hi) Hf).
    unfold state_of, text_of, value_of. cbn [fst snd ret].
    rewrite append_nil_r. reflexivity. }
  unfold generate.
  destruct (noexceptions g) eqn:En; run; rewrite En; run;
    rewrite EF; run; rewrite ED; run; rewrite EI; run; rewrite ?En;
    text_eq.
Qed.

(** *** Runs over a resolved class map *)

Lemma state_bind {A B} (m : M A) (f : A -> M B) g :
  state_of (m g) = g -> (forall a, state_of (f a g) = g) ->
  state_of (bind m f g) = g.
Proof.
  intros Hm Hf. unfold bind.
  destruct (m g) as [[g1 o1] [a | e]]; unfold state_of in *; simpl in *;
    subst; [| reflexivity].
  specialize (Hf a). destruct (f a g) as [[g2 o2] r]. exact Hf.
Qed.

Lemma state_for_list {A S} (l : list A) (body : A -> S -> M S) g :
  (forall x, In x l -> forall s, state_of (body x s g) = g) ->
  forall s, state_of (for_list l body s g) = g.
Proof.
  induction l as [| x l IH]; intros Hb s; cbn [for_list].
  - reflexivity.
  - apply state_bind; [apply Hb; left; reflexivity |].
    intros s'. apply IH. intros y Hy. apply Hb. right. exact Hy.
Qed.

Lemma map_find_in m k c : map_find m k = Some c -> In (k, c) m.
Proof.
  induction m as [| [k' c'] m IH]; simpl; [discriminate |].
  destruct (String.eqb k k') eqn:E.
  - apply String.eqb_eq in E. subst k'. intros H. injection H as <-.
    left. reflexivity.
  - intros H. right. apply IH. exact H.
Qed.

Lemma classes_index_present g k :
  present (classes g) k = true ->
  classes_index k g = (g, "", Ok (ref_at (classes g) k)).
Proof.
  unfold present, classes_index, map_index, ref_at, class_at.
  destruct (map_find (classes g) k); [| discriminate].
  intros _. destruct g; reflexivity.
Qed.

Section Resolved.
Context {G : generator}.
Variable fuel : nat.
Variable g : cpp_generator.
Hypothesis g_resolved : resolved (classes g) = true.

Lemma resolved_class k c :
  map_find (classes g) k = Some c -> class_resolved (classes g) c = true.
Proof.
  intros H. apply map_find_in in H. unfold resolved in g_resolved.
  rewrite forallb_forall in g_resolved. exact (g_resolved (k, c) H).
Qed.

Lemma resolved_ref_at k :
  present (classes g) k = true ->
  class_resolved (classes g) (ref_at (classes g) k) = true.
Proof.
  unfold present, ref_at, class_at. cbn [deref].
  destruct (map_find (classes g) k) as [c |] eqn:E; [| discriminate].
  intros _. exact (resolved_class k c E).
Qed.

Lemma push_superclasses_resolved superclasses : forall parents,
  forallb (present (classes g)) superclasses = true ->
  Forall (fun r : class_ref => class_resolved (classes g) r = true) parents ->
  exists parents',
    push_superclasses superclasses parents g = (g, "", Ok parents')
    /\ Forall (fun r : class_ref => class_resolved (classes g) r = true)
         parents'.
Proof.
  induction superclasses as [| ci rest IH]; intros parents Hp Hgood.
  - exists parents. split; [reflexivity | exact Hgood].
  - cbn [forallb] in Hp. apply andb_prop in Hp. destruct Hp as [Hci Hrest].
    destruct (IH (ref_at (classes g) ci :: parents) Hrest) as (ps & E & Hps).
    + constructor; [apply resolved_ref_at; exact Hci | exact Hgood].
    + exists ps. split; [| exact Hps].
      cbn [push_superclasses].
      erewrite bind_run by (apply classes_index_present; exact Hci).
      rewrite E. reflexivity.
Qed.

Lemma is_subclass_loop_resolved class_type n : forall parents,
  Forall (fun r : class_ref => class_resolved (classes g) r = true) parents ->
  state_of (is_subclass_loop n class_type parents g) = g.
Proof.
  induction n as [| n IH]; intros [| candidate parents] Hgood;
    try reflexivity.
  cbn [is_subclass_loop].
  destruct (String.eqb (addr class_type) (addr candidate)); [reflexivity |].
  inversion Hgood as [| ? ? Hc Hrest]; subst.
  unfold class_resolved in Hc. apply andb_prop in Hc. destruct Hc as [Hsup _].
  destruct (push_superclasses_resolved _ parents Hsup Hrest) as (ps & E & Hps).
  erewrite bind_run by exact E. apply IH. exact Hps.
Qed.

Lemma is_subclass_resolved type class_type :
  (forall pointee,
     QualType.getPointeeType type = Some pointee ->
     present (classes g) (QualType.getAsString pointee) = true) ->
  state_of (is_subclass fuel type class_type g) = g.
Proof.
  intros Hp. unfold is_subclass.
  destruct (QualType.getPointeeType type) as [pointee |]; [| reflexivity].
  cbn [expect]. rewrite bind_lift. specialize (Hp pointee eq_refl).
  erewrite bind_run by (apply classes_index_present; exact Hp).
  cbn [state_of fst].
  pose proof (resolved_ref_at _ Hp) as Hc.
  unfold class_resolved in Hc. apply andb_prop in Hc. destruct Hc as [Hsup _].
  destruct (push_superclasses_resolved _ [] Hsup (Forall_nil _))
    as (ps & E & Hps).
  change (state_of
            (bind (push_superclasses
                     (find_superclasses
                        (isl_class.type
                           (ref_at (classes g) (QualType.getAsString pointee))))
                     [])
               (fun parents => is_subclass_loop fuel class_type parents) g)
          = g).
  erewrite bind_run by exact E. apply is_subclass_loop_resolved. exact Hps.
Qed.

Lemma is_implicit_conversion_resolved clazz cons :
  match converted_class cons with
  | Some k => present (classes g) k
  | None => true
  end = true ->
  state_of (is_implicit_conversion fuel clazz cons g) = g.
Proof.
  intros Hc. unfold is_implicit_conversion, getParamDecl,
    FunctionDecl.getNumParams.
  unfold converted_class in Hc.
  destruct (FunctionDecl.params cons) as [| param [| p2 rest]];
    cbn [nth_error expect]; [reflexivity | |].
  - rewrite bind_lift. cbv zeta. cbn [List.length Z.of_nat Pos.of_succ_nat].
    cbn [Z.eqb Pos.eqb negb]. cbv zeta in Hc.
    destruct (is_isl_type (ParmVarDecl.getOriginalType param)
              && negb (is_isl_ctx (ParmVarDecl.getOriginalType param)));
      [| reflexivity].
    apply state_bind; [| intros [|]; reflexivity].
    apply is_subclass_resolved. intros pointee Hp. rewrite Hp in Hc. exact Hc.
  - rewrite bind_lift. cbv zeta.
    replace (Z.of_nat (List.length (param :: p2 :: rest)) =? 1) with false;
      [reflexivity |].
    symmetry. apply Z.eqb_neq. simpl List.length. lia.
Qed.

Lemma print_constructors_decl_resolved (clazz : class_ref) :
  class_resolved (classes g) clazz = true ->
  state_of (print_constructors_decl fuel clazz g) = g.
Proof.
  intros Hc. unfold class_resolved in Hc. apply andb_prop in Hc.
  destruct Hc as [_ Hcons]. rewrite forallb_forall in Hcons.
  unfold print_constructors_decl, for_each.
  apply state_for_list. intros cons Hin _. cbv zeta.
  unfold print_method_decl, print_method_header. cbv zeta.
  cbn [function_kind_eqb negb].
  apply state_bind; [apply read_only_type2cpp_m | intros rt].
  apply state_bind; [apply read_only_lift | intros c].
  apply state_bind.
  - apply state_bind; [reflexivity | intros _].
    apply state_bind; [reflexivity | intros _].
    apply state_bind; [reflexivity | intros _].
    apply state_bind; [| intros [|]; reflexivity].
    apply is_implicit_conversion_resolved. exact (Hcons cons Hin).
  - intros _. apply state_bind; [apply read_only_lift | intros [b rt']].
    do 30 try first
      [ apply read_only_osprintf | apply read_only_ret
      | apply read_only_header_params_loop
      | apply state_bind; [| intros ?] ].
Qed.

Lemma print_class_resolved (clazz : class_ref) :
  class_resolved (classes g) clazz = true ->
  state_of (print_class fuel clazz g) = g.
Proof.
  intros Hc. unfold print_class. cbv zeta.
  do 40 try first
    [ apply print_constructors_decl_resolved; exact Hc
    | apply read_only_lift | apply read_only_osprintf | apply read_only_ret
    | apply read_only_print_class_factory_decl
    | apply read_only_print_subclass_type
    | apply read_only_print_protected_constructors_decl
    | apply read_only_print_public_constructors_decl
    | apply read_only_print_copy_assignment_decl
    | apply read_only_print_destructor_decl
    | apply read_only_print_ptr_decl
    | apply read_only_print_downcast_decl
    | apply read_only_print_get_ctx_decl
    | apply read_only_print_str_decl
    | apply read_only_print_methods_decl
    | apply state_bind; [| intros ?]
    | match goal with
      | |- state_of ((if ?b then _ else _) _) = _ => destruct b
      end ].
Qed.

Lemma classes_loop_resolved {A} (body : class_ref -> A -> M A) :
  (forall k c a,
     map_find (classes g) k = Some c ->
     state_of (body (mk_ref k c) a g) = g) ->
  forall n ci a, state_of (classes_loop n body ci a g) = g.
Proof.
  intros Hb. induction n as [| n IH]; intros [k |] a; try reflexivity.
  cbn [classes_loop].
  destruct (map_find (classes g) k) as [c |] eqn:E.
  - erewrite bind_run
      by (unfold iterator_deref; rewrite E; reflexivity).
    cbn [state_of fst].
    apply state_bind; [apply Hb; exact E | intros a'].
    apply state_bind; [reflexivity | intros ci']. apply IH.
  - erewrite bind_fail
      by (unfold iterator_deref; rewrite E; reflexivity).
    reflexivity.
Qed.

Lemma print_declarations_resolved :
  state_of (print_declarations fuel g) = g.
Proof.
  unfold print_declarations. apply state_bind; [| reflexivity].
  unfold for_classes. apply state_bind; [reflexivity | intros ci].
  apply classes_loop_resolved. intros k c first E.
  apply state_bind; [destruct first; reflexivity | intros _].
  apply state_bind; [| reflexivity].
  apply print_class_resolved. exact (resolved_class k c E).
Qed.

Lemma generate_resolved : state_of (generate fuel g) = g.
Proof.
  unfold generate.
  apply state_bind; [reflexivity | intros _].
  apply state_bind; [reflexivity | intros _].
  apply state_bind; [reflexivity | intros noexc].
  apply state_bind; [destruct noexc; reflexivity | intros _].
  apply state_bind; [apply read_only_print_forward_declarations | intros _].
  apply state_bind; [reflexivity | intros _].
  apply state_bind; [apply print_declarations_resolved | intros _].
  apply state_bind; [reflexivity | intros _].
  apply state_bind; [apply read_only_print_implementations | intros _].
  apply state_bind; [reflexivity | intros noexc'].
  apply state_bind; [destruct noexc'; reflexivity | intros _].
  reflexivity.
Qed.

End Resolved.
(** ** Names and types: further facts *)

Lemma substr_some (pos : nat) : forall s r,
  substr s pos = Some r ->
  s = substring 0 pos s ++ r
  /\ String.length s = (pos + String.length r)%nat.
Proof.
  induction pos as [| pos IH]; intros s r H.
  - destruct s; simpl in H; injection H as <-; simpl; auto.
  - destruct s as [| c s]; simpl in H; [discriminate |].
    apply IH in H. destruct H as [H1 H2]. simpl.
    split; [congruence | lia].
Qed.

Lemma substr_none (pos : nat) : forall s,
  substr s pos = None <-> (String.length s < pos)%nat.
Proof.
  induction pos as [| pos IH]; intros s.
  - destruct s; simpl; (split; [discriminate | lia]).
  - destruct s as [| c s]; simpl.
    + split; [lia | reflexivity].
    + rewrite IH. lia.
Qed.

Lemma substring_app (s : string) : forall n m k,
  substring n (m + k) s = substring n m s ++ substring (n + m) k s.
Proof.
  induction s as [| c s IH]; intros n m k.
  - destruct n, m, k; reflexivity.
  - destruct n as [| n].
    + destruct m as [| m]; [reflexivity |].
      simpl. rewrite (IH 0%nat m k). reflexivity.
    + simpl. apply IH.
Qed.

Lemma substring_whole (s : string) : forall m,
  (String.length s <= m)%nat -> substring 0 m s = s.
Proof.
  induction s as [| c s IH]; intros m Hm.
  - destruct m; reflexivity.
  - destruct m as [| m]; simpl in *; [lia |].
    rewrite IH by lia. reflexivity.
Qed.

Lemma substring_rest (s : string) : forall n m,
  (String.length s - n <= m)%nat ->
  substring n m s = substring n (String.length s - n) s.
Proof.
  induction s as [| c s IH]; intros n m Hm.
  - destruct n, m; reflexivity.
  - destruct n as [| n].
    + rewrite substring_whole by (simpl in *; lia).
      rewrite substring_whole by (simpl; lia). reflexivity.
    + simpl. apply IH. simpl in Hm. lia.
Qed.

Lemma substring_length_le (s : string) : forall m,
  (String.length (substring 0 m s) <= m)%nat.
Proof.
  induction s as [| c s IH]; intros m.
  - destruct m; simpl; lia.
  - destruct m as [| m]; simpl; [lia |]. specialize (IH m). lia.
Qed.

(** What [replace_isl_prefix] does to a text. *)
Lemma replace_isl_prefix_ok (typestr r : string) :
  replace_isl_prefix typestr = Ok r ->
  exists pre post,
    typestr = pre ++ "isl_" ++ post
    /\ r = pre ++ "isl::" ++ post
    /\ forall p, (p < String.length pre)%nat ->
                 substring p 4 typestr <> "isl_".
Proof.
  unfold replace_isl_prefix, find.
  destruct (index 0 "isl_" typestr) as [pos |] eqn:E; [| discriminate].
  cbn [expect rbind]. intros H. injection H as <-.
  pose proof (index_correct1 _ _ _ _ E) as H1.
  pose proof (index_correct2 _ _ _ _ E) as H2.
  cbn [String.length] in H1, H2.
  exists (substring 0 pos typestr),
    (substring (pos + 4) (String.length typestr - (pos + 4)) typestr).
  split; [| split].
  - rewrite <- H1.
    rewrite <- (substring_rest typestr (pos + 4) (String.length typestr))
      by lia.
    rewrite <- substring_app.
    rewrite <- (substring_app typestr 0 pos).
    symmetry. apply substring_whole. lia.
  - reflexivity.
  - intros p Hp. apply H2; [lia |].
    pose proof (substring_length_le typestr pos). lia.
Qed.

Lemma replace_isl_prefix_fails (typestr : string) :
  (forall p, substring p 4 typestr <> "isl_") <->
  replace_isl_prefix typestr = Fail OutOfRange.
Proof.
  unfold replace_isl_prefix, find.
  destruct (index 0 "isl_" typestr) as [pos |] eqn:E; cbn [expect rbind].
  - split; [| discriminate].
    intros H. exfalso. apply (H pos).
    exact (index_correct1 _ _ _ _ E).
  - split; [reflexivity |]. intros _ p.
    apply (index_correct3 0 p _ _ E); [discriminate | lia].
Qed.

(** ** Lists with separators *)

Lemma separated_cons sep x y l :
  separated sep (x :: y :: l) = x ++ sep ++ separated sep (y :: l).
Proof. unfold separated. simpl. rewrite !append_assoc. reflexivity. Qed.

Lemma separated_one sep x : separated sep [x] = x.
Proof. unfold separated. simpl. apply append_nil_r. Qed.

Lemma callback_args_loop_cpp (conv : QualType.t -> result string) n user :
  forall front i Ts,
    Forall2 (fun a T => conv a = Ok T) front Ts ->
    i + Z.of_nat (List.length front) - (n - 1) = 0 ->
    callback_args_loop conv true (n - 1) i (front ++ [user])%list
    = Ok (separated ", " Ts).
Proof.
  induction front as [| a front IH]; intros i Ts HF Hi; inversion HF; subst.
  - simpl in *. replace (i <? n - 1) with false; [reflexivity |].
    symmetry. apply Z.ltb_ge. lia.
  - cbn [app callback_args_loop].
    replace (i <? n - 1) with true
      by (symmetry; apply Z.ltb_lt; simpl List.length in Hi; lia).
    match goal with H : conv a = Ok _ |- _ => rewrite H end.
    cbn [rbind].
    erewrite IH; [| eassumption | simpl List.length in Hi; lia].
    cbn [rbind].
    match goal with H : Forall2 _ front _ |- _ => inversion H; subst end.
    + replace (i =? n - 1 - 1) with true
        by (symmetry; apply Z.eqb_eq; simpl in Hi; lia).
      cbn [negb]. rewrite separated_one. unfold separated.
      rewrite append_nil_r. reflexivity.
    + replace (i =? n - 1 - 1) with false
        by (symmetry; apply Z.eqb_neq; simpl in Hi; lia).
      cbn [negb]. rewrite separated_cons, append_assoc. reflexivity.
Qed.

Lemma callback_args_loop_c (conv : QualType.t -> result string) n :
  forall rest i,
    i + Z.of_nat (List.length rest) - n = 0 ->
    callback_args_loop conv false n i rest
    = Ok (separated ", " (trampoline_params i rest)).
Proof.
  induction rest as [| a rest IH]; intros i Hi.
  - reflexivity.
  - cbn [callback_args_loop trampoline_params].
    replace (i <? n) with true
      by (symmetry; apply Z.ltb_lt; simpl List.length in Hi; lia).
    cbn [rbind].
    rewrite IH by (simpl List.length in Hi; lia).
    cbn [rbind]. destruct rest as [| b rest].
    + replace (i =? n - 1) with true
        by (symmetry; apply Z.eqb_eq; simpl in Hi; lia).
      cbn [negb trampoline_params]. rewrite separated_one.
      unfold separated. rewrite append_nil_r. reflexivity.
    + replace (i =? n - 1) with false
        by (symmetry; apply Z.eqb_neq; simpl in Hi; lia).
      cbn [negb trampoline_params]. rewrite separated_cons.
      rewrite !append_assoc. reflexivity.
Qed.

(** ** The parameter list of a header *)

#[export] Hint Unfold header_text : text.

Lemma type2cpp_m_run {G : generator} type g :
  type2cpp_m type g = (g, "", type2cpp (noexceptions g) type).
Proof. reflexivity. Qed.

Lemma header_params_loop_cons {G : generator} n i param rest g T :
  (i <? n) = true ->
  type2cpp (noexceptions g) (ParmVarDecl.getOriginalType param) = Ok T ->
  header_params_loop n i (param :: rest) g
  = (let n' := if is_callback (ParmVarDecl.getOriginalType param)
               then n - 1 else n in
     let r := header_params_loop n' (i + 1) rest g in
     (state_of r,
      declared_param T param ++ (if negb (i =? n' - 1) then ", " else "")
      ++ text_of r,
      value_of r)).
Proof.
  intros Hi HT. cbn [header_params_loop]. rewrite Hi. cbv zeta.
  erewrite bind_run by (rewrite type2cpp_m_run, HT; reflexivity).
  unfold declared_param. cbv zeta.
  set (n' := if is_callback (ParmVarDecl.getOriginalType param)
             then n - 1 else n).
  destruct (keeps param || is_string (ParmVarDecl.getOriginalType param)
            || is_callback (ParmVarDecl.getOriginalType param));
    destruct (negb (i =? n' - 1)); run;
    destruct (header_params_loop n' (i + 1) rest g) as [[g1 o1] r1];
    cbn [append]; rewrite ?append_assoc, ?append_nil_r; reflexivity.
Qed.

(** The text of the loop depends on the generator object through its
    mode only. *)
Lemma header_params_loop_mode {G : generator} rest : forall n i g1 g2,
  noexceptions g2 = noexceptions g1 ->
  text_of (header_params_loop n i rest g2)
  = text_of (header_params_loop n i rest g1)
  /\ value_of (header_params_loop n i rest g2)
     = value_of (header_params_loop n i rest g1).
Proof.
  induction rest as [| param rest IH]; intros n i g1 g2 Hn.
  - split; reflexivity.
  - destruct (i <? n) eqn:Hi; [| cbn [header_params_loop]; rewrite Hi;
                                  split; reflexivity].
    destruct (type2cpp (noexceptions g1) (ParmVarDecl.getOriginalType param))
      as [T | e] eqn:HT.
    + rewrite (header_params_loop_cons n i param rest g1 T Hi HT).
      rewrite <- Hn in HT.
      rewrite (header_params_loop_cons n i param rest g2 T Hi HT).
      cbv zeta. unfold text_of at 1 3, value_of at 1 3. cbn [fst snd].
      destruct (IH (if is_callback (ParmVarDecl.getOriginalType param)
                    then n - 1 else n) (i + 1) g1 g2 Hn) as [-> ->].
      split; reflexivity.
    + cbn [header_params_loop]. rewrite Hi. cbv zeta.
      erewrite bind_fail
        by (rewrite type2cpp_m_run, Hn, HT; reflexivity).
      erewrite bind_fail by (rewrite type2cpp_m_run, HT; reflexivity).
      split; reflexivity.
Qed.

Lemma param_decl_ok {G : generator} noexc param d :
  param_decl noexc param = Ok d ->
  exists T, type2cpp noexc (ParmVarDecl.getOriginalType param) = Ok T
            /\ d = declared_param T param.
Proof.
  unfold param_decl.
  destruct (type2cpp noexc (ParmVarDecl.getOriginalType param)) as [T | e];
    cbn [rbind]; [| discriminate].
  intros H. injection H as <-. eauto.
Qed.

(** Without callbacks every parameter from the index on is listed. *)
Lemma header_params_loop_plain {G : generator} g n : forall rest i ds,
  i + Z.of_nat (List.length rest) - n = 0 ->
  callback_free rest ->
  Forall2 (fun param d => param_decl (noexceptions g) param = Ok d) rest ds ->
  header_params_loop n i rest g = (g, separated ", " ds, Ok tt).
Proof.
  induction rest as [| param rest IH]; intros i ds Hi Hfree HF;
    inversion HF; subst.
  - reflexivity.
  - inversion Hfree as [| ? ? [Hcb _] Hfree']; subst.
    match goal with
    | H : param_decl _ _ = Ok _ |- _ =>
        apply param_decl_ok in H; destruct H as (T & HT & ->)
    end.
    rewrite (header_params_loop_cons n i param rest g T);
      [| apply Z.ltb_lt; simpl List.length in Hi; lia | exact HT].
    rewrite Hcb. cbv zeta.
    rewrite (IH (i + 1) l') by
      (try assumption; simpl List.length in Hi; lia).
    unfold state_of, text_of, value_of. cbn [fst snd].
    match goal with H : Forall2 _ rest _ |- _ => inversion H; subst end.
    + replace (i =? n - 1) with true
        by (symmetry; apply Z.eqb_eq; simpl in Hi; lia).
      cbn [negb]. rewrite separated_one. unfold separated.
      rewrite !append_nil_r. reflexivity.
    + replace (i =? n - 1) with false
        by (symmetry; apply Z.eqb_neq; simpl in Hi; lia).
      cbn [negb]. rewrite separated_cons. reflexivity.
Qed.

(** With a callback and its user pointer at the end, the user pointer is
    not listed, and its type is not rendered. *)
Lemma header_params_loop_callback {G : generator} g n cb user :
  callback_param cb ->
  forall front i ds,
    i + Z.of_nat (List.length front) + 2 - n = 0 ->
    callback_free front ->
    Forall2 (fun param d => param_decl (noexceptions g) param = Ok d)
      (front ++ [cb])%list ds ->
    header_params_loop n i (front ++ [cb; user])%list g
    = (g, separated ", " ds, Ok tt).
Proof.
  intros [Hcb _].
  induction front as [| param front IH]; intros i ds Hi Hfree HF;
    inversion HF; subst.
  - match goal with
    | H : param_decl _ _ = Ok _ |- _ =>
        apply param_decl_ok in H; destruct H as (T & HT & ->)
    end.
    match goal with H : Forall2 _ [] _ |- _ => inversion H; subst end.
    cbn [app].
    rewrite (header_params_loop_cons n i cb [user] g T);
      [| apply Z.ltb_lt; simpl List.length in Hi; lia | exact HT].
    rewrite Hcb. cbv zeta. cbn [header_params_loop].
    replace (i + 1 <? n - 1) with false
      by (symmetry; apply Z.ltb_ge; simpl in Hi; lia).
    replace (i =? n - 1 - 1) with true
      by (symmetry; apply Z.eqb_eq; simpl in Hi; lia).
    unfold state_of, text_of, value_of. cbn [fst snd negb ret].
    rewrite separated_one, !append_nil_r. reflexivity.
  - inversion Hfree as [| ? ? [Hp _] Hfree']; subst.
    match goal with
    | H : param_decl _ _ = Ok _ |- _ =>
        apply param_decl_ok in H; destruct H as (T & HT & ->)
    end.
    cbn [app].
    rewrite (header_params_loop_cons n i param _ g T);
      [| apply Z.ltb_lt; simpl List.length in Hi; lia | exact HT].
    rewrite Hp. cbv zeta.
    rewrite (IH (i + 1) l') by
      (try assumption; simpl List.length in Hi; lia).
    unfold state_of, text_of, value_of. cbn [fst snd].
    replace (i =? n - 1) with false
      by (symmetry; apply Z.eqb_neq; simpl List.length in Hi; lia).
    cbn [negb].
    match goal with
    | H : Forall2 _ (front ++ [cb])%list l' |- _ =>
        destruct l' as [| d l'];
        [ apply Forall2_length in H; rewrite length_app in H;
          simpl in H; lia |]
    end.
    rewrite separated_cons. reflexivity.
Qed.

Lemma header_params_loop_exposes {G : generator} g n i params exposed ds :
  i + Z.of_nat (List.length params) = n ->
  exposes params exposed ->
  Forall2 (fun param d => param_decl (noexceptions g) param = Ok d)
    exposed ds ->
  header_params_loop n i params g = (g, separated ", " ds, Ok tt).
Proof.
  intros Hi He HF. destruct He as [params Hfree | front cb user Hfree Hcb].
  - apply header_params_loop_plain; try assumption. lia.
  - apply header_params_loop_callback; try assumption.
    rewrite length_app in Hi. simpl List.length in Hi. lia.
Qed.

(** ** The parts of a header *)

Lemma header_params_loop_run {G : generator} n i rest g g1 P :
  header_params_loop n i rest g = (g1, P, Ok tt) -> g1 = g.
Proof. apply read_only_run, read_only_header_params_loop. Qed.

Lemma print_method_header_parts {G : generator} fuel (clazz : class_ref)
    method fullname is_declaration kind g g1 o :
  print_method_header fuel clazz method fullname is_declaration kind g
  = (g1, o, Ok tt) ->
  exists rettype sub implicit P,
    type2cpp (noexceptions g) (FunctionDecl.getReturnType method) = Ok rettype
    /\ type2cpp_class clazz = Ok sub
    /\ noexceptions g1 = noexceptions g
    /\ header_params_loop (FunctionDecl.getNumParams method)
         (Z.of_nat (first_param kind))
         (skipn (first_param kind) (FunctionDecl.params method)) g1
       = (g1, P, Ok tt)
    /\ o = header_text is_declaration kind implicit
             (synthesized_return_type clazz rettype sub) sub
             (rename_method (method_name clazz method)) P.
Proof.
  intros H0.
  assert (Hgr : grows g g1).
  { pose proof (monotone_print_method_header fuel clazz method fullname
                  is_declaration kind g) as Hm.
    rewrite H0 in Hm. exact Hm. }
  destruct Hgr as [Hn _].
  unfold print_method_header in H0. cbv zeta in H0.
  apply bind_ok in H0. destruct H0 as (g2 & o1 & rt & o2 & H1 & H0 & ->).
  apply type2cpp_m_ok in H1. destruct H1 as (-> & -> & Hrt).
  apply bind_ok in H0. destruct H0 as (g2 & o1 & sub & o3 & H1 & H0 & ->).
  apply lift_ok in H1. destruct H1 as (-> & -> & Hsub).
  apply bind_ok in H0. destruct H0 as (g2 & D & [] & o4 & HD & H0 & ->).
  apply bind_ok in H0. destruct H0 as (g3 & o1 & [b rt'] & o5 & H1 & H0 & ->).
  apply lift_ok in H1. destruct H1 as (-> & -> & Hs).
  apply super2sub_ok in Hs. destruct Hs as [_ Hs]. specialize (Hs sub Hsub).
  subst rt'.
  apply bind_ok in H0. destruct H0 as (g3 & R & [] & o6 & HR & H0 & ->).
  apply bind_ok in H0. destruct H0 as (g4 & C & [] & o7 & HC & H0 & ->).
  apply bind_ok in H0. destruct H0 as (g5 & N & [] & o8 & HN & H0 & ->).
  apply bind_ok in H0. destruct H0 as (g6 & o1 & [] & o9 & H1 & H0 & ->).
  apply osprintf_ok in H1. destruct H1 as (-> & ->).
  apply bind_ok in H0. destruct H0 as (g6 & P & [] & o10 & HP & H0 & ->).
  apply bind_ok in H0. destruct H0 as (g7 & o1 & [] & o11 & H1 & H0 & ->).
  apply osprintf_ok in H1. destruct H1 as (-> & ->).
  apply bind_ok in H0. destruct H0 as (g7 & K & [] & o12 & HK & H0 & ->).
  apply bind_ok in H0. destruct H0 as (g8 & S & [] & o13 & HS & H0 & ->).
  apply osprintf_ok in H0. destruct H0 as (-> & ->).
  apply when_osprintf_ok in HS. destruct HS as (-> & ->).
  apply when_osprintf_ok in HK. destruct HK as (-> & ->).
  pose proof (header_params_loop_run _ _ _ _ _ _ HP). subst g6.
  assert (EN : g5 = g4
               /\ N = if function_kind_eqb kind function_kind_constructor
                      then sub else rename_method (method_name clazz method)).
  { destruct (function_kind_eqb kind function_kind_constructor);
      cbn [negb] in HN; apply osprintf_ok in HN; exact HN. }
  destruct EN as [-> ->].
  apply when_osprintf_ok in HC. destruct HC as (-> & ->).
  apply when_osprintf_ok in HR. destruct HR as (-> & ->).
  assert (ED : exists implicit : bool,
             D = if is_declaration then
                   ("  "
                    ++ (if function_kind_eqb kind function_kind_static_method
                        then "static " else "")
                    ++ "inline "
                    ++ (if function_kind_eqb kind function_kind_constructor
                        then if implicit then "/* implicit */ "
                             else "explicit "
                        else ""))%string
                 else "").
  { destruct is_declaration.
    - apply bind_ok in HD.
      destruct HD as (h1 & p1 & [] & p2 & H1 & HD & ->).
      apply osprintf_ok in H1. destruct H1 as (-> & ->).
      apply bind_ok in HD.
      destruct HD as (h1 & p1 & [] & p3 & H1 & HD & ->).
      apply when_osprintf_ok in H1. destruct H1 as (-> & ->).
      apply bind_ok in HD.
      destruct HD as (h1 & p1 & [] & p4 & H1 & HD & ->).
      apply osprintf_ok in H1. destruct H1 as (-> & ->).
      destruct (function_kind_eqb kind function_kind_constructor).
      + apply bind_ok in HD.
        destruct HD as (h1 & p1 & implicit & p5 & H1 & HD & ->).
        pose proof (silent_run _ _ _ _ _
                      (silent_is_implicit_conversion fuel clazz method) H1).
        subst p1. exists implicit.
        apply either_osprintf_ok in HD. destruct HD as (_ & ->).
        destruct (function_kind_eqb kind function_kind_static_method);
          destruct implicit; text_eq.
      + apply ret_ok in HD. destruct HD as (_ & -> & _). exists false.
        destruct (function_kind_eqb kind function_kind_static_method);
          text_eq.
    - apply ret_ok in HD. destruct HD as (_ & -> & _). exists false.
      reflexivity. }
  destruct ED as [implicit ->].
  exists rt, sub, implicit, P.
  split; [exact Hrt |]. split; [exact Hsub |]. split; [exact Hn |].
  split; [exact HP |].
  unfold header_text.
  destruct is_declaration;
    destruct (function_kind_eqb kind function_kind_static_method);
    destruct (function_kind_eqb kind function_kind_constructor);
    destruct (function_kind_eqb kind function_kind_member_method);
    cbn [negb]; text_eq.
Qed.

Lemma header_params_loop_skipn {G : generator} g first params exposed ds :
  exposes (skipn first params) exposed ->
  Forall2 (fun param d => param_decl (noexceptions g) param = Ok d)
    exposed ds ->
  header_params_loop (Z.of_nat (List.length params)) (Z.of_nat first)
    (skipn first params) g
  = (g, separated ", " ds, Ok tt).
Proof.
  intros He HF.
  destruct (Nat.le_gt_cases first (List.length params)) as [H | H].
  - eapply header_params_loop_exposes; try eassumption.
    rewrite length_skipn. lia.
  - rewrite skipn_all2 in * by lia.
    inversion He as [ps Hfree | front cb user Hfree Hcb E]; subst.
    + inversion HF; subst. reflexivity.
    + destruct front; discriminate.
Qed.

Lemma super2sub_run {G : generator} (clazz : class_ref) rettype sub :
  type2cpp_class clazz = Ok sub ->
  (is_type_subclass clazz = true ->
   exists super, type2cpp_str (isl_class.name clazz) = Ok super) ->
  super2sub clazz rettype
  = Ok (narrows clazz rettype, synthesized_return_type clazz rettype sub).
Proof.
  intros Hsub Hsuper.
  unfold super2sub, synthesized_return_type, narrows.
  destruct (is_type_subclass clazz); cbn [negb andb]; [| reflexivity].
  destruct (Hsuper eq_refl) as [super ->]. cbn [rbind].
  destruct (String.eqb rettype ("isl::" ++ super)); cbn [negb];
    [| reflexivity].
  rewrite Hsub. reflexivity.
Qed.

(** ** The arguments of the call *)

#[export] Hint Unfold argument_use is_null_test validity_check_text
  method_ctx_text result_check_text : text.

Lemma print_method_param_use_run {G : generator} param load_from_this_ptr g :
  print_method_param_use param load_from_this_ptr g
  = (g, argument_use param load_from_this_ptr, Ok tt).
Proof.
  unfold print_method_param_use, argument_use. cbv zeta.
  destruct (extensions
            && QualType.isEnumeralType (ParmVarDecl.getOriginalType param));
    [reflexivity |].
  destruct (QualType.isIntegerType (ParmVarDecl.getOriginalType param));
    [reflexivity |].
  destruct (is_string (ParmVarDecl.getOriginalType param)); [reflexivity |].
  destruct (is_callback (ParmVarDecl.getOriginalType param));
    [run; text_eq |].
  destruct load_from_this_ptr; destruct (keeps param); cbn [negb andb];
    run; text_eq.
Qed.

Lemma param_use_loop_cons {G : generator} kind n i param rest g :
  (i <? n) = true ->
  param_use_loop kind n i (param :: rest) g
  = (let r := param_use_loop kind n (i + 1) rest g in
     (state_of r,
      argument_use param
        ((i =? 0) && function_kind_eqb kind function_kind_member_method)
      ++ (if negb (i =? n - 1) then ", " else "") ++ text_of r,
      value_of r)).
Proof.
  intros Hi. cbn [param_use_loop]. rewrite Hi. cbv zeta.
  destruct (negb (i =? n - 1)); run; rewrite print_method_param_use_run;
    run; destruct (param_use_loop kind n (i + 1) rest g) as [[g1 o1] r1];
    cbn [append]; rewrite ?append_assoc, ?append_nil_r; reflexivity.
Qed.

(** The loop prints the arguments for the parameters below
    [num_params]. *)
Lemma param_use_loop_front {G : generator} kind g n extra : forall front i,
  i + Z.of_nat (List.length front) - n = 0 ->
  param_use_loop kind n i (front ++ extra)%list g
  = (g, separated ", " (argument_uses kind i front), Ok tt).
Proof.
  induction front as [| param front IH]; intros i Hi.
  - cbn [app argument_uses]. destruct extra as [| e extra]; [reflexivity |].
    cbn [param_use_loop].
    replace (i <? n) with false
      by (symmetry; apply Z.ltb_ge; simpl in Hi; lia).
    reflexivity.
  - cbn [app argument_uses].
    rewrite param_use_loop_cons
      by (apply Z.ltb_lt; simpl List.length in Hi; lia).
    cbv zeta. rewrite (IH (i + 1)) by (simpl List.length in Hi; lia).
    unfold state_of, text_of, value_of. cbn [fst snd].
    destruct front as [| p2 front].
    + replace (i =? n - 1) with true
        by (symmetry; apply Z.eqb_eq; simpl in Hi; lia).
      cbn [negb argument_uses]. rewrite separated_one.
      unfold separated. rewrite !append_nil_r. reflexivity.
    + replace (i =? n - 1) with false
        by (symmetry; apply Z.eqb_neq; simpl in Hi; lia).
      cbn [negb argument_uses]. rewrite separated_cons. reflexivity.
Qed.

(** Without callbacks the first loop of a definition prints nothing and
    changes nothing. *)
Lemma callback_locals_loop_plain {G : generator} g : forall rest n i hc,
  callback_free rest ->
  callback_locals_loop n i hc rest g = (g, "", Ok (n, hc)).
Proof.
  induction rest as [| param rest IH]; intros n i hc Hfree.
  - reflexivity.
  - inversion Hfree as [| ? ? [_ Hcb] Hfree']; subst.
    cbn [callback_locals_loop]. rewrite Hcb.
    destruct (i <? n); [apply IH; exact Hfree' | reflexivity].
Qed.

(** With a callback and its user pointer at the end, the first loop
    prints the locals of the callback and takes the user pointer out of
    the count. *)
Lemma callback_locals_loop_callback {G : generator} g n cb user :
  callback_param cb ->
  forall front i hc g1 L n' hc',
    i + Z.of_nat (List.length front) + 2 - n = 0 ->
    callback_free front ->
    callback_locals_loop n i hc (front ++ [cb; user])%list g
    = (g1, L, Ok (n', hc')) ->
    n' = n - 1 /\ hc' = true /\ print_callback_local cb g = (g, L, Ok tt).
Proof.
  intros [_ Hcb].
  induction front as [| param front IH]; intros i hc g1 L n' hc' Hi Hfree Hrun.
  - cbn [app callback_locals_loop] in Hrun. rewrite Hcb in Hrun.
    replace (i <? n) with true in Hrun
      by (symmetry; apply Z.ltb_lt; simpl in Hi; lia).
    replace (i + 1 <? n - 1) with false in Hrun
      by (symmetry; apply Z.ltb_ge; simpl in Hi; lia).
    apply bind_ok in Hrun.
    destruct Hrun as (g2 & o1 & [] & o2 & H1 & Hrun & ->).
    pose proof (read_only_run _ _ _ _ _ (read_only_print_callback_local cb)
                  H1); subst g2.
    apply ret_ok in Hrun. destruct Hrun as (_ & -> & Hr).
    injection Hr as -> ->. rewrite append_nil_r. auto.
  - inversion Hfree as [| ? ? [_ Hp] Hfree']; subst.
    cbn [app callback_locals_loop] in Hrun. rewrite Hp in Hrun.
    replace (i <? n) with true in Hrun
      by (symmetry; apply Z.ltb_lt; simpl List.length in Hi; lia).
    eapply IH; [| exact Hfree' | exact Hrun].
    simpl List.length in Hi. lia.
Qed.

(** ** The validity check of any kind of method *)

Lemma validity_loop_tests {G : generator} kind g : forall rest i first,
  0 <= i ->
  (i =? 0) && function_kind_eqb kind function_kind_member_method = false ->
  validity_loop kind i first rest g
  = (g,
     match map is_null_test (filter checked_argument rest) with
     | [] => ""
     | tests => (if first then "  if (" else " || ") ++ separated " || " tests
     end,
     Ok (first
         && match filter checked_argument rest with
            | [] => true
            | _ => false
            end)).
Proof.
  induction rest as [| param rest IH]; intros i first Hi Hthis.
  - cbn. rewrite andb_true_r. reflexivity.
  - assert (Hnext : (i + 1 =? 0) && function_kind_eqb kind
                                      function_kind_member_method = false).
    { replace (i + 1 =? 0) with false; [reflexivity |].
      symmetry. apply Z.eqb_neq. lia. }
    cbn [validity_loop filter]. cbv zeta. rewrite Hthis. cbn [negb andb].
    change (checked_argument param)
      with (is_isl_type (ParmVarDecl.getOriginalType param)
            && negb (is_isl_ctx (ParmVarDecl.getOriginalType param))).
    destruct (is_isl_type (ParmVarDecl.getOriginalType param));
      [destruct (is_isl_ctx (ParmVarDecl.getOriginalType param)) |];
      cbn [andb orb negb].
    + apply IH; [lia | exact Hnext].
    + rewrite andb_false_r. cbn [map].
      destruct first; run;
        rewrite (IH (i + 1) false) by (try lia; exact Hnext); run;
        (destruct (filter checked_argument rest) as [| p2 ps]; cbn [map];
         [rewrite separated_one | rewrite separated_cons]);
        unfold is_null_test; text_eq.
    + rewrite orb_true_r. apply IH; [lia | exact Hnext].
Qed.

Lemma save_ctx_loop_run {G : generator} g : forall params,
  save_ctx_loop params g = (g, saved_ctx_text params, Ok tt).
Proof.
  unfold saved_ctx_text.
  induction params as [| param rest IH]; [reflexivity |].
  cbn [save_ctx_loop List.find]. cbv zeta.
  destruct (is_isl_type (ParmVarDecl.getOriginalType param)); cbn [negb].
  - reflexivity.
  - exact IH.
Qed.

Lemma print_method_ctx_run {G : generator} method kind first rest g :
  FunctionDecl.params method = first :: rest ->
  print_method_ctx method kind g = (g, method_ctx_text kind first, Ok tt).
Proof.
  intros Hp. unfold print_method_ctx, getParamDecl, method_ctx_text.
  rewrite Hp. cbn [nth_error expect]. rewrite bind_lift. cbv zeta.
  destruct (function_kind_eqb kind function_kind_member_method);
    [reflexivity |].
  destruct (is_isl_ctx (ParmVarDecl.getOriginalType first)); reflexivity.
Qed.

(** ** What the passes do to the class map *)

Lemma map_find_index m k k' c :
  map_find m k' = Some c -> map_find (map_index m k) k' = Some c.
Proof.
  intros H. unfold map_index. destruct (map_find m k) eqn:Hk; [exact H |].
  rewrite map_find_insert by exact Hk.
  destruct (String.eqb k' k) eqn:E; [| exact H].
  apply String.eqb_eq in E. subst k'. congruence.
Qed.

Lemma map_find_index_inv m k k' c :
  map_find (map_index m k) k' = Some c ->
  map_find m k' = Some c
  \/ (map_find m k' = None /\ c = isl_class.default).
Proof.
  unfold map_index. destruct (map_find m k) eqn:Hk; [auto |].
  rewrite map_find_insert by exact Hk.
  destruct (String.eqb k' k) eqn:E; [| auto].
  apply String.eqb_eq in E. subst k'. intros H. injection H as <-. auto.
Qed.

Lemma map_find_grows m m' :
  map_grows m m' ->
  forall k c, map_find m k = Some c -> map_find m' k = Some c.
Proof.
  induction 1; intros k0 c Hf; [exact Hf |].
  apply map_find_index. apply IHmap_grows. exact Hf.
Qed.

Lemma map_find_grows_inv m m' :
  map_grows m m' ->
  forall k c,
    map_find m' k = Some c ->
    map_find m k = Some c
    \/ (map_find m k = None /\ c = isl_class.default).
Proof.
  induction 1; intros k0 c Hf; [auto |].
  apply map_find_index_inv in Hf. destruct Hf as [Hf | [Hf ->]].
  - apply IHmap_grows. exact Hf.
  - destruct (map_find m k0) as [c0 |] eqn:E; [| auto].
    apply (map_find_grows _ _ H) in E. congruence.
Qed.

Lemma monotone_generate {G : generator} fuel : monotone (generate fuel).
Proof.
  unfold generate.
  apply monotone_bind; [apply monotone_read_only, read_only_osprintf |].
  intros _.
  apply monotone_bind; [apply monotone_read_only, read_only_osprintf |].
  intros _.
  apply monotone_bind; [apply monotone_read_only, read_only_read |].
  intros noexc.
  apply monotone_bind;
    [destruct noexc; apply monotone_read_only;
     [apply read_only_osprintf | apply read_only_ret] |].
  intros _.
  apply monotone_bind;
    [apply monotone_read_only, read_only_print_forward_declarations |].
  intros _.
  apply monotone_bind; [apply monotone_read_only, read_only_osprintf |].
  intros _.
  apply monotone_bind; [apply monotone_print_declarations |].
  intros _.
  apply monotone_bind; [apply monotone_read_only, read_only_osprintf |].
  intros _.
  apply monotone_bind;
    [apply monotone_read_only, read_only_print_implementations |].
  intros _.
  apply monotone_bind; [apply monotone_read_only, read_only_read |].
  intros noexc'.
  apply monotone_bind;
    [destruct noexc'; apply monotone_read_only;
     [apply read_only_osprintf | apply read_only_ret] |].
  intros _. apply monotone_read_only, read_only_osprintf.
Qed.

(** ** How a definition ends *)

Lemma print_method_return_ends {G : generator} method kind rettype_str
    returns_super has_callback g g1 R :
  print_method_return method kind rettype_str returns_super has_callback g
  = (g1, R, Ok tt) ->
  if function_kind_eqb kind function_kind_constructor then
    R = "  ptr = res;" ++ nl
  else exists B E, R = B ++ "  return " ++ E ++ ";" ++ nl.
Proof.
  unfold print_method_return. cbv zeta. rewrite bind_read.
  destruct (function_kind_eqb kind function_kind_constructor).
  { intros H. injection H as _ <-. reflexivity. }
  destruct (is_isl_type (FunctionDecl.getReturnType method)
            || noexceptions g
               && is_isl_bool (FunctionDecl.getReturnType method)).
  { destruct returns_super; intros H; injection H as _ <-.
    - exists "", ("manage(res).as<" ++ rettype_str ++ ">()"). text_eq.
    - exists "", "manage(res)". reflexivity. }
  destruct has_callback.
  { intros H; injection H as _ <-.
    exists "", (rettype_str ++ "(res)"). text_eq. }
  destruct (is_string (FunctionDecl.getReturnType method)).
  { destruct (gives method); run; intros H; injection H as _ <-.
    - exists ("  std::string tmp(res);" ++ nl ++ "  free(res);" ++ nl), "tmp".
      text_eq.
    - exists ("  std::string tmp(res);" ++ nl), "tmp". text_eq. }
  destruct (is_isl_enum (FunctionDecl.getReturnType method)).
  { intros H. apply bind_ok in H.
    destruct H as (g2 & o1 & typestr & o2 & H1 & H & ->).
    apply lift_ok in H1. destruct H1 as (-> & -> & _).
    apply osprintf_ok in H. destruct H as (_ & ->).
    exists "", ("static_cast<" ++ typestr ++ ">(res)"). text_eq. }
  intros H; injection H as _ <-. exists "", "res". reflexivity.
Qed.
(** ** The handle accessors (C10) *)

(** C10.  For a class that is not a type-tag subclass the accessor
    declarations are exactly six lines, the second of which declares
    [copy()] on an r-value receiver as deleted, and the implementations
    define [copy()] for l-value receivers only; for a type-tag subclass
    neither the declarations nor the implementations print anything.
    The generator object is left as it was. *)
Theorem C10_copy_deleted_for_rvalues {G : generator}
    (clazz : class_ref) (g : cpp_generator) :
  let name := isl_class.name clazz in
  print_ptr_decl clazz g =
    (g,
     (if is_type_subclass clazz then ""
      else
        "  inline __isl_give " ++ name ++ " *copy() const &;" ++ nl
        ++ "  inline __isl_give " ++ name ++ " *copy() && = delete;" ++ nl
        ++ "  inline __isl_keep " ++ name ++ " *get() const;" ++ nl
        ++ "  inline __isl_give " ++ name ++ " *release();" ++ nl
        ++ "  inline bool is_null() const;" ++ nl
        ++ "  inline explicit operator bool() const;" ++ nl)%string,
     Ok tt)
  /\ (forall cppname, type2cpp_class clazz = Ok cppname ->
      print_ptr_impl clazz g =
        (g,
         (if is_type_subclass clazz then ""
          else
            "__isl_give " ++ name ++ " *" ++ cppname ++ "::copy() const & {"
            ++ nl
            ++ "  return " ++ name ++ "_copy(ptr);" ++ nl
            ++ "}" ++ nl ++ nl
            ++ "__isl_keep " ++ name ++ " *" ++ cppname ++ "::get() const {"
            ++ nl
            ++ "  return ptr;" ++ nl
            ++ "}" ++ nl ++ nl
            ++ "__isl_give " ++ name ++ " *" ++ cppname ++ "::release() {"
            ++ nl
            ++ "  " ++ name ++ " *tmp = ptr;" ++ nl
            ++ "  ptr = nullptr;" ++ nl
            ++ "  return tmp;" ++ nl
            ++ "}" ++ nl ++ nl
            ++ "bool " ++ cppname ++ "::is_null() const {" ++ nl
            ++ "  return ptr == nullptr;" ++ nl
            ++ "}" ++ nl
            ++ cppname ++ "::operator bool() const" ++ nl
            ++ "{" ++ nl
            ++ "  return !is_null();" ++ nl
            ++ "}" ++ nl)%string,
         Ok tt)).
Proof.
  intros name. subst name. split.
  - unfold print_ptr_decl. destruct (is_type_subclass clazz).
    + reflexivity.
    + run. text_eq.
  - intros cppname Hc. unfold print_ptr_impl. rewrite Hc.
    destruct (is_type_subclass clazz).
    + reflexivity.
    + run. text_eq.
Qed.

(** ** The type mapper (C5, C7) *)

(** C5.  A type that the base class recognises as [isl_bool] (and not as
    an isl object type, which is tested first) is rendered as [bool] in
    exception mode and as [isl::boolean] in status-code mode; a type
    recognised as [isl_stat] is rendered as [void] in exception mode and
    as [isl::stat] in status-code mode.  Inside a printer the mode is the
    member [noexceptions] of the generator object, and the request leaves
    that object as it was and prints nothing. *)
Theorem C5_bool_and_stat_rendering {G : generator}
    (g : cpp_generator) (type : QualType.t) :
  is_isl_type type = false ->
  (is_isl_bool type = true ->
   type2cpp_m type g =
     (g, "", Ok (if noexceptions g then "isl::boolean" else "bool")))
  /\ (is_isl_bool type = false -> is_isl_stat type = true ->
      type2cpp_m type g =
        (g, "", Ok (if noexceptions g then "isl::stat" else "void")))
  /\ isl_bool2cpp (noexceptions g)
     = (if noexceptions g then "isl::boolean" else "bool").
Proof.
  intros Ht. unfold type2cpp_m. run. split; [| split].
  - intros Hb. destruct type; simpl; rewrite Ht, Hb; reflexivity.
  - intros Hb Hs. destruct type; simpl; rewrite Ht, Hb, Hs; reflexivity.
  - reflexivity.
Qed.

Lemma C5_witness :
  type2cpp_m ty_bool (mk_gen false []) = (mk_gen false [], "", Ok "bool")
  /\ type2cpp_m ty_bool (mk_gen true [])
     = (mk_gen true [], "", Ok "isl::boolean")
  /\ type2cpp_m ty_stat (mk_gen false []) = (mk_gen false [], "", Ok "void")
  /\ type2cpp_m ty_stat (mk_gen true []) = (mk_gen true [], "", Ok "isl::stat").
Proof.
  pose proof (C5_bool_and_stat_rendering (mk_gen false []) ty_bool eq_refl)
    as [B0 _].
  pose proof (C5_bool_and_stat_rendering (mk_gen true []) ty_bool eq_refl)
    as [B1 _].
  pose proof (C5_bool_and_stat_rendering (mk_gen false []) ty_stat eq_refl)
    as [_ [S0 _]].
  pose proof (C5_bool_and_stat_rendering (mk_gen true []) ty_stat eq_refl)
    as [_ [S1 _]].
  exact (conj (B0 eq_refl)
           (conj (B1 eq_refl)
              (conj (S0 eq_refl eq_refl) (S1 eq_refl eq_refl)))).
Defined.

(** C7.  For a type that is no isl object type, not [isl_bool], not
    [isl_stat], no enumeration, not the context, no integer, no string and
    no callback, [type2cpp] calls [die] in either mode.  The request has
    no value: whatever follows it in a printer is not run and nothing
    more is printed, so the header and the body of a method that returns
    such a type end the run with this failure before any text, and no run
    of the generator over a class with such a method comes to its end. *)
Theorem C7_unrecognized_type_is_fatal {G : generator} (fuel : nat)
    (g : cpp_generator) (type : QualType.t) :
  unrecognized type ->
  type2cpp (noexceptions g) type = Fail cannot_convert
  /\ (forall A (k : string -> M A),
        bind (type2cpp_m type) k g = (g, "", Fail cannot_convert))
  /\ (forall clazz method fullname is_declaration kind,
        FunctionDecl.getReturnType method = type ->
        print_method_header fuel clazz method fullname is_declaration kind g
          = (g, "", Fail cannot_convert)
        /\ print_method_impl fuel clazz fullname method kind g
          = (g, "", Fail cannot_convert))
  /\ (forall k c method,
        keys_sorted (classes g) = true ->
        In (k, c) (classes g) ->
        method_of c method ->
        FunctionDecl.getReturnType method = type ->
        forall g' out, generate fuel g <> (g', out, Ok tt)).
Proof.
  intros (H1 & H2 & H3 & H4 & H5 & H6 & H7 & H8).
  assert (E : forall noexc, type2cpp noexc type = Fail cannot_convert).
  { intros noexc. destruct type; simpl in *; subst;
      rewrite H1, H2, H3, H5, H7, H8; reflexivity. }
  assert (Em : forall g0, type2cpp_m type g0 = (g0, "", Fail cannot_convert)).
  { intros g0. unfold type2cpp_m. run. rewrite E. reflexivity. }
  split; [apply E | split; [| split]].
  - intros A k. apply bind_fail. apply Em.
  - intros clazz method fullname is_declaration kind Hr. split.
    + unfold print_method_header. rewrite Hr. apply bind_fail. apply Em.
    + unfold print_method_impl. rewrite Hr. apply bind_fail. apply Em.
  - intros k c method Hs Hin Hm Hr g' out Hrun.
    apply generate_ok in Hrun; [| exact Hs].
    destruct Hrun as (_ & names & decls & impls & _ & _ & Himpls & _).
    destruct (Forall2_in_l _ _ _ Himpls (k, c) Hin) as (t & Ht).
    destruct (print_class_impl_ok_methods _ _ _ _ _ method Ht Hm)
      as (fullname & g0 & g1 & o & Hi).
    unfold print_method_impl in Hi. rewrite Hr in Hi.
    erewrite bind_fail in Hi by apply Em. discriminate Hi.
Qed.

Lemma C7_witness :
  type2cpp false ty_double = Fail cannot_convert
  /\ type2cpp true ty_double = Fail cannot_convert.
Proof.
  assert (U : unrecognized ty_double) by (repeat split; reflexivity).
  exact (conj
           (proj1 (C7_unrecognized_type_is_fatal 0 (mk_gen false [])
                     ty_double U))
           (proj1 (C7_unrecognized_type_is_fatal 0 (mk_gen true [])
                     ty_double U))).
Defined.

(** ** Validity of the arguments (C1) *)



(** ** Exceptions raised inside callbacks (C2) *)

(** C2.  The locals of a callback parameter are printed as stated: the
    context record, with the slot [eptr] in exception mode only, and the
    trampoline, which in exception mode invokes the closure inside
    [try], stores the current exception in [data->eptr] in its
    [catch (...)] and returns [isl_stat_error], [isl_bool_error] or
    [NULL] by the return type of the callback, and which in status-code
    mode invokes the closure without [try].  In a definition printed
    to its end for a method whose last two parameters are a callback
    and its user pointer, these locals stand right before the call, and
    the call passes the trampoline and the address of the record.  In
    status-code mode the check after the call prints nothing, and the
    definition of [foreach_basic_set] is printed to its end.  In
    exception mode the check
    after the call is not printed as stated: for a callback parameter
    the loop of [print_exceptional_execution_check] takes [c_str()] of a
    temporary string and prints through that pointer after the string
    was destroyed, so what the two lines of the check name is not
    defined, and no definition of a method with a callback parameter is
    printed to its end in a defined way.  The method
    [foreach_basic_set] with a callback parameter of 25 characters is
    such a case. *)
Theorem C2_rethrow_check_reads_a_destroyed_name {G : generator}
    (g : cpp_generator) :
  (forall param callback rtype args c_args cpp_args,
     getAs_FunctionProtoType (ParmVarDecl.getType param)
     = Some (callback, rtype, args) ->
     generate_callback_args (noexceptions g) (ParmVarDecl.getType param) false
     = Ok c_args ->
     generate_callback_type (noexceptions g) (ParmVarDecl.getType param)
     = Ok cpp_args ->
     let pname := ParmVarDecl.getName param in
     let call := closure_call_text callback args in
     print_callback_local param g
     = (g,
        ("  struct " ++ pname ++ "_data {" ++ nl
         ++ "    const " ++ cpp_args ++ " *func;" ++ nl
         ++ (if noexceptions g then ""
             else "    std::exception_ptr eptr;" ++ nl)
         ++ "  } " ++ pname ++ "_data = { &" ++ pname ++ " };" ++ nl
         ++ "  auto " ++ pname ++ "_lambda = [](" ++ c_args ++ ") -> "
         ++ QualType.getAsString rtype ++ " {" ++ nl
         ++ "    auto *data = static_cast<struct " ++ pname
         ++ "_data *>(arg_" ++ to_string (Z.of_nat (List.length args) - 1)
         ++ ");" ++ nl
         ++ (if noexceptions g then
               "    auto ret = " ++ call ++ ";" ++ nl
               ++ (if is_isl_stat rtype then
                     "    return isl_stat(ret);" ++ nl
                   else "    return ret.release();" ++ nl)
             else
               "    try {" ++ nl
               ++ (if is_isl_stat rtype then
                     "      " ++ call ++ ";" ++ nl
                     ++ "      return isl_stat_ok;" ++ nl
                   else if is_isl_bool rtype then
                     "      auto ret = " ++ call ++ ";" ++ nl
                     ++ "      return ret ? isl_bool_true : isl_bool_false;"
                     ++ nl
                   else
                     "      auto ret = " ++ call ++ ";" ++ nl
                     ++ "      return ret.release();" ++ nl)
               ++ "    } catch (...) {" ++ nl
               ++ "      data->eptr = std::current_exception();" ++ nl
               ++ "      return "
               ++ (if is_isl_stat rtype then "isl_stat_error"
                   else if is_isl_bool rtype then "isl_bool_error"
                   else "NULL")
               ++ ";" ++ nl
               ++ "    }" ++ nl)
         ++ "  };" ++ nl)%string,
        Ok tt))
  /\ (forall fuel clazz fullname method kind front cb user g' out,
        FunctionDecl.params method = (front ++ [cb; user])%list ->
        callback_free front ->
        callback_param cb ->
        print_method_impl fuel clazz fullname method kind g
        = (g', out, Ok tt) ->
        exists P L Y,
          print_callback_local cb g = (g, L, Ok tt)
          /\ out = (P ++ L ++ "  auto res = " ++ FunctionDecl.getName method
                    ++ "("
                    ++ separated ", " (argument_uses kind 0 (front ++ [cb]))
                    ++ ");" ++ nl ++ Y)%string)
  /\ (noexceptions g = true ->
      forall method kind,
        print_exceptional_execution_check method kind g = (g, "", Ok tt))
  /\ (exists out,
        ex_foreach_impl ex_gen_noexceptions
        = (ex_gen_noexceptions, out, Ok tt))
  /\ (noexceptions g = false ->
      forall method kind,
        has_callback_parameter (FunctionDecl.params method) = true ->
        print_exceptional_execution_check method kind g
        = (g, "", Fail dangling_name)
        /\ forall fuel clazz fullname g' out,
             print_method_impl fuel clazz fullname method kind g
             <> (g', out, Ok tt))
  /\ value_of (print_method_impl (G := isl_generator) 0 ex_set_ref
                 "foreach_basic_set" ex_foreach_long_name
                 function_kind_member_method ex_gen)
     = Fail dangling_name.
Proof.
  split; [| split; [| split; [| split; [| split]]]].
  - intros param callback rtype args c_args cpp_args Hf Hc Ht pname call.
    subst pname call. unfold print_callback_local. cbv zeta.
    unfold read. erewrite bind_run by reflexivity.
    rewrite Hc, Ht, Hf. unfold lift, expect, closure_call_text.
    destruct (noexceptions g) eqn:Hn; cbn [negb]; run;
      rewrite print_wrapped_call_run, Hn;
      unfold guarded_call, unguarded_call, closure_invocation,
        failure_sentinel;
      destruct (is_isl_stat rtype); try destruct (is_isl_bool rtype);
      text_eq.
  - intros fuel clazz fullname method kind front cb user g' out Hp Hfree Hcb
      Hrun.
    apply print_method_impl_ok in Hrun.
    destruct Hrun as
      (_ & rt & rs & rt' & np & hc & H & V & S & E & L & A & X & R
         & _ & _ & _ & _ & _ & _ & HL & HA & _ & _ & ->).
    unfold FunctionDecl.getNumParams in HL. rewrite Hp in HL, HA.
    destruct (callback_locals_loop_callback g
                (Z.of_nat (List.length (front ++ [cb; user])%list))
                cb user Hcb front 0 false g L np hc) as (-> & _ & HLoc);
      [rewrite length_app; simpl List.length; lia | exact Hfree
      | exact HL |].
    pose proof (param_use_loop_front kind g
                  (Z.of_nat (List.length (front ++ [cb; user])%list) - 1)
                  [user] (front ++ [cb])%list 0) as HA'.
    rewrite <- app_assoc in HA'. cbn [app] in HA'.
    rewrite HA' in HA by (rewrite !length_app; simpl List.length; lia).
    injection HA as <-.
    exists (H ++ "{" ++ nl ++ V ++ S ++ E)%string, L,
      (X ++ R ++ "}" ++ nl)%string.
    split; [exact HLoc | text_eq].
  - intros Hn method kind.
    apply print_exceptional_execution_check_noexceptions. exact Hn.
  - eexists. vm_compute. reflexivity.
  - intros Hn method kind Hc.
    pose proof (print_exceptional_execution_check_callback method kind g Hn Hc)
      as HX.
    split; [exact HX |].
    intros fuel clazz fullname g' out Hrun.
    apply print_method_impl_ok in Hrun.
    destruct Hrun as
      (_ & rt & rs & rt' & np & hc & H & V & S & E & L & A & X & R
         & _ & _ & _ & _ & _ & _ & _ & _ & HX' & _).
    rewrite HX in HX'. discriminate HX'.
  - vm_compute. reflexivity.
Qed.

(** ** Return types of the methods of a type-tag subclass (C3) *)



(** ** Downcasts (C6) *)

(** C6.  In status-code mode the definition of [as] that is printed for
    the class of schedule nodes tests the receiver, but the statement
    under the test is the expression [T();] and not a return: on a null
    receiver [as] does not hand back an empty object there and goes on to
    evaluate [isa<T>() ? T(copy()) : T()].  (The definition of [isa]
    returns [isl::boolean()] under the same test.) *)
Theorem C6_as_does_not_return_on_null_receiver :
  print_downcast_impl ex_node_ref ex_gen_noexceptions
  = (ex_gen_noexceptions,
     ("template <class T>" ++ nl
      ++ "isl::boolean schedule_node::isa()" ++ nl
      ++ "{" ++ nl
      ++ "  if (is_null())" ++ nl
      ++ "    return isl::boolean();" ++ nl
      ++ "  return isl_schedule_node_get_type(get()) == T::type;" ++ nl
      ++ "}" ++ nl
      ++ "template <class T>" ++ nl
      ++ "T schedule_node::as()" ++ nl
      ++ "{" ++ nl
      ++ "  if (is_null())" ++ nl
      ++ "    T();" ++ nl
      ++ "  return isa<T>() ? T(copy()) : T();" ++ nl
      ++ "}" ++ nl)%string,
     Ok true).
Proof.
  rewrite (print_downcast_impl_run ex_node_ref ex_gen_noexceptions
             "schedule_node" eq_refl).
  reflexivity.
Qed.

(** ** Implicit and explicit constructors (C4) *)

(** C4.  Take a constructor with a first parameter such that, if that
    parameter is of an isl object type other than the context, the type
    is a pointer type and the steps from the class it points to to its
    superclasses come to an end.  Then, with fuel enough for the work
    list, [is_implicit_conversion] returns [true] if and only if the
    constructor has exactly one parameter, of an isl object type other
    than the context, whose class reaches the class being constructed by
    one or more steps to a superclass; and the declaration of the
    constructor is printed with the comment [implicit] in that case and
    with the keyword [explicit] in every other. *)
Theorem C4_implicit_iff_single_subclass_parameter {G : generator}
    (g : cpp_generator) (clazz : class_ref) (cons : FunctionDecl.t)
    (param : ParmVarDecl.t) (rest : list ParmVarDecl.t) :
  FunctionDecl.params cons = param :: rest ->
  ancestry_known (classes g) param ->
  exists fuel0 implicit,
    (implicit = true <->
     converts_from_subclass (classes g) (addr clazz) cons)
    /\ forall fuel, (fuel0 <= fuel)%nat ->
         (exists g',
            is_implicit_conversion fuel clazz cons g = (g', "", Ok implicit)
            /\ grows g g')
         /\ (forall fullname g2 o,
               print_method_header fuel clazz cons fullname true
                 function_kind_constructor g = (g2, o, Ok tt) ->
               exists classname params,
                 o = constructor_decl_text implicit classname params).
Proof.
  intros Hp Hknown.
  destruct (is_implicit_conversion_decides g clazz cons param rest Hp Hknown)
    as (fuel0 & b & Hb & Hrun).
  exists fuel0, b. split; [exact Hb |].
  intros fuel Hfuel. destruct (Hrun fuel Hfuel) as (g' & E & Hgr).
  split; [exists g'; auto |].
  intros fullname g2 o Ho. apply constructor_decl_ok in Ho.
  destruct Ho as (g1 & b' & classname & params & Hi & _ & ->).
  rewrite E in Hi. injection Hi as _ <-. eauto.
Qed.

Lemma C4_witness :
  exists fuel0 implicit,
    (implicit = true <->
     converts_from_subclass ex_classes "isl_set" ex_from_basic_set)
    /\ forall fuel, (fuel0 <= fuel)%nat ->
         (exists g',
            is_implicit_conversion fuel ex_set_ref ex_from_basic_set ex_gen
              = (g', "", Ok implicit)
            /\ grows ex_gen g')
         /\ (forall fullname g2 o,
               print_method_header fuel ex_set_ref ex_from_basic_set fullname
                 true function_kind_constructor ex_gen = (g2, o, Ok tt) ->
               exists classname params,
                 o = constructor_decl_text implicit classname params).
Proof.
  apply (C4_implicit_iff_single_subclass_parameter ex_gen ex_set_ref
           ex_from_basic_set (parm "bset" ty_basic_set ["isl_take"]) []
           eq_refl).
  intros _ _. exists (QualType.Plain "isl_basic_set" false false).
  split; [reflexivity |].
  constructor. intros k' [<- | []].
  constructor. intros k' [].
Defined.

(** ** The output as a whole (C8) *)



(** ** The model during a run (C9) *)

(** C9.  Over a resolved class map, one in which every superclass and
    every class that a constructor converts from has an entry, no part
    of a run changes the generator object, whatever the fuel and
    whether the run comes to its end or not: the mode, the class map
    and every field of every class are after the declaration of a
    class, after the implementations of a class, after all declarations
    and after the whole of [generate] what they were before.  And over
    any class map in key order, a run of [generate] that comes to its
    end has left the generator object as it was. *)
Theorem C9_generation_leaves_the_model_unchanged {G : generator}
    (fuel : nat) (g : cpp_generator) :
  (resolved (classes g) = true ->
   state_of (generate fuel g) = g
   /\ state_of (print_forward_declarations fuel g) = g
   /\ state_of (print_declarations fuel g) = g
   /\ state_of (print_implementations fuel g) = g
   /\ forall k c,
        map_find (classes g) k = Some c ->
        state_of (print_class fuel (mk_ref k c) g) = g
        /\ state_of (print_class_impl fuel (mk_ref k c) g) = g)
  /\ (keys_sorted (classes g) = true ->
      forall g' out, generate fuel g = (g', out, Ok tt) -> g' = g).
Proof.
  split.
  - intros Hr.
    split; [apply generate_resolved; exact Hr |].
    split; [apply read_only_print_forward_declarations |].
    split; [apply print_declarations_resolved; exact Hr |].
    split; [apply read_only_print_implementations |].
    intros k c Hf. split.
    + apply print_class_resolved; [exact Hr |].
      exact (resolved_class g Hr k c Hf).
    + apply read_only_print_class_impl.
  - intros Hs g' out Hrun. apply generate_ok in Hrun; [| exact Hs].
    apply Hrun.
Qed.

Lemma C9_witness :
  state_of (generate 2 ex_gen) = ex_gen
  /\ state_of (generate 2 ex_gen_noexceptions) = ex_gen_noexceptions.
Proof.
  split.
  - exact (proj1 (proj1 (C9_generation_leaves_the_model_unchanged 2%nat ex_gen)
                    eq_refl)).
  - exact (proj1 (proj1 (C9_generation_leaves_the_model_unchanged 2%nat
                           ex_gen_noexceptions) eq_refl)).
Defined.
(** * Further properties of the printers *)


(** X1.  [rename_method] never hands back a name of the left column of
    [rename_map] (the reserved words [union] and [delete]); a name that
    is not in that column is handed back as it is; and renaming a renamed
    name changes nothing. *)
Theorem X1_rename_method_avoids_reserved_words (name : string) :
  ~ In (rename_method name) (map fst rename_map)
  /\ (~ In name (map fst rename_map) -> rename_method name = name)
  /\ rename_method (rename_method name) = rename_method name.
Proof.
  unfold rename_method, rename_map. cbn [rename_lookup map fst In].
  destruct (String.eqb name "union") eqn:Eu.
  - repeat split; try reflexivity.
    + intros [H | [H | []]]; discriminate H.
    + apply String.eqb_eq in Eu. intros H. exfalso. apply H. auto.
  - destruct (String.eqb name "delete") eqn:Ed.
    + repeat split; try reflexivity.
      * intros [H | [H | []]]; discriminate H.
      * apply String.eqb_eq in Ed. intros H. exfalso. apply H. auto.
    + rewrite Eu, Ed. repeat split; try reflexivity.
      apply String.eqb_neq in Eu, Ed.
      intros [H | [H | []]]; congruence.
Qed.

(** X2.  [type2cpp] of a name drops its first four characters, whatever
    they are: the name is those four characters followed by the result.
    It ends with [std::out_of_range] exactly when the name has fewer than
    four characters, and a name that starts with [isl_] is mapped to what
    follows the prefix. *)
Theorem X2_type2cpp_of_a_name_drops_four_characters (type_str : string) :
  (forall s, type2cpp_str type_str = Ok s ->
     type_str = substring 0 4 type_str ++ s
     /\ String.length type_str = (4 + String.length s)%nat)
  /\ ((String.length type_str < 4)%nat <->
      type2cpp_str type_str = Fail OutOfRange)
  /\ (forall e, type2cpp_str type_str = Fail e -> e = OutOfRange)
  /\ forall s, type2cpp_str ("isl_" ++ s) = Ok s.
Proof.
  unfold type2cpp_str. split; [| split; [| split]].
  - intros s H.
    destruct (substr type_str 4) as [r |] eqn:E; [| discriminate].
    cbn [expect] in H. injection H as <-. apply (substr_some 4 _ _ E).
  - split.
    + intros H. apply substr_none in H. rewrite H. reflexivity.
    + intros H. apply substr_none.
      destruct (substr type_str 4); [discriminate | reflexivity].
  - intros e H. destruct (substr type_str 4); cbn [expect] in H; congruence.
  - intros s. destruct s; reflexivity.
Qed.

(** X3.  The name of an enumeration type is rendered by replacing the
    first occurrence of [isl_] in its spelling by [isl::], in either
    mode; for a spelling without [isl_] the request ends with
    [std::out_of_range]. *)
Theorem X3_enum_rendering_replaces_first_isl_prefix {G : generator}
    (noexc : bool) (type : QualType.t) :
  is_isl_type type = false ->
  is_isl_bool type = false ->
  is_isl_stat type = false ->
  QualType.isEnumeralType type = true ->
  (forall r, type2cpp noexc type = Ok r ->
     exists pre post,
       QualType.getAsString type = pre ++ "isl_" ++ post
       /\ r = pre ++ "isl::" ++ post
       /\ forall p, (p < String.length pre)%nat ->
            substring p 4 (QualType.getAsString type) <> "isl_")
  /\ ((forall p, substring p 4 (QualType.getAsString type) <> "isl_") <->
      type2cpp noexc type = Fail OutOfRange).
Proof.
  intros H1 H2 H3 H4.
  assert (E : type2cpp noexc type
              = replace_isl_prefix (QualType.getAsString type)).
  { destruct type; simpl in *; rewrite H1, H2, H3; try rewrite H4;
      try discriminate; reflexivity. }
  rewrite E. split.
  - intros r. apply replace_isl_prefix_ok.
  - apply replace_isl_prefix_fails.
Qed.

Lemma X3_witness :
  exists pre post,
    "enum isl_dim_type" = pre ++ "isl_" ++ post
    /\ "enum isl::dim_type" = pre ++ "isl::" ++ post
    /\ forall p, (p < String.length pre)%nat ->
         substring p 4 "enum isl_dim_type" <> "isl_".
Proof.
  exact (proj1
           (X3_enum_rendering_replaces_first_isl_prefix (G := isl_generator)
              false (QualType.Plain "enum isl_dim_type" true true)
              eq_refl eq_refl eq_refl eq_refl)
           "enum isl::dim_type" eq_refl).
Defined.

(** X4.  The two modes render a type differently only where [isl_bool],
    [isl_stat] or a callback is involved: an isl object type, and any
    type that is none of the three, has the same rendering, or the same
    failure, in both. *)
Theorem X4_modes_agree_outside_bool_stat_callback {G : generator}
    (type : QualType.t) :
  is_isl_type type = true
  \/ (is_isl_bool type = false /\ is_isl_stat type = false
      /\ is_callback type = false) ->
  type2cpp true type = type2cpp false type.
Proof.
  intros [H | (H1 & H2 & H3)].
  - destruct type; simpl in *; rewrite H; reflexivity.
  - destruct type; simpl in *; rewrite H1, H2, ?H3;
      repeat match goal with
        | |- context [if ?b then _ else _] => destruct b
        end; reflexivity.
Qed.

Lemma X4_witness :
  type2cpp (G := isl_generator) true ty_set
  = type2cpp (G := isl_generator) false ty_set.
Proof.
  apply (X4_modes_agree_outside_bool_stat_callback (G := isl_generator)).
  left. reflexivity.
Defined.


(** X5.  For a callback whose last argument is the user pointer, the C++
    type of the closure lists the renderings of all arguments but the
    last, separated by commas, inside [std::function<R(...)>] with [R]
    the rendering of the result type; the type of the user pointer is
    never rendered.  The parameter list of the trampoline lists every
    argument, the user pointer included, as its C spelling followed by
    [arg_] and its index. *)
Theorem X5_callback_type_hides_the_user_pointer {G : generator}
    (noexc : bool) (type callback rtype : QualType.t)
    (front : list QualType.t) (user : QualType.t) :
  getAs_FunctionProtoType type = Some (callback, rtype, (front ++ [user])%list)
  ->
  generate_callback_args noexc type false
  = Ok (separated ", " (trampoline_params 0 (front ++ [user])%list))
  /\ forall R Ts,
       type2cpp noexc rtype = Ok R ->
       Forall2 (fun a T => type2cpp noexc a = Ok T) front Ts ->
       generate_callback_args noexc type true = Ok (separated ", " Ts)
       /\ generate_callback_type noexc type
          = Ok ("std::function<" ++ R ++ "(" ++ separated ", " Ts ++ ")>").
Proof.
  intros Hf. unfold generate_callback_args, generate_callback_type.
  rewrite Hf. unfold generate_callback_type_with, generate_callback_args_with.
  split.
  - apply callback_args_loop_c. lia.
  - intros R Ts HR HTs.
    assert (E : callback_args_loop (type2cpp noexc) true
                  (Z.of_nat (List.length (front ++ [user])%list) - 1) 0
                  (front ++ [user])%list
                = Ok (separated ", " Ts)).
    { apply callback_args_loop_cpp; [exact HTs |].
      rewrite length_app. simpl List.length. lia. }
    split; [exact E |]. rewrite HR. cbn [rbind]. rewrite E. reflexivity.
Qed.

Lemma X5_witness :
  generate_callback_args (G := isl_generator) false ty_callback false
  = Ok "isl_basic_set *arg_0, void *arg_1"
  /\ generate_callback_type (G := isl_generator) true ty_callback
     = Ok "std::function<isl::stat(isl::basic_set)>".
Proof.
  destruct (X5_callback_type_hides_the_user_pointer (G := isl_generator)
              false ty_callback _ ty_stat [ty_basic_set] ty_user eq_refl)
    as [Hc _].
  destruct (X5_callback_type_hides_the_user_pointer (G := isl_generator)
              true ty_callback _ ty_stat [ty_basic_set] ty_user eq_refl)
    as [_ Hcpp].
  assert (HTs : Forall2 (fun a T => type2cpp (G := isl_generator) true a = Ok T)
                  [ty_basic_set] ["isl::basic_set"])
    by (constructor; [reflexivity | constructor]).
  destruct (Hcpp "isl::stat" ["isl::basic_set"] eq_refl HTs) as [_ Ht].
  exact (conj Hc Ht).
Defined.

(** X6.  The header of the definition of a method or constructor agrees
    with the header of its declaration: both are built from the same
    return type, class name, method name and parameter list.  The
    declaration adds the indentation, [static], [inline], the marking of
    a constructor and the semicolon; the definition adds the
    qualification with the class name. *)
Theorem X6_definition_header_agrees_with_declaration {G : generator}
    (fuel fuel' : nat) (clazz : class_ref) (method : FunctionDecl.t)
    (fullname fullname' : string) (kind : function_kind)
    (g g1 g2 g3 : cpp_generator) (od oi : string) :
  noexceptions g2 = noexceptions g ->
  print_method_header fuel clazz method fullname true kind g
  = (g1, od, Ok tt) ->
  print_method_header fuel' clazz method fullname' false kind g2
  = (g3, oi, Ok tt) ->
  exists implicit rettype classname cname params,
    od = header_text true kind implicit rettype classname cname params
    /\ oi = header_text false kind implicit rettype classname cname params.
Proof.
  intros Hn Hd Hi.
  apply print_method_header_parts in Hd.
  destruct Hd as (rt & sub & implicit & P & Hrt & Hsub & Hn1 & HP & ->).
  apply print_method_header_parts in Hi.
  destruct Hi as (rt' & sub' & implicit' & P' & Hrt' & Hsub' & Hn3 & HP' & ->).
  rewrite Hn, Hrt in Hrt'. injection Hrt' as <-.
  rewrite Hsub in Hsub'. injection Hsub' as <-.
  assert (Hm : noexceptions g3 = noexceptions g1) by congruence.
  destruct (header_params_loop_mode
              (skipn (first_param kind) (FunctionDecl.params method))
              (FunctionDecl.getNumParams method)
              (Z.of_nat (first_param kind)) g1 g3 Hm) as [Ht _].
  rewrite HP, HP' in Ht. unfold text_of in Ht. cbn [fst snd] in Ht.
  subst P'.
  exists implicit, (synthesized_return_type clazz rt sub), sub,
    (rename_method (method_name clazz method)), P.
  split; reflexivity.
Qed.

Lemma X6_witness :
  exists implicit rettype classname cname params,
    text_of (print_method_header 0 ex_set_ref ex_intersect "intersect" true
               function_kind_member_method ex_gen)
    = header_text true function_kind_member_method implicit rettype classname
        cname params
    /\ text_of (print_method_header 0 ex_set_ref ex_intersect "intersect"
                  false function_kind_member_method ex_gen)
       = header_text false function_kind_member_method implicit rettype
           classname cname params.
Proof.
  assert (D : print_method_header 0 ex_set_ref ex_intersect "intersect" true
                function_kind_member_method ex_gen
              = (ex_gen,
                 text_of (print_method_header 0 ex_set_ref ex_intersect
                            "intersect" true function_kind_member_method
                            ex_gen), Ok tt))
    by (vm_compute; reflexivity).
  assert (I : print_method_header 0 ex_set_ref ex_intersect "intersect" false
                function_kind_member_method ex_gen
              = (ex_gen,
                 text_of (print_method_header 0 ex_set_ref ex_intersect
                            "intersect" false function_kind_member_method
                            ex_gen), Ok tt))
    by (vm_compute; reflexivity).
  exact (X6_definition_header_agrees_with_declaration _ _ _ _ _ _ _ _ _ _ _
           _ _ eq_refl D I).
Defined.

(** X7.  The header of a method that is no constructor lists, between
    the parentheses and separated by commas, the parameters of the isl
    function from the first one that is not the receiver on; when the
    last two parameters are a callback and its user pointer, the user
    pointer is left out and its type is never rendered.  With renderings
    for the return type, the class and the listed parameters, the header
    is printed in full and the generator object is left as it was. *)
Theorem X7_header_lists_the_exposed_parameters {G : generator} (fuel : nat)
    (clazz : class_ref) (method : FunctionDecl.t) (fullname : string)
    (is_declaration : bool) (kind : function_kind) (g : cpp_generator)
    (rettype sub : string) (exposed : list ParmVarDecl.t)
    (ds : list string) :
  kind <> function_kind_constructor ->
  type2cpp (noexceptions g) (FunctionDecl.getReturnType method) = Ok rettype ->
  type2cpp_class clazz = Ok sub ->
  (is_type_subclass clazz = true ->
   exists super, type2cpp_str (isl_class.name clazz) = Ok super) ->
  exposes (skipn (first_param kind) (FunctionDecl.params method)) exposed ->
  Forall2 (fun param d => param_decl (noexceptions g) param = Ok d)
    exposed ds ->
  print_method_header fuel clazz method fullname is_declaration kind g
  = (g,
     method_header_text is_declaration kind
       (synthesized_return_type clazz rettype sub) sub
       (rename_method (method_name clazz method)) (separated ", " ds),
     Ok tt).
Proof.
  intros Hk Hrt Hsub Hsuper He HF.
  pose proof (header_params_loop_skipn g _ _ _ _ He HF) as HP.
  pose proof (super2sub_run clazz rettype sub Hsub Hsuper) as Hs.
  unfold print_method_header. cbv zeta.
  unfold first_param in HP. unfold FunctionDecl.getNumParams.
  rewrite (function_kind_eqb_constructor _ Hk). cbn [negb].
  unfold method_header_text. revert HP.
  destruct is_declaration;
    destruct (function_kind_eqb kind function_kind_static_method);
    destruct (function_kind_eqb kind function_kind_member_method);
    intros HP; cbn [negb]; run; rewrite type2cpp_m_run, Hrt; run;
    rewrite Hsub; run;
    rewrite Hs; run; rewrite HP; run; text_eq.
Qed.

Lemma X7_witness :
  print_method_header 0 ex_set_ref ex_foreach_basic_set "foreach_basic_set"
    true function_kind_member_method ex_gen
  = (ex_gen,
     "  inline void foreach_basic_set("
     ++ "const std::function<void(isl::basic_set)> &fn) const;" ++ nl,
     Ok tt).
Proof.
  assert (He : exposes
                 (skipn (first_param function_kind_member_method)
                    (FunctionDecl.params ex_foreach_basic_set))
                 [parm "fn" ty_callback []]).
  { apply (exposes_callback [] (parm "fn" ty_callback [])
             (parm "user" ty_user [])).
    - constructor.
    - split; reflexivity. }
  assert (HF : Forall2
                 (fun param d => param_decl (noexceptions ex_gen) param = Ok d)
                 [parm "fn" ty_callback []]
                 ["const std::function<void(isl::basic_set)> &fn"])
    by (constructor; [reflexivity | constructor]).
  assert (Hk : function_kind_member_method <> function_kind_constructor)
    by discriminate.
  assert (Hs : is_type_subclass ex_set_ref = true ->
               exists super, type2cpp_str (isl_class.name ex_set_ref)
                             = Ok super)
    by (intros H; discriminate H).
  exact (X7_header_lists_the_exposed_parameters 0 ex_set_ref
           ex_foreach_basic_set "foreach_basic_set" true
           function_kind_member_method ex_gen "void" "set" _ _
           Hk eq_refl eq_refl Hs He HF).
Defined.


(** X8.  In exception mode the validity check of a method of any kind
    is the empty text when there is nothing to test, and otherwise one
    [if] over the tests joined by [||], followed by the statement that
    throws the failure for invalid input.  The tests are [!ptr] for the
    receiver of a member method and [is_null()] of every argument that
    is an isl object other than the context; a static method or a
    constructor tests its first parameter like the others.  The check
    never fails and leaves the generator object as it was. *)
Theorem X8_validity_check_of_any_kind {G : generator}
    (method : FunctionDecl.t) (kind : function_kind) (g : cpp_generator) :
  noexceptions g = false ->
  print_argument_validity_check method kind g
  = (g,
     validity_check_text (validity_tests kind (FunctionDecl.params method)),
     Ok tt).
Proof.
  intros Hn. unfold print_argument_validity_check, validity_tests.
  rewrite bind_read, Hn.
  destruct (function_kind_eqb kind function_kind_member_method) eqn:Ek.
  - destruct (FunctionDecl.params method) as [| this rest]; [reflexivity |].
    cbn [validity_loop]. cbv zeta. rewrite Ek. cbn [Z.eqb andb negb].
    run. rewrite (validity_loop_tests kind g rest 1 false);
      [| lia | reflexivity].
    run. unfold validity_check_text.
    destruct (filter checked_argument rest) as [| p ps]; cbn [map].
    + rewrite separated_one. text_eq.
    + rewrite separated_cons. text_eq.
  - run. rewrite (validity_loop_tests kind g _ 0 true);
      [| lia | rewrite Ek; apply andb_false_r].
    unfold validity_check_text.
    destruct (filter checked_argument (FunctionDecl.params method))
      as [| p ps]; cbn [map andb]; run; [reflexivity |].
    text_eq.
Qed.

Lemma X8_witness :
  print_argument_validity_check ex_from_basic_set function_kind_constructor
    ex_gen
  = (ex_gen,
     "  if (bset.is_null())" ++ nl ++ throw_NULL_input,
     Ok tt).
Proof.
  exact (X8_validity_check_of_any_kind ex_from_basic_set
           function_kind_constructor ex_gen eq_refl).
Defined.



(** X10.  In exception mode, for a method with a first parameter: the
    expression for the isl context is [get_ctx()] in a member method,
    the first parameter when it is the context, and the local [ctx]
    otherwise; that local is declared, before it is used, from the first
    parameter that is an isl object, and in no other case; and isl is
    told to continue on errors with that expression. *)
Theorem X10_context_for_error_reports {G : generator}
    (method : FunctionDecl.t) (kind : function_kind) (g : cpp_generator)
    (first : ParmVarDecl.t) (rest : list ParmVarDecl.t) :
  FunctionDecl.params method = first :: rest ->
  noexceptions g = false ->
  print_method_ctx method kind g = (g, method_ctx_text kind first, Ok tt)
  /\ print_save_ctx method kind g
     = (g,
        if function_kind_eqb kind function_kind_member_method
           || is_isl_ctx (ParmVarDecl.getOriginalType first)
        then "" else saved_ctx_text (first :: rest),
        Ok tt)
  /\ print_on_error_continue method kind g
     = (g,
        "  options_scoped_set_on_error saved_on_error("
        ++ method_ctx_text kind first ++ ", ISL_ON_ERROR_CONTINUE);" ++ nl,
        Ok tt).
Proof.
  intros Hp Hn. split; [| split].
  - apply (print_method_ctx_run method kind first rest g Hp).
  - unfold print_save_ctx, getParamDecl. rewrite Hp.
    cbn [nth_error expect]. rewrite bind_lift. cbv zeta.
    rewrite bind_read, Hn.
    destruct (function_kind_eqb kind function_kind_member_method);
      [reflexivity |].
    destruct (is_isl_ctx (ParmVarDecl.getOriginalType first));
      [reflexivity |].
    apply save_ctx_loop_run.
  - unfold print_on_error_continue. rewrite bind_read, Hn.
    run. rewrite (print_method_ctx_run method kind first rest g Hp).
    run. text_eq.
Qed.

Lemma X10_witness :
  print_save_ctx ex_from_basic_set function_kind_constructor ex_gen
  = (ex_gen, "  auto ctx = bset.get_ctx();" ++ nl, Ok tt)
  /\ print_method_ctx ex_intersect function_kind_member_method ex_gen
     = (ex_gen, "get_ctx()", Ok tt).
Proof.
  split.
  - exact (proj1 (proj2 (X10_context_for_error_reports ex_from_basic_set
                           function_kind_constructor ex_gen _ _ eq_refl
                           eq_refl))).
  - exact (proj1 (X10_context_for_error_reports ex_intersect
                    function_kind_member_method ex_gen _ _ eq_refl eq_refl)).
Defined.

(** X11.  In exception mode the check that follows the call in a method
    with a first parameter and without callback parameters is one test
    of the result: [res < 0] for a result of type [isl_stat] or
    [isl_bool], [!res] for an isl object, each throwing the last error
    of the context, and no test for any other result. *)
Theorem X11_result_of_the_call_is_tested {G : generator}
    (method : FunctionDecl.t) (kind : function_kind) (g : cpp_generator)
    (first : ParmVarDecl.t) (rest : list ParmVarDecl.t) :
  FunctionDecl.params method = first :: rest ->
  has_callback_parameter (FunctionDecl.params method) = false ->
  noexceptions g = false ->
  print_exceptional_execution_check method kind g
  = (g,
     result_check_text (FunctionDecl.getReturnType method)
       (method_ctx_text kind first),
     Ok tt).
Proof.
  intros Hp Hc Hn. unfold print_exceptional_execution_check. cbv zeta.
  rewrite bind_read, Hn.
  unfold result_check_text.
  destruct (is_isl_stat (FunctionDecl.getReturnType method)
            || is_isl_bool (FunctionDecl.getReturnType method));
    [| destruct (is_isl_type (FunctionDecl.getReturnType method))];
    cbn [negb andb]; rewrite ?andb_false_r; run;
    rewrite for_each_print_rethrow_run, Hc; run;
    rewrite ?(print_method_ctx_run method kind first rest g Hp); run;
    text_eq.
Qed.

Lemma X11_witness :
  print_exceptional_execution_check ex_intersect function_kind_member_method
    ex_gen
  = (ex_gen,
     "  if (!res)" ++ nl
     ++ "    throw exception::create_from_last_error(get_ctx());" ++ nl,
     Ok tt).
Proof.
  exact (X11_result_of_the_call_is_tested ex_intersect
           function_kind_member_method ex_gen _ _ eq_refl eq_refl eq_refl).
Defined.


(** X12.  The forward declarations, the implementations of a class and
    of all classes, the definition of any method or constructor and the
    declarations of the methods of a class never change the generator
    object, whether they come to their end or not: of all printers only
    the declaration of a constructor can touch the class map. *)
Theorem X12_only_constructor_declarations_touch_the_class_map
    {G : generator} (fuel : nat) (g : cpp_generator) :
  state_of (print_forward_declarations fuel g) = g
  /\ state_of (print_implementations fuel g) = g
  /\ forall clazz,
       state_of (print_class_impl fuel clazz g) = g
       /\ state_of (print_methods_decl fuel clazz g) = g
       /\ forall fullname method kind,
            state_of (print_method_impl fuel clazz fullname method kind g) = g
            /\ (kind <> function_kind_constructor ->
                forall is_declaration,
                  state_of (print_method_header fuel clazz method fullname
                              is_declaration kind g) = g)
            /\ state_of (print_method_header fuel clazz method fullname false
                           kind g) = g.
Proof.
  split; [apply read_only_print_forward_declarations |].
  split; [apply read_only_print_implementations |].
  intros clazz.
  split; [apply read_only_print_class_impl |].
  split; [apply read_only_print_methods_decl |].
  intros fullname method kind.
  split; [apply read_only_print_method_impl |].
  split.
  - intros Hk is_declaration.
    apply read_only_print_method_header_method. exact Hk.
  - apply read_only_print_method_header.
Qed.

(** X13.  Whatever its outcome, a run of [generate] keeps the mode,
    keeps every entry of the class map as it is, and adds nothing but
    default-constructed classes under keys that had no entry; a class
    map in key order stays in key order. *)
Theorem X13_generate_only_adds_default_classes {G : generator} (fuel : nat)
    (g : cpp_generator) :
  noexceptions (state_of (generate fuel g)) = noexceptions g
  /\ (forall k c, map_find (classes g) k = Some c ->
        map_find (classes (state_of (generate fuel g))) k = Some c)
  /\ (forall k c,
        map_find (classes (state_of (generate fuel g))) k = Some c ->
        map_find (classes g) k = Some c
        \/ (map_find (classes g) k = None /\ c = isl_class.default))
  /\ (keys_sorted (classes g) = true ->
      keys_sorted (classes (state_of (generate fuel g))) = true).
Proof.
  destruct (monotone_generate fuel g) as [Hn Hm].
  split; [exact Hn |].
  split; [apply map_find_grows; exact Hm |].
  split; [apply map_find_grows_inv; exact Hm |].
  apply keys_sorted_grows. exact Hm.
Qed.

(** X14.  A class whose name has fewer than four characters, such as a
    default-constructed class, cannot be printed: no run of [generate]
    over a class map in key order that holds such a class comes to its
    end. *)
Theorem X14_short_class_name_stops_the_generator {G : generator}
    (fuel : nat) (g : cpp_generator) (k : string) (c : isl_class.t) :
  keys_sorted (classes g) = true ->
  In (k, c) (classes g) ->
  (String.length (isl_class.subclass_name c) < 4)%nat ->
  forall g' out, generate fuel g <> (g', out, Ok tt).
Proof.
  intros Hs Hin Hlen g' out Hrun.
  apply generate_ok in Hrun; [| exact Hs].
  destruct Hrun as (_ & names & _ & _ & Hnames & _).
  destruct (Forall2_in_l _ _ _ Hnames _ Hin) as (n & Hn).
  unfold type2cpp_class, type2cpp_str in Hn. cbn [snd] in Hn.
  apply substr_none in Hlen. rewrite Hlen in Hn. discriminate Hn.
Qed.

Lemma X14_witness :
  value_of (generate (G := isl_generator) 2
              (mk_gen false [("isl_basic_set", isl_class.default)]))
  <> Ok tt.
Proof.
  destruct (generate (G := isl_generator) 2
              (mk_gen false [("isl_basic_set", isl_class.default)]))
    as [[g' out] v] eqn:E.
  cbn [value_of snd]. intros ->.
  apply (X14_short_class_name_stops_the_generator (G := isl_generator) 2
           (mk_gen false [("isl_basic_set", isl_class.default)])
           "isl_basic_set" isl_class.default) with (g' := g') (out := out).
  - reflexivity.
  - left. reflexivity.
  - simpl. lia.
  - exact E.
Defined.

(** X15.  The optional members of a class are declared exactly when
    they are defined.  For a class without a type function neither the
    declarations nor the definitions of [isa] and [as] are printed, and
    for a class with one both are; for a class without a conversion to
    a string neither the declaration nor the definition of [to_str] is
    printed, and for a class with one both are. *)
Theorem X15_optional_members_declared_iff_defined {G : generator}
    (clazz : class_ref) (g : cpp_generator) (cppname : string) :
  type2cpp_class clazz = Ok cppname ->
  (isl_class.fn_type clazz = None ->
   print_downcast_decl clazz g = (g, "", Ok tt)
   /\ print_downcast_impl clazz g = (g, "", Ok false))
  /\ (forall fn_type,
        isl_class.fn_type clazz = Some fn_type ->
        print_downcast_decl clazz g
        = (g, downcast_decl_text (noexceptions g), Ok tt)
        /\ print_downcast_impl clazz g
           = (g,
              isa_text (noexceptions g) cppname (FunctionDecl.getName fn_type)
              ++ as_text (noexceptions g) cppname,
              Ok true))
  /\ (isl_class.fn_to_str clazz = None ->
      print_str_decl clazz g = (g, "", Ok tt)
      /\ print_str_impl clazz g = (g, "", Ok tt))
  /\ (forall fn_to_str,
        isl_class.fn_to_str clazz = Some fn_to_str ->
        print_str_decl clazz g
        = (g, "  inline std::string to_str() const;" ++ nl, Ok tt)
        /\ print_str_impl clazz g
           = (g,
              "std::string " ++ cppname ++ "::to_str() const {" ++ nl
              ++ "  char *Tmp = " ++ isl_class.name clazz ++ "_to_str(get());"
              ++ nl
              ++ "  if (!Tmp)" ++ nl
              ++ "    return " ++ dq ++ dq ++ ";" ++ nl
              ++ "  std::string S(Tmp);" ++ nl
              ++ "  free(Tmp);" ++ nl
              ++ "  return S;" ++ nl
              ++ "}" ++ nl ++ nl,
              Ok tt)).
Proof.
  intros Hc.
  pose proof (print_downcast_decl_run clazz g) as Hd.
  pose proof (print_downcast_impl_run clazz g cppname Hc) as Hi.
  split; [| split; [| split]].
  - intros E. rewrite E in Hd, Hi. auto.
  - intros fn_type E. rewrite E in Hd, Hi. auto.
  - intros E. unfold print_str_decl, print_str_impl. rewrite E. auto.
  - intros fn E. unfold print_str_decl, print_str_impl. rewrite E, Hc.
    split; [reflexivity |]. run. text_eq.
Qed.

Lemma X15_witness :
  print_downcast_decl ex_node_ref ex_gen
  = (ex_gen,
     "  template <class T> inline bool isa();" ++ nl
     ++ "  template <class T> inline T as();" ++ nl,
     Ok tt)
  /\ print_downcast_impl ex_set_ref ex_gen = (ex_gen, "", Ok false).
Proof.
  split.
  - exact (proj1 (proj1 (proj2 (X15_optional_members_declared_iff_defined
                                  ex_node_ref ex_gen "schedule_node" eq_refl))
                    ex_get_type eq_refl)).
  - exact (proj2 (proj1 (X15_optional_members_declared_iff_defined
                           ex_set_ref ex_gen "set" eq_refl) eq_refl)).
Defined.


